(** * TechForge orchestration engine: a shallow embedding of
    [src/orchestration/orchestrator.py] and the properties of its
    classification, decomposition, time-estimation, scheduling and
    metrics code.

    Conventions of the embedding.
    - Python [str] is [string]; [str.lower] is the ASCII lower-casing and
      [kw in text] is the substring test.
    - Python [float] quantities (durations, rates) are exact rationals [Q];
      an [int] that flows into such a position is injected with [inject_Z].
    - A [dict] whose iteration order matters is an association list in
      insertion order; [performance_metrics] is a [gmap]; the scheduler's
      [completed] set is a [gset].
    - [list(set(xs))] iterates in an order fixed by the interpreter's hashing;
      the order is a parameter ([HashOrder]) of which only the set-theoretic
      laws are known.
    - [uuid4().hex[:8]] is drawn from an id supply [nat -> string] threaded
      with a call counter.
    - An exception ([KeyError], [ZeroDivisionError], [NetworkXUnfeasible]) is
      [None].
    - The calls into [networkx] ([DiGraph], [dag_longest_path_length] and the
      topological sort under it) are modelled after the library's code.
    - The coroutines of [_execute_subtasks] are an interleaving of events;
      the worker it calls through [self] is a parameter of the scheduler. *)

From Stdlib Require Import QArith Lqa.
From stdpp Require Import base option list gmap strings pretty sorting.
From Stdlib Require Import Ascii.

Local Open Scope Z_scope.

(** ** Task analysis data *)

Inductive TaskComplexity := SIMPLE | MODERATE | COMPLEX | EXPERT.

Inductive TaskDomain :=
  | BACKEND | FRONTEND | DATABASE | DEVOPS | SECURITY | TESTING | ML_AI
  | MOBILE | GAME | IOT | DESIGN | REFACTORING | FULL_STACK.

#[global] Instance TaskComplexity_eq_dec : EqDecision TaskComplexity.
Proof. solve_decision. Defined.

#[global] Instance TaskDomain_eq_dec : EqDecision TaskDomain.
Proof. solve_decision. Defined.

Definition domain_value (d : TaskDomain) : string :=
  match d with
  | BACKEND => "backend" | FRONTEND => "frontend" | DATABASE => "database"
  | DEVOPS => "devops" | SECURITY => "security" | TESTING => "testing"
  | ML_AI => "ml_ai" | MOBILE => "mobile" | GAME => "game" | IOT => "iot"
  | DESIGN => "design" | REFACTORING => "refactoring"
  | FULL_STACK => "full_stack"
  end.

Definition complexity_name (c : TaskComplexity) : string :=
  match c with
  | SIMPLE => "simple" | MODERATE => "moderate"
  | COMPLEX => "complex" | EXPERT => "expert"
  end.

Record SubTask := mkSubTask {
  id : string;
  description : string;
  agent_id : string;
  domain : TaskDomain;
  dependencies : list string;
  priority : Z;
  estimated_time : Q;
  metadata : list (string * string)
}.

Record TaskAnalysis := mkTaskAnalysis {
  task_id : string;
  original_task : string;
  complexity : TaskComplexity;
  domains : list TaskDomain;
  required_agents : list string;
  subtasks : list SubTask;
  dependency_map : list (string * list string);
  total_estimated_time : Q;
  confidence : Q
}.

(** ** Static registries *)

Record Capability := mkCapability {
  cap_domains : list TaskDomain;
  skills : list string;
  complexity_limit : TaskComplexity;
  parallel_capacity : nat
}.

Record Pattern := mkPattern {
  keywords : list string;
  agents : list string;
  pattern_complexity : TaskComplexity
}.

Definition AGENT_CAPABILITIES : list (string * Capability) :=
  [ ("backend-expert",
     mkCapability [BACKEND; FULL_STACK]
       ["api"; "microservices"; "database"; "authentication"; "performance"]
       EXPERT 3);
    ("frontend-expert",
     mkCapability [FRONTEND; FULL_STACK]
       ["ui"; "responsive"; "spa"; "components"; "state-management"]
       EXPERT 3);
    ("database-expert",
     mkCapability [DATABASE]
       ["schema"; "optimization"; "migration"; "replication"; "nosql"]
       EXPERT 2);
    ("devops-expert",
     mkCapability [DEVOPS]
       ["ci-cd"; "infrastructure"; "deployment"; "monitoring"; "cloud"]
       EXPERT 2);
    ("security-expert",
     mkCapability [SECURITY]
       ["audit"; "penetration"; "encryption"; "compliance"; "authentication"]
       EXPERT 2);
    ("qa-expert",
     mkCapability [TESTING]
       ["unit-testing"; "e2e"; "performance"; "automation"; "coverage"]
       COMPLEX 3);
    ("ai-ml-expert",
     mkCapability [ML_AI]
       ["training"; "models"; "inference"; "data-pipeline"; "optimization"]
       EXPERT 1);
    ("mobile-expert",
     mkCapability [MOBILE]
       ["ios"; "android"; "cross-platform"; "native"; "responsive"]
       EXPERT 2);
    ("game-expert",
     mkCapability [GAME]
       ["graphics"; "physics"; "multiplayer"; "optimization"; "engines"]
       EXPERT 1);
    ("hardware-iot-expert",
     mkCapability [IOT]
       ["embedded"; "sensors"; "protocols"; "firmware"; "edge-computing"]
       COMPLEX 1);
    ("uiux-principal",
     mkCapability [DESIGN]
       ["ux"; "accessibility"; "design-systems"; "prototyping"; "research"]
       COMPLEX 2);
    ("web-design-agent",
     mkCapability [DESIGN; FRONTEND]
       ["web-design"; "seo"; "performance"; "pwa"; "responsive"]
       COMPLEX 2);
    ("refactor-agent",
     mkCapability [REFACTORING]
       ["code-quality"; "patterns"; "modernization"; "debt-reduction";
        "automation"]
       EXPERT 1) ].

Definition TASK_PATTERNS : list (string * Pattern) :=
  [ ("api_creation",
     mkPattern ["api"; "rest"; "graphql"; "endpoint"; "service"]
       ["backend-expert"] MODERATE);
    ("ui_component",
     mkPattern ["component"; "ui"; "interface"; "widget"; "frontend"]
       ["frontend-expert"] SIMPLE);
    ("full_stack_feature",
     mkPattern ["feature"; "application"; "full-stack"; "end-to-end"]
       ["backend-expert"; "frontend-expert"; "database-expert"] COMPLEX);
    ("database_optimization",
     mkPattern ["database"; "query"; "optimize"; "performance"; "index"]
       ["database-expert"] MODERATE);
    ("security_audit",
     mkPattern ["security"; "vulnerability"; "audit"; "penetration";
                "compliance"]
       ["security-expert"] COMPLEX);
    ("deployment",
     mkPattern ["deploy"; "ci/cd"; "pipeline"; "infrastructure"; "cloud"]
       ["devops-expert"] MODERATE);
    ("testing",
     mkPattern ["test"; "testing"; "qa"; "coverage"; "automation"]
       ["qa-expert"] MODERATE);
    ("ml_model",
     mkPattern ["machine learning"; "ml"; "ai"; "model"; "training"]
       ["ai-ml-expert"] COMPLEX);
    ("mobile_app",
     mkPattern ["mobile"; "ios"; "android"; "app"; "native"]
       ["mobile-expert"] COMPLEX);
    ("refactoring",
     mkPattern ["refactor"; "clean"; "optimize"; "modernize"; "tech debt"]
       ["refactor-agent"] MODERATE) ].

(** [d[k]] on a dict: [None] stands for [KeyError]. *)
Fixpoint dict_get {V : Type} (k : string) (d : list (string * V)) : option V :=
  match d with
  | [] => None
  | (k', v) :: rest => if decide (k' = k) then Some v else dict_get k rest
  end.

Definition dict_keys {V : Type} (d : list (string * V)) : list string :=
  map fst d.

(** [d[k] = v] on an insertion-ordered dict. *)
Fixpoint dict_set {V : Type} (k : string) (v : V) (d : list (string * V))
  : list (string * V) :=
  match d with
  | [] => [(k, v)]
  | (k', v') :: rest =>
      if decide (k' = k) then (k, v) :: rest else (k', v') :: dict_set k v rest
  end.

(** [del d[k]]. *)
Definition dict_del {V : Type} (k : string) (d : list (string * V))
  : list (string * V) :=
  filter (fun kv => kv.1 <> k) d.

(** ** Strings *)

Definition lower_ascii (c : ascii) : ascii :=
  let n := nat_of_ascii c in
  if ((65 <=? n) && (n <=? 90))%nat then ascii_of_nat (n + 32) else c.

Fixpoint lower (s : string) : string :=
  match s with
  | EmptyString => EmptyString
  | String c rest => String (lower_ascii c) (lower rest)
  end.

(** [kw in text]. *)
Fixpoint contains (kw text : string) : bool :=
  String.prefix kw text ||
  match text with
  | EmptyString => false
  | String _ rest => contains kw rest
  end.

(** [any(keyword in task_lower for keyword in kws)]. *)
Definition any_keyword (kws : list string) (task_lower : string) : bool :=
  existsb (fun kw => contains kw task_lower) kws.

(** ** Iteration order of a Python set

    [list_of_set l] is [list(s)] for the set [s] obtained by inserting the
    elements of [l] in turn.  The order depends on the hash seed of the
    interpreter; the elements do not. *)

Class HashOrder (A : Type) := mkHashOrder {
  list_of_set : list A -> list A;
  list_of_set_NoDup : forall l, NoDup (list_of_set l);
  list_of_set_elem : forall l x, x ∈ list_of_set l <-> x ∈ l;
  list_of_inter : list A -> list A -> list A;
  list_of_inter_NoDup : forall a b, NoDup (list_of_inter a b);
  list_of_inter_elem :
    forall a b x, x ∈ list_of_inter a b <-> x ∈ a /\ x ∈ b
}.

(** One admissible order: first insertion first. *)
Definition insertion_order {A : Type} `{EqDecision A} : HashOrder A.
Proof.
  refine {| list_of_set := remove_dups;
            list_of_inter := fun a b => remove_dups (list_intersection a b) |}.
  - apply NoDup_remove_dups.
  - intros l x. apply elem_of_remove_dups.
  - intros a b. apply NoDup_remove_dups.
  - intros a b x. rewrite elem_of_remove_dups.
    apply list_elem_of_intersection.
Defined.

(** Another one: last insertion first. *)
Definition reverse_order {A : Type} `{EqDecision A} : HashOrder A.
Proof.
  refine {| list_of_set := fun l => reverse (remove_dups l);
            list_of_inter :=
              fun a b => reverse (remove_dups (list_intersection a b)) |}.
  - intros l. rewrite reverse_Permutation. apply NoDup_remove_dups.
  - intros l x. rewrite elem_of_reverse. apply elem_of_remove_dups.
  - intros a b. rewrite reverse_Permutation. apply NoDup_remove_dups.
  - intros a b x. rewrite elem_of_reverse, elem_of_remove_dups.
    apply list_elem_of_intersection.
Defined.

(** ** Task classifier *)

Section Classifier.
Context {HD : HashOrder TaskDomain} {HS : HashOrder string}.

(** [for agent in pattern_info['agents']: domains.extend(...)]. *)
Fixpoint extend_agent_domains (ags : list string) (acc : list TaskDomain)
  : option (list TaskDomain) :=
  match ags with
  | [] => Some acc
  | a :: rest =>
      c ← dict_get a AGENT_CAPABILITIES;
      extend_agent_domains rest (acc ++ cap_domains c)
  end.

(** The loop over [TASK_PATTERNS.items()] of [_identify_domains]. *)
Fixpoint scan_pattern_domains (ps : list (string * Pattern))
    (task_lower : string) (acc : list TaskDomain)
  : option (list TaskDomain) :=
  match ps with
  | [] => Some acc
  | (_, info) :: rest =>
      if any_keyword (keywords info) task_lower
      then acc' ← extend_agent_domains (agents info) acc;
           scan_pattern_domains rest task_lower acc'
      else scan_pattern_domains rest task_lower acc
  end.

Definition _identify_domains (task : string) : option (list TaskDomain) :=
  let task_lower := lower task in
  collected ← scan_pattern_domains TASK_PATTERNS task_lower [];
  let deduplicated := list_of_set collected in
  Some (match deduplicated with
        | [] => [FULL_STACK]
        | _ => deduplicated
        end).

Definition complex_indicators : list string :=
  ["architecture"; "system"; "infrastructure"; "migration";
   "integration"; "optimization"; "redesign"; "refactor"].

Definition expert_indicators : list string :=
  ["enterprise"; "scale"; "distributed"; "real-time";
   "high-performance"; "security-critical"; "compliance"].

Definition _assess_complexity (task : string) (doms : list TaskDomain)
  : TaskComplexity :=
  let task_lower := lower task in
  if any_keyword expert_indicators task_lower then EXPERT
  else if any_keyword complex_indicators task_lower then COMPLEX
  else if (2 <? length doms)%nat then COMPLEX
  else if (length doms =? 2)%nat then MODERATE
  else SIMPLE.

(** ** Role selector *)

Definition _complexity_value (c : TaskComplexity) : Z :=
  match c with
  | SIMPLE => 1 | MODERATE => 2 | COMPLEX => 3 | EXPERT => 4
  end.

(** Pattern-based selection: the insertion sequence into [selected_agents]. *)
Fixpoint pattern_agents (ps : list (string * Pattern)) (task_lower : string)
  : list string :=
  match ps with
  | [] => []
  | (_, info) :: rest =>
      if any_keyword (keywords info) task_lower
      then agents info ++ pattern_agents rest task_lower
      else pattern_agents rest task_lower
  end.

(** The inner loop of the domain-based selection, for one domain. *)
Fixpoint domain_agents (caps : list (string * Capability))
    (d : TaskDomain) (c : TaskComplexity) : list string :=
  match caps with
  | [] => []
  | (a, cap) :: rest =>
      if bool_decide (d ∈ cap_domains cap)
         && (_complexity_value c <=? _complexity_value (complexity_limit cap))
      then a :: domain_agents rest d c
      else domain_agents rest d c
  end.

Definition sensitive_keywords : list string :=
  ["auth"; "login"; "password"; "payment"; "sensitive"; "secure"].

(** Everything added to [selected_agents], in order of insertion. *)
Definition selected_insertions (task : string) (doms : list TaskDomain)
    (c : TaskComplexity) : list string :=
  let task_lower := lower task in
  pattern_agents TASK_PATTERNS task_lower
  ++ (doms ≫= fun d => domain_agents AGENT_CAPABILITIES d c)
  ++ (if bool_decide (c ∈ [COMPLEX; EXPERT]) then ["qa-expert"] else [])
  ++ (if any_keyword sensitive_keywords task_lower
      then ["security-expert"] else []).

Definition _select_agents (task : string) (doms : list TaskDomain)
    (c : TaskComplexity) : list string :=
  list_of_set (selected_insertions task doms c).

End Classifier.

(** ** Decomposer *)

Definition upper_ascii (c : ascii) : ascii :=
  let n := nat_of_ascii c in
  if ((97 <=? n) && (n <=? 122))%nat then ascii_of_nat (n - 32) else c.

Definition is_letter (c : ascii) : bool :=
  let n := nat_of_ascii c in
  ((65 <=? n) && (n <=? 90) || (97 <=? n) && (n <=? 122))%nat.

(** [s.title()]: a letter that follows a letter is lower-cased, any other
    letter is upper-cased. *)
Fixpoint title_from (after_letter : bool) (s : string) : string :=
  match s with
  | EmptyString => EmptyString
  | String c rest =>
      String (if after_letter then lower_ascii c else upper_ascii c)
             (title_from (is_letter c) rest)
  end.

Definition title (s : string) : string := title_from false s.

(** [s.replace('-', ' ')]. *)
Fixpoint replace_dash (s : string) : string :=
  match s with
  | EmptyString => EmptyString
  | String c rest =>
      String (if decide (c = "-"%char) then " "%char else c) (replace_dash rest)
  end.

(** [sep.join(parts)]. *)
Fixpoint join (sep : string) (parts : list string) : string :=
  match parts with
  | [] => ""
  | [x] => x
  | x :: rest => x +:+ sep +:+ join sep rest
  end.

Definition templates (task : string) : list (string * string) :=
  [ ("backend-expert", "Implement backend services and APIs for: " +:+ task);
    ("frontend-expert",
     "Create user interface and frontend components for: " +:+ task);
    ("database-expert", "Design and optimize database schema for: " +:+ task);
    ("devops-expert", "Set up infrastructure and deployment for: " +:+ task);
    ("security-expert",
     "Perform security audit and implement security measures for: " +:+ task);
    ("qa-expert", "Create and run comprehensive tests for: " +:+ task);
    ("ai-ml-expert",
     "Develop and train machine learning models for: " +:+ task);
    ("mobile-expert", "Implement mobile application features for: " +:+ task);
    ("game-expert", "Develop game mechanics and systems for: " +:+ task);
    ("hardware-iot-expert", "Implement IoT/hardware integration for: " +:+ task);
    ("uiux-principal", "Design user experience and interface for: " +:+ task);
    ("web-design-agent", "Create web design and implementation for: " +:+ task);
    ("refactor-agent", "Refactor and optimize code for: " +:+ task) ].

Definition _generate_subtask_description (task agent : string)
    (doms : list TaskDomain) : string :=
  let agent_name := title (replace_dash agent) in
  let domain_str := join ", " (map domain_value doms) in
  default (agent_name +:+ " handles " +:+ domain_str +:+ " aspects of: " +:+ task)
          (dict_get agent (templates task)).

Definition _calculate_priority (agent : string) (doms : list TaskDomain) : Z :=
  if bool_decide (agent ∈ ["uiux-principal"; "web-design-agent"]) then 1
  else if decide (agent = "database-expert") then 2
  else if decide (agent = "backend-expert") then 3
  else if decide (agent = "frontend-expert") then 4
  else if bool_decide (agent ∈ ["qa-expert"; "security-expert"]) then 5
  else if decide (agent = "devops-expert") then 6
  else 4.

Definition complexity_multipliers : list (string * Q) :=
  [ ("backend-expert", 12 # 10); ("frontend-expert", 1 # 1);
    ("database-expert", 8 # 10); ("devops-expert", 15 # 10);
    ("security-expert", 2 # 1); ("qa-expert", 13 # 10);
    ("ai-ml-expert", 3 # 1); ("mobile-expert", 15 # 10);
    ("game-expert", 2 # 1); ("hardware-iot-expert", 25 # 10);
    ("uiux-principal", 1 # 1); ("web-design-agent", 12 # 10);
    ("refactor-agent", 18 # 10) ].

Definition _estimate_agent_time (agent task : string) : Q :=
  let base_time := (inject_Z (Z.of_nat (String.length task)) * (1 # 100))%Q in
  let multiplier := default (1 # 1) (dict_get agent complexity_multipliers) in
  (base_time * multiplier)%Q.

Definition set_dependencies (deps : list string) (t : SubTask) : SubTask :=
  mkSubTask (id t) (description t) (agent_id t) (domain t) deps
            (priority t) (estimated_time t) (metadata t).

(** [sorted(subtasks, key=lambda x: x.priority)] is stable.  The sorted list
    holds the same objects as [subtasks]; an object is named by its position
    in [subtasks], which is carried along. *)
Fixpoint insert_by_priority (x : nat * SubTask) (l : list (nat * SubTask))
  : list (nat * SubTask) :=
  match l with
  | [] => [x]
  | y :: rest =>
      if priority x.2 <=? priority y.2 then x :: y :: rest
      else y :: insert_by_priority x rest
  end.

Definition sorted_by_priority (l : list SubTask) : list (nat * SubTask) :=
  foldr insert_by_priority [] (imap (fun i t => (i, t)) l).

(** Body of the loop of [_establish_dependencies] at position [i] of
    [sorted_tasks]; [store] holds the current state of the task objects. *)
Definition wire_step (sorted_tasks : list (nat * SubTask))
    (store : list SubTask) (i : nat) : list SubTask :=
  match i with
  | O => store
  | S i' =>
      match sorted_tasks !! i, sorted_tasks !! i' with
      | Some (r, task), Some (_, prev) =>
          let prev_priority := priority prev in
          if prev_priority <? priority task
          then
            let deps :=
              (fun p => id p.2) <$>
                filter (fun p => priority p.2 = prev_priority)
                       (take i sorted_tasks) in
            alter (set_dependencies deps) r store
          else store
      | _, _ => store
      end
  end.

Definition _establish_dependencies (sts : list SubTask) : list SubTask :=
  let sorted_tasks := sorted_by_priority sts in
  foldl (wire_step sorted_tasks) sts (seq 0 (length sorted_tasks)).

Definition _analyze_dependencies (sts : list SubTask)
  : list (string * list string) :=
  foldl (fun d t => dict_set (id t) (dependencies t) d) [] sts.

Section Decomposer.
Context {HD : HashOrder TaskDomain} {HS : HashOrder string}.
Variable uuid : nat -> string.

(** The loop of [_decompose_task]; [n] counts the calls to [uuid4] made so
    far, the final count is returned with the subtasks. *)
Fixpoint make_subtasks (task : string) (ags : list string)
    (doms : list TaskDomain) (n : nat) : option (list SubTask * nat) :=
  match ags with
  | [] => Some ([], n)
  | a :: rest =>
      capabilities ← dict_get a AGENT_CAPABILITIES;
      let agent_domains := list_of_inter (cap_domains capabilities) doms in
      match agent_domains with
      | [] => make_subtasks task rest doms n
      | primary :: _ =>
          let subtask :=
            mkSubTask ("subtask_" +:+ uuid n)
                      (_generate_subtask_description task a agent_domains)
                      a primary []
                      (_calculate_priority a doms)
                      (_estimate_agent_time a task) [] in
          '(more, n') ← make_subtasks task rest doms (S n);
          Some (subtask :: more, n')
      end
  end.

Definition _decompose_task (task : string) (ags : list string)
    (doms : list TaskDomain) (n : nat) : option (list SubTask * nat) :=
  '(sts, n') ← make_subtasks task ags doms n;
  Some (_establish_dependencies sts, n').

End Decomposer.

(** ** Directed graphs of [networkx]

    A [DiGraph] keeps its nodes and its edges in insertion order, each with
    an attribute dict.  Only the operations the engine calls are modelled. *)

Record DiGraph := mkDiGraph {
  g_node : list (string * list (string * Q));
  g_edge : list ((string * string) * list (string * Q))
}.

Definition empty_graph : DiGraph := mkDiGraph [] [].

(** [G.add_node(n, **attr)]. *)
Definition add_node (n : string) (attr : list (string * Q)) (G : DiGraph)
  : DiGraph :=
  let old := default [] (dict_get n (g_node G)) in
  let merged := foldl (fun d kv => dict_set kv.1 kv.2 d) old attr in
  mkDiGraph (dict_set n merged (g_node G)) (g_edge G).

(** A node that an edge mentions first is created without attributes. *)
Definition ensure_node (n : string) (G : DiGraph) : DiGraph :=
  if bool_decide (n ∈ dict_keys (g_node G)) then G
  else mkDiGraph (g_node G ++ [(n, [])]) (g_edge G).

(** [G.add_edge(u, v)]: both endpoints become nodes, the edge carries no
    attribute. *)
Definition add_edge (u v : string) (G : DiGraph) : DiGraph :=
  let G2 := ensure_node v (ensure_node u G) in
  if bool_decide ((u, v) ∈ (fst <$> g_edge G2)) then G2
  else mkDiGraph (g_node G2) (g_edge G2 ++ [((u, v), [])]).

(** [G.pred[v].items()] and [G.neighbors(u)]. *)
Definition predecessors (G : DiGraph) (v : string)
  : list (string * list (string * Q)) :=
  (fun e => (e.1.1, e.2)) <$> filter (fun e => e.1.2 = v) (g_edge G).

Definition successors (G : DiGraph) (u : string) : list string :=
  (fun e => e.1.2) <$> filter (fun e => e.1.1 = u) (g_edge G).

Definition in_degree (G : DiGraph) (v : string) : Z :=
  Z.of_nat (length (predecessors G v)).

(** [nx.topological_generations]: the inner loop over the children of one
    node; a child that is missing from [indegree_map] raises. *)
Fixpoint relax_children (children : list string)
    (indegree_map : list (string * Z)) (zero_indegree : list string)
  : option (list (string * Z) * list string) :=
  match children with
  | [] => Some (indegree_map, zero_indegree)
  | child :: rest =>
      d ← dict_get child indegree_map;
      let d' := d - 1 in
      if d' =? 0
      then relax_children rest (dict_del child indegree_map)
                          (zero_indegree ++ [child])
      else relax_children rest (dict_set child d' indegree_map) zero_indegree
  end.

Fixpoint process_generation (G : DiGraph) (this_generation : list string)
    (indegree_map : list (string * Z)) (zero_indegree : list string)
  : option (list (string * Z) * list string) :=
  match this_generation with
  | [] => Some (indegree_map, zero_indegree)
  | node :: rest =>
      '(m, z) ← relax_children (successors G node) indegree_map zero_indegree;
      process_generation G rest m z
  end.

(** The [while zero_indegree] loop; the final test raises
    [NetworkXUnfeasible] when nodes are left over.  Every round removes the
    next generation from [indegree_map], so [fuel] beyond the number of
    nodes is never used up. *)
Fixpoint generations_loop (fuel : nat) (G : DiGraph)
    (indegree_map : list (string * Z)) (zero_indegree : list string)
  : option (list (list string)) :=
  match zero_indegree with
  | [] => match indegree_map with [] => Some [] | _ => None end
  | _ =>
      match fuel with
      | O => None
      | S fuel' =>
          '(m, z) ← process_generation G zero_indegree indegree_map [];
          later ← generations_loop fuel' G m z;
          Some (zero_indegree :: later)
      end
  end.

Definition topological_generations (G : DiGraph) : option (list (list string)) :=
  let degrees := (fun n => (n, in_degree G n)) <$> dict_keys (g_node G) in
  let indegree_map := filter (fun nd => 0 < nd.2) degrees in
  let zero_indegree := fst <$> filter (fun nd => nd.2 = 0) degrees in
  generations_loop (S (length (g_node G))) G indegree_map zero_indegree.

Definition topological_sort (G : DiGraph) : option (list string) :=
  (fun gens => concat gens) <$> topological_generations G.

(** [data.get(weight, default_weight)]: the weight is read from the EDGE
    attribute dict. *)
Definition edge_weight (weight : string) (default_weight : Q)
    (data : list (string * Q)) : Q :=
  default default_weight (dict_get weight data).

(** [max(us, key=lambda x: x[0])]: the first maximal element. *)
Fixpoint first_max (best : Q * string) (us : list (Q * string)) : Q * string :=
  match us with
  | [] => best
  | x :: rest =>
      if Qlt_le_dec best.1 x.1 then first_max x rest else first_max best rest
  end.

(** The candidates through the predecessors of [v]. *)
Fixpoint candidates (weight : string) (default_weight : Q)
    (dist : list (string * (Q * string)))
    (preds : list (string * list (string * Q))) : option (list (Q * string)) :=
  match preds with
  | [] => Some []
  | (u, data) :: rest =>
      du ← dict_get u dist;
      more ← candidates weight default_weight dist rest;
      Some ((du.1 + edge_weight weight default_weight data, u)%Q :: more)
  end.

(** The loop of [nx.dag_longest_path] over the topological order. *)
Fixpoint longest_dist (G : DiGraph) (weight : string) (default_weight : Q)
    (topo_order : list string) (dist : list (string * (Q * string)))
  : option (list (string * (Q * string))) :=
  match topo_order with
  | [] => Some dist
  | v :: rest =>
      us ← candidates weight default_weight dist (predecessors G v);
      let maxu := match us with
                  | [] => (0%Q, v)
                  | x :: others => first_max x others
                  end in
      let entry := if Qlt_le_dec maxu.1 0 then (0%Q, v) else maxu in
      longest_dist G weight default_weight rest (dict_set v entry dist)
  end.

(** [max(dist, key=lambda x: dist[x][0])]. *)
Fixpoint farthest (best : string * (Q * string))
    (dist : list (string * (Q * string))) : string :=
  match dist with
  | [] => best.1
  | x :: rest =>
      if Qlt_le_dec best.2.1 x.2.1 then farthest x rest else farthest best rest
  end.

(** The [while u != v] loop that walks back from the farthest node; the
    result is the path before [path.reverse()]. *)
Fixpoint walk_back (fuel : nat) (dist : list (string * (Q * string)))
    (u : option string) (v : string) : option (list string) :=
  if decide (u = Some v) then Some []
  else match fuel with
       | O => None
       | S fuel' =>
           dv ← dict_get v dist;
           more ← walk_back fuel' dist (Some v) dv.2;
           Some (v :: more)
       end.

Definition dag_longest_path (G : DiGraph) (weight : string)
    (default_weight : Q) : option (list string) :=
  match g_node G with
  | [] => Some []
  | _ =>
      topo_order ← topological_sort G;
      dist ← longest_dist G weight default_weight topo_order [];
      match dist with
      | [] => None
      | x :: rest =>
          path ← walk_back (S (length dist)) dist None (farthest x rest);
          Some (reverse path)
      end
  end.

(** [G[u][v]]. *)
Definition edge_data (G : DiGraph) (u v : string) : option (list (string * Q)) :=
  (fun r => r.2.2) <$> list_find (fun e => e.1 = (u, v)) (g_edge G).

(** The loop over [pairwise(path)]: [u] is the node reached so far. *)
Fixpoint pairwise_length (G : DiGraph) (weight : string) (default_weight : Q)
    (u : string) (rest : list string) (path_length : Q) : option Q :=
  match rest with
  | [] => Some path_length
  | v :: rest' =>
      data ← edge_data G u v;
      pairwise_length G weight default_weight v rest'
        (path_length + edge_weight weight default_weight data)%Q
  end.

Definition dag_longest_path_length (G : DiGraph) (weight : string)
    (default_weight : Q) : option Q :=
  path ← dag_longest_path G weight default_weight;
  match path with
  | [] => Some 0%Q
  | u :: rest => pairwise_length G weight default_weight u rest 0%Q
  end.

(** ** Critical-path estimate *)

(** The graph built by [_estimate_time] and by [_build_execution_graph]. *)
Definition add_subtask (G : DiGraph) (t : SubTask) : DiGraph :=
  foldl (fun g dep => add_edge dep (id t) g)
        (add_node (id t) [("time", estimated_time t)] G)
        (dependencies t).

Definition execution_graph (sts : list SubTask) : DiGraph :=
  foldl add_subtask empty_graph sts.

(** [sum(task.estimated_time for task in subtasks)]. *)
Definition sum_times (sts : list SubTask) : Q :=
  foldl (fun acc t => (acc + estimated_time t)%Q) 0%Q sts.

Definition _estimate_time (sts : list SubTask)
    (deps : list (string * list string)) : Q :=
  match sts with
  | [] => 0%Q
  | _ =>
      let G := execution_graph sts in
      if (0 <? length (g_node G))%nat
      then match dag_longest_path_length G "time" 1%Q with
           | Some longest_path_length => longest_path_length
           | None => sum_times sts
           end
      else sum_times sts
  end.

(** ** Task analysis *)

Definition _calculate_confidence (task : string) (doms : list TaskDomain)
    (ags : list string) : Q :=
  let c0 := 1%Q in
  let c1 := if (String.length task <? 20)%nat then (c0 * (8 # 10))%Q else c0 in
  let c2 := if (3 <? length doms)%nat then (c1 * (9 # 10))%Q else c1 in
  let c3 := if (5 <? length ags)%nat then (c2 * (85 # 100))%Q else c2 in
  let task_lower := lower task in
  let c4 := if existsb (fun p => any_keyword (keywords p.2) task_lower)
                       TASK_PATTERNS
            then (c3 * (11 # 10))%Q else c3 in
  if Qlt_le_dec c4 1 then c4 else 1%Q.

Section Analysis.
Context {HD : HashOrder TaskDomain} {HS : HashOrder string}.
Variable uuid : nat -> string.

Definition analyze_task (task : string) (n : nat)
  : option (TaskAnalysis * nat) :=
  let task_id := "task_" +:+ uuid n in
  doms ← _identify_domains task;
  let cplx := _assess_complexity task doms in
  let ags := _select_agents task doms cplx in
  '(sts, n') ← _decompose_task uuid task ags doms (S n);
  let deps := _analyze_dependencies sts in
  let estimated := _estimate_time sts deps in
  let conf := _calculate_confidence task doms ags in
  Some (mkTaskAnalysis task_id task cplx doms ags sts deps estimated conf, n').

End Analysis.

(** ** Scheduler

    [_execute_subtasks] starts one coroutine [execute_when_ready(task)] per
    subtask and gathers them.  The event loop interleaves the coroutines at
    their [await] points; a schedule is the sequence of the coroutine events
    it picks.  The call [self._execute_single_task(task)] is dispatched
    through [self]: the scheduler is modelled over any such worker, and
    [_execute_single_task] is the engine's own. *)

Record TaskResult := mkTaskResult {
  res_task_id : string;
  res_agent_id : string;
  status : string;
  output : string;
  execution_time : Q
}.

Definition _execute_single_task (t : SubTask) : TaskResult :=
  mkTaskResult (id t) (agent_id t) "completed"
               ("Completed: " +:+ description t) (estimated_time t).

(** A coroutine waits in its polling loop, runs the worker, or is done. *)
Inductive Phase := Waiting | Running | Done.

#[global] Instance Phase_eq_dec : EqDecision Phase.
Proof. solve_decision. Defined.

Record RunState := mkRunState {
  results : list (string * TaskResult);
  completed : gset string;
  phases : list Phase
}.

Inductive Event :=
  | Poll (i : nat)     (* the loop test fails: sleep 0.1 and test again *)
  | Start (i : nat)    (* the loop test passes: the worker is called *)
  | Finish (i : nat).  (* the worker returns: record result and completion *)

(** [all(dep in completed for dep in task.dependencies)]. *)
Definition dependencies_met (done : gset string) (t : SubTask) : bool :=
  forallb (fun dep => bool_decide (dep ∈ done)) (dependencies t).

Definition initial_state (sts : list SubTask) : RunState :=
  mkRunState [] ∅ (replicate (length sts) Waiting).

Section Scheduler.
Variable worker : SubTask -> TaskResult.
Variable sts : list SubTask.

(** One event of one coroutine; [None] when the event is not enabled. *)
Definition fire (e : Event) (s : RunState) : option RunState :=
  match e with
  | Poll i =>
      t ← sts !! i;
      ph ← phases s !! i;
      if decide (ph = Waiting) then
        if dependencies_met (completed s) t then None else Some s
      else None
  | Start i =>
      t ← sts !! i;
      ph ← phases s !! i;
      if decide (ph = Waiting) then
        if dependencies_met (completed s) t
        then Some (mkRunState (results s) (completed s)
                              (<[i := Running]> (phases s)))
        else None
      else None
  | Finish i =>
      t ← sts !! i;
      ph ← phases s !! i;
      if decide (ph = Running) then
        Some (mkRunState (dict_set (id t) (worker t) (results s))
                         ({[id t]} ∪ completed s)
                         (<[i := Done]> (phases s)))
      else None
  end.

Fixpoint run (schedule : list Event) (s : RunState) : option RunState :=
  match schedule with
  | [] => Some s
  | e :: rest => s' ← fire e s; run rest s'
  end.


Definition all_done (s : RunState) : bool :=
  forallb (fun ph => bool_decide (ph = Done)) (phases s).

(** [await asyncio.gather( *tasks )] returns once every coroutine is done. *)
Definition _execute_subtasks (schedule : list Event)
  : option (list (string * TaskResult)) :=
  s ← run schedule (initial_state sts);
  if all_done s then Some (results s) else None.

End Scheduler.

(** ** Result aggregator *)

Record Summary := mkSummary {
  total_tasks : Z;
  agents_involved : Z;
  all_successful : bool
}.

Record Merged := mkMerged {
  combined_output : list string;
  by_agent : list (string * list TaskResult);
  summary : Summary
}.

(** The loop of [_merge_results] over [results.items()]. *)
Definition merge_one (m : list string * list (string * list TaskResult))
    (kv : string * TaskResult) : list string * list (string * list TaskResult) :=
  let result := kv.2 in
  let agent := res_agent_id result in
  let grouped := if bool_decide (agent ∈ dict_keys m.2) then m.2
                 else m.2 ++ [(agent, [])] in
  (m.1 ++ [output result],
   (fun g => if decide (g.1 = agent) then (g.1, g.2 ++ [result]) else g)
     <$> grouped).

Definition _merge_results (res : list (string * TaskResult)) : Merged :=
  let m := foldl merge_one ([], []) res in
  mkMerged m.1 m.2
    (mkSummary (Z.of_nat (length res)) (Z.of_nat (length m.2))
       (forallb (fun kv => bool_decide (status kv.2 = "completed")) res)).

(** ** Metrics recorder *)

Record ExecutionRecord := mkExecutionRecord {
  rec_task_id : string;
  rec_timestamp : string;
  rec_complexity : string;
  rec_domains : list string;
  rec_agents : list string;
  rec_execution_time : Q;
  rec_estimated_time : Q;
  accuracy : Q;
  rec_confidence : Q;
  success : bool
}.

Record AgentMetrics := mkAgentMetrics {
  m_total_tasks : Z;
  m_total_time : Q;
  success_rate : Q;
  avg_accuracy : Q
}.

Record Engine := mkEngine {
  execution_history : list ExecutionRecord;
  performance_metrics : gmap string AgentMetrics
}.

Definition new_engine : Engine := mkEngine [] ∅.

(** [a / b] on numbers: [None] stands for [ZeroDivisionError]. *)
Definition py_div (a b : Q) : option Q :=
  if Qeq_bool b 0 then None else Some (a / b)%Q.

(** [execution_time / estimated_time if estimated_time > 0 else 1.0]. *)
Definition accuracy_figure (exec_time estimated : Q) : option Q :=
  if Qlt_le_dec 0 estimated then py_div exec_time estimated else Some 1%Q.

(** Body of the loop of [_record_execution] over [required_agents]. *)
Definition update_agent_metrics (exec_time : Q) (n_agents : nat)
    (all_ok : bool) (pm : gmap string AgentMetrics) (agent : string)
  : option (gmap string AgentMetrics) :=
  let pm1 := match pm !! agent with
             | None => <[agent := mkAgentMetrics 0 0 0 0]> pm
             | Some _ => pm
             end in
  metrics ← pm1 !! agent;
  let count := m_total_tasks metrics + 1 in
  share ← py_div exec_time (inject_Z (Z.of_nat n_agents));
  let time := (m_total_time metrics + share)%Q in
  rate ← (if all_ok
          then py_div (success_rate metrics * inject_Z (count - 1) + 1)%Q
                      (inject_Z count)
          else Some (success_rate metrics));
  Some (<[agent := mkAgentMetrics count time rate (avg_accuracy metrics)]> pm1).

Fixpoint update_metrics (exec_time : Q) (n_agents : nat) (all_ok : bool)
    (ags : list string) (pm : gmap string AgentMetrics)
  : option (gmap string AgentMetrics) :=
  match ags with
  | [] => Some pm
  | a :: rest =>
      pm' ← update_agent_metrics exec_time n_agents all_ok pm a;
      update_metrics exec_time n_agents all_ok rest pm'
  end.

(** [now] is [datetime.now().isoformat()]. *)
Definition _record_execution (now : string) (eng : Engine)
    (analysis : TaskAnalysis) (result : Merged) (exec_time : Q)
  : option Engine :=
  acc ← accuracy_figure exec_time (total_estimated_time analysis);
  let record :=
    mkExecutionRecord (task_id analysis) now
      (complexity_name (complexity analysis))
      (map domain_value (domains analysis))
      (required_agents analysis) exec_time
      (total_estimated_time analysis) acc (confidence analysis)
      (all_successful (summary result)) in
  pm ← update_metrics exec_time (length (required_agents analysis))
         (all_successful (summary result)) (required_agents analysis)
         (performance_metrics eng);
  Some (mkEngine (execution_history eng ++ [record]) pm).

(** ** Running a task *)

Record RunResult := mkRunResult {
  run_task_id : string;
  run_status : string;
  run_results : Merged;
  run_execution_time : Q;
  agents_used : list string;
  run_confidence : Q
}.

(** [execute_task]: [schedule] is the interleaving the event loop picks,
    [elapsed] the measured duration of the run and [now] the timestamp of
    its record.  The graph kept in [self.task_graph] for visualization is
    not modelled. *)
Definition execute_task (worker : SubTask -> TaskResult) (now : string)
    (elapsed : Q) (schedule : list Event) (eng : Engine)
    (analysis : TaskAnalysis) : option (RunResult * Engine) :=
  res ← _execute_subtasks worker (subtasks analysis) schedule;
  let final_result := _merge_results res in
  eng' ← _record_execution now eng analysis final_result elapsed;
  Some (mkRunResult (task_id analysis) "completed" final_result elapsed
          (required_agents analysis) (confidence analysis), eng').

(** ** Specification-side notions and auxiliary predicates *)

(** The critical path as the specification words it: the heaviest path of
    the dependency graph, a node weighing its [time] attribute. *)
Definition node_time (G : DiGraph) (v : string) : Q :=
  default 0%Q (dict_get v (g_node G) ≫= dict_get "time").

Inductive graph_path (G : DiGraph) : list string -> Prop :=
  | path_single v :
      v ∈ dict_keys (g_node G) -> graph_path G [v]
  | path_step u v p :
      (u, v) ∈ (fst <$> g_edge G) -> graph_path G (v :: p) ->
      graph_path G (u :: v :: p).

Definition path_time (G : DiGraph) (p : list string) : Q :=
  foldr (fun v acc => (node_time G v + acc)%Q) 0%Q p.

Definition is_critical_path_length (G : DiGraph) (x : Q) : Prop :=
  (exists p, graph_path G p /\ (path_time G p == x)%Q) /\
  (forall p, graph_path G p -> (path_time G p <= x)%Q).

(** Role ids declared in the capability registry. *)
Definition known_agent (a : string) : Prop :=
  a ∈ dict_keys AGENT_CAPABILITIES.

(** Dependency edges lead from a strictly lower to a strictly higher
    priority tier. *)
Definition tiered (sts : list SubTask) : Prop :=
  forall t d, t ∈ sts -> d ∈ dependencies t ->
    exists s, s ∈ sts /\ id s = d /\ priority s < priority t.

(** What [_establish_dependencies] may change in a task object: only its
    dependency list, and every new entry is the id of a subtask of a strictly
    lower priority tier. *)
Definition wired_from (sts : list SubTask) (t t' : SubTask) : Prop :=
  id t' = id t /\ priority t' = priority t /\
  estimated_time t' = estimated_time t /\ agent_id t' = agent_id t /\
  forall d, d ∈ dependencies t' ->
    d ∈ dependencies t \/
    exists s, s ∈ sts /\ id s = d /\ priority s < priority t.

(** Invariant of the scheduler's state along every schedule. *)
Definition sched_inv (worker : SubTask -> TaskResult) (sts : list SubTask)
    (s : RunState) : Prop :=
  length (phases s) = length sts /\
  (forall d, d ∈ completed s ->
     exists j tj, sts !! j = Some tj /\ id tj = d /\ phases s !! j = Some Done) /\
  (forall j tj, sts !! j = Some tj -> phases s !! j = Some Done ->
     id tj ∈ completed s) /\
  (forall j tj, sts !! j = Some tj -> phases s !! j <> Some Waiting ->
     forall d, d ∈ dependencies tj -> d ∈ completed s) /\
  (forall k r, (k, r) ∈ results s ->
     exists t, t ∈ sts /\ r = worker t /\ k = id t) /\
  (NoDup (id <$> sts) ->
   forall j tj, sts !! j = Some tj -> phases s !! j = Some Done ->
     dict_get (id tj) (results s) = Some (worker tj)).


(** Counters of recorded runs are never negative. *)
Definition metrics_wf (pm : gmap string AgentMetrics) : Prop :=
  forall a m, pm !! a = Some m -> 0 <= m_total_tasks m.

(** What one pass of the metrics loop leaves for an agent. *)
Definition updated_metrics (exec_time : Q) (n_agents : nat) (all_ok : bool)
    (old : AgentMetrics) : AgentMetrics :=
  let count := m_total_tasks old + 1 in
  mkAgentMetrics count
    (m_total_time old + exec_time / inject_Z (Z.of_nat n_agents))%Q
    (if all_ok
     then ((success_rate old * inject_Z (count - 1) + 1) / inject_Z count)%Q
     else success_rate old)
    (avg_accuracy old).


(** ** Concrete inputs used in examples *)

Definition example_uuid : nat -> string := pretty.

Definition analysis_of (task : string) : option TaskAnalysis :=
  fst <$> @analyze_task insertion_order insertion_order example_uuid task 0.

Definition scenario_A_text : string := "Create a REST API for user management".

Definition single_role_text : string := "Tune the slow query".

Definition scenario_A_subtasks : list SubTask :=
  default [] (subtasks <$> analysis_of scenario_A_text).


Definition serial_schedule : list Event :=
  [Start 0%nat; Finish 0%nat; Start 1%nat; Finish 1%nat].

(** ** Notions used by the scheduling and sorting proofs *)

Definition tier_le (x y : nat * SubTask) : Prop := priority x.2 <= priority y.2.

Definition serial (order : list nat) : list Event :=
  order ≫= fun k => [Start k; Finish k].

(** Kahn invariant: [M] is [indegree_map], [R] the edges relaxed so far,
    [Zs] every node whose in-degree has reached zero. *)
Definition in_edges (R : list (string * string)) (v : string)
  : list (string * string) :=
  filter (fun e => e.2 = v) R.

Definition out_edges (E : list (string * string)) (u : string)
  : list (string * string) :=
  filter (fun e => e.1 = u) E.

Definition graph_edges (G : DiGraph) : list (string * string) :=
  fst <$> g_edge G.

Definition kahn_inv (G : DiGraph) (M : list (string * Z))
    (R : list (string * string)) (Zs : list string) : Prop :=
  (forall v d, dict_get v M = Some d ->
     0 < d /\
     d = Z.of_nat (length (in_edges (graph_edges G) v))
         - Z.of_nat (length (in_edges R v))) /\
  (forall v, v ∈ dict_keys (g_node G) -> dict_get v M = None ->
     v ∈ Zs /\ forall u, (u, v) ∈ graph_edges G -> (u, v) ∈ R) /\
  (forall v, v ∈ Zs -> v ∈ dict_keys (g_node G) /\ dict_get v M = None) /\
  NoDup Zs /\ NoDup R /\ R ⊆ graph_edges G.

Definition graph_wf (G : DiGraph) : Prop :=
  NoDup (dict_keys (g_node G)) /\
  NoDup (graph_edges G) /\
  forall u v, (u, v) ∈ graph_edges G ->
    u ∈ dict_keys (g_node G) /\ v ∈ dict_keys (g_node G).

Fixpoint rank_of (sts : list SubTask) (x : string) : Z :=
  match sts with
  | [] => 0
  | t :: rest => if decide (id t = x) then priority t else rank_of rest x
  end.

Definition two_checks_text : string := "Audit and test the login flow".

(** Two graphs with the same nodes and edges, whatever the node attributes. *)
Definition same_shape (G G' : DiGraph) : Prop :=
  dict_keys (g_node G) = dict_keys (g_node G') /\ g_edge G = g_edge G'.

(** Two subtask lists that differ in nothing the graph's shape depends on. *)
Definition same_wiring (t t' : SubTask) : Prop :=
  id t = id t' /\ dependencies t = dependencies t'.

(** ** Execution plan

    [get_execution_plan] groups the subtasks by priority in a
    [defaultdict(list)] and lists the groups in ascending priority. *)

Record PlanTask := mkPlanTask {
  pt_id : string;
  pt_agent : string;
  pt_description : string;
  pt_estimated_time : Q;
  pt_dependencies : list string
}.

Record Stage := mkStage {
  stage_priority : Z;
  parallel : bool;
  stage_tasks : list PlanTask
}.

Record Plan := mkPlan {
  plan_task_id : string;
  plan_complexity : string;
  plan_estimated_time : Q;
  plan_confidence : Q;
  stages : list Stage
}.

Definition plan_entry (t : SubTask) : PlanTask :=
  mkPlanTask (id t) (agent_id t) (description t) (estimated_time t)
             (dependencies t).

(** [priority_groups[p]] on a [defaultdict(list)] read without inserting. *)
Fixpoint group_get (p : Z) (groups : list (Z * list PlanTask))
  : list PlanTask :=
  match groups with
  | [] => []
  | (p', l) :: rest => if decide (p' = p) then l else group_get p rest
  end.

(** [priority_groups[p].append(x)]: a missing key is inserted last. *)
Fixpoint group_append (p : Z) (x : PlanTask) (groups : list (Z * list PlanTask))
  : list (Z * list PlanTask) :=
  match groups with
  | [] => [(p, [x])]
  | (p', l) :: rest =>
      if decide (p' = p) then (p', l ++ [x]) :: rest
      else (p', l) :: group_append p x rest
  end.

Definition priority_groups (sts : list SubTask) : list (Z * list PlanTask) :=
  foldl (fun groups t => group_append (priority t) (plan_entry t) groups)
        [] sts.

(** [sorted(priority_groups.keys())] sorts distinct integers: the result
    is the same for every sorting algorithm. *)
Definition get_execution_plan (analysis : TaskAnalysis) : Plan :=
  let groups := priority_groups (subtasks analysis) in
  mkPlan (task_id analysis) (complexity_name (complexity analysis))
         (total_estimated_time analysis) (confidence analysis)
         ((fun p => mkStage p true (group_get p groups))
            <$> merge_sort Z.le (fst <$> groups)).

(** ** Role recommendations

    [get_agent_recommendations] scores every role of the registry against
    the text, keeps the roles with a positive score, sorts them by descending
    score and returns the first five. *)

Record Recommendation := mkRecommendation {
  rcm_agent_id : string;
  score : Z;
  reasons : list string;
  rcm_confidence : Q
}.

(** Body of the loop over [capabilities['skills']]. *)
Definition score_skill (task_lower : string) (acc : Z * list string)
    (skill : string) : Z * list string :=
  if contains (replace_dash skill) task_lower
  then (acc.1 + 2, acc.2 ++ ["Expertise in " +:+ skill])
  else acc.

(** Body of the loop over the domains of the task. *)
Definition score_domain (capabilities : Capability) (acc : Z * list string)
    (d : TaskDomain) : Z * list string :=
  if bool_decide (d ∈ cap_domains capabilities)
  then (acc.1 + 3, acc.2 ++ ["Specializes in " +:+ domain_value d])
  else acc.

(** [min(score / 10, 1.0)]. *)
Definition score_confidence (s : Z) : Q :=
  let q := (inject_Z s / 10)%Q in
  if Qlt_le_dec 1 q then 1%Q else q.

(** [recommendations.sort(key=lambda x: x['score'], reverse=True)]: stable,
    records of equal score keep their order. *)
Fixpoint insert_by_score (x : Recommendation) (l : list Recommendation)
  : list Recommendation :=
  match l with
  | [] => [x]
  | y :: rest =>
      if score y <=? score x then x :: y :: rest
      else y :: insert_by_score x rest
  end.

Definition sort_by_score (l : list Recommendation) : list Recommendation :=
  foldr insert_by_score [] l.

Section Recommender.
Context {HD : HashOrder TaskDomain}.

(** Score and reasons of one role. *)
Definition score_agent (task : string) (capabilities : Capability)
  : option (Z * list string) :=
  let task_lower := lower task in
  let acc := foldl (score_skill task_lower) (0, []) (skills capabilities) in
  domains ← _identify_domains task;
  Some (foldl (score_domain capabilities) acc domains).

(** The loop over [AGENT_CAPABILITIES.items()]. *)
Fixpoint collect_recommendations (task : string)
    (caps : list (string * Capability)) (recommendations : list Recommendation)
  : option (list Recommendation) :=
  match caps with
  | [] => Some recommendations
  | (agent_id, capabilities) :: rest =>
      '(s, rs) ← score_agent task capabilities;
      collect_recommendations task rest
        (if 0 <? s
         then recommendations ++
              [mkRecommendation agent_id s rs (score_confidence s)]
         else recommendations)
  end.

Definition get_agent_recommendations (task : string)
  : option (list Recommendation) :=
  recommendations ← collect_recommendations task AGENT_CAPABILITIES [];
  Some (take 5 (sort_by_score recommendations)).

End Recommender.

(** ** Notions used by the properties of the remaining code *)

(** The tasks of one priority as the plan lists them. *)
Definition tier_entries (p : Z) (sts : list SubTask) : list PlanTask :=
  plan_entry <$> filter (fun t => priority t = p) sts.

(** Score of a role as a count of matches. *)
Definition skill_hits (task : string) (c : Capability) : list string :=
  filter (fun skill => contains (replace_dash skill) (lower task) = true)
         (skills c).

Definition domain_hits (doms : list TaskDomain) (c : Capability)
  : list TaskDomain :=
  filter (fun d => d ∈ cap_domains c) doms.

Definition match_score (task : string) (doms : list TaskDomain)
    (c : Capability) : Z :=
  2 * Z.of_nat (length (skill_hits task c))
  + 3 * Z.of_nat (length (domain_hits doms c)).

Definition score_ge (x y : Recommendation) : Prop := score y <= score x.

(** The record the loop builds for a role, and the records it keeps. *)
Definition candidate (task : string) (doms : list TaskDomain)
    (entry : string * Capability) : Recommendation :=
  let s := match_score task doms entry.2 in
  mkRecommendation entry.1 s
    (((fun s => "Expertise in " +:+ s) <$> skill_hits task entry.2) ++
     ((fun d => "Specializes in " +:+ domain_value d)
        <$> domain_hits doms entry.2))
    (score_confidence s).

Definition candidates_of (task : string) (doms : list TaskDomain)
  : list Recommendation :=
  filter (fun r => 0 < score r) (candidate task doms <$> AGENT_CAPABILITIES).

(** Two recommendations that rank alike. *)
Definition same_rank (r r' : Recommendation) : Prop :=
  rcm_agent_id r = rcm_agent_id r' /\ score r = score r' /\
  rcm_confidence r = rcm_confidence r'.

(** The results dict records completions in their order: its keys are the
    completed ids, each once, and (with distinct ids) the entry of a subtask
    comes after the entries of its dependencies. *)
Definition results_inv (sts : list SubTask) (s : RunState) : Prop :=
  NoDup (dict_keys (results s)) /\
  (forall k, k ∈ dict_keys (results s) <-> k ∈ completed s) /\
  (NoDup (id <$> sts) ->
   forall p k r t d,
     results s !! p = Some (k, r) -> t ∈ sts -> id t = k ->
     d ∈ dependencies t ->
     exists q r', (q < p)%nat /\ results s !! q = Some (d, r')).

Definition group_of (a : string) (res : list (string * TaskResult))
  : list TaskResult :=
  filter (fun r => res_agent_id r = a) (snd <$> res).

(** Engines reached from a fresh engine by recording runs. *)
Inductive recorded : Engine -> Prop :=
  | recorded_new : recorded new_engine
  | recorded_step now eng analysis result exec_time eng' :
      recorded eng ->
      _record_execution now eng analysis result exec_time = Some eng' ->
      recorded eng'.

(** What the metrics of a role look like after any number of recorded
    runs. *)
Definition metrics_ok (pm : gmap string AgentMetrics) : Prop :=
  forall a m, pm !! a = Some m ->
    1 <= m_total_tasks m /\
    (0 <= success_rate m)%Q /\ (success_rate m <= 1)%Q /\
    avg_accuracy m = 0%Q.

(** Number of times a role is listed by the records of the history. *)
Definition listed_in (a : string) (h : list ExecutionRecord) : Z :=
  Z.of_nat (length (filter (fun x => x = a) (h ≫= rec_agents))).



(** The first subtask of its priority, in the order of the list. *)
Definition first_in_tier (sts : list SubTask) (r : nat) : Prop :=
  forall j s t, (j < r)%nat -> sts !! j = Some s -> sts !! r = Some t ->
    priority s <> priority t.

(** [p] is the priority tier just below priority [q]. *)
Definition tier_just_below (sts : list SubTask) (q p : Z) : Prop :=
  p < q /\
  (exists s, s ∈ sts /\ priority s = p) /\
  forall s, s ∈ sts -> priority s < q -> priority s <= p.

Definition tier_ids (sts : list SubTask) (p : Z) : list string :=
  id <$> filter (fun s => priority s = p) sts.

(** Order of a stable sort by priority: by tier, then by position. *)
Definition tier_then_position (x y : nat * SubTask) : Prop :=
  priority x.2 < priority y.2 \/
  (priority x.2 = priority y.2 /\ (x.1 < y.1)%nat).

(** What the loop of [_establish_dependencies] does at position [i] of the
    sorted list. *)
Definition boundary (sorted_tasks : list (nat * SubTask)) (i : nat) : bool :=
  match i with
  | O => false
  | S i' =>
      match sorted_tasks !! i, sorted_tasks !! i' with
      | Some (_, task), Some (_, prev) => priority prev <? priority task
      | _, _ => false
      end
  end.

Definition boundary_dependencies (sorted_tasks : list (nat * SubTask))
    (i : nat) : list string :=
  match sorted_tasks !! pred i with
  | Some (_, prev) =>
      (fun p => id p.2) <$>
        filter (fun p => priority p.2 = priority prev) (take i sorted_tasks)
  | None => []
  end.

(** A role whose capability domains meet the domains of the task. *)
Definition shares_domain (doms : list TaskDomain) (a : string) : bool :=
  match dict_get a AGENT_CAPABILITIES with
  | Some c => existsb (fun d => bool_decide (d ∈ doms)) (cap_domains c)
  | None => false
  end.

(** ** More concrete inputs *)

Definition scenario_A : TaskAnalysis :=
  default (mkTaskAnalysis "" "" SIMPLE [] [] [] [] 0 0)
          (analysis_of scenario_A_text).

Definition scenario_A_frontend : SubTask :=
  default (mkSubTask "" "" "" BACKEND [] 0 0 [])
          (scenario_A_subtasks !! 1%nat).

Definition two_checks_subtasks : list SubTask :=
  default [] (subtasks <$> analysis_of two_checks_text).

(** Subtasks that wait for a subtask nobody runs. *)
Definition dangling_subtasks : list SubTask :=
  set_dependencies ["subtask_9"] <$> scenario_A_subtasks.

(** Subtasks as the decomposer makes them, before the wiring loop. *)
Definition unwired_subtasks : list SubTask :=
  set_dependencies [] <$> scenario_A_subtasks.

Definition single_role_analysis : TaskAnalysis :=
  default (mkTaskAnalysis "" "" SIMPLE [] [] [] [] 0 0)
          (analysis_of single_role_text).

Definition engine_after_one_run : Engine :=
  default new_engine
          (_record_execution "2024-01-01T00:00:00" new_engine
             single_role_analysis (_merge_results []) (3 # 2)).

Definition interleaved_schedule : list Event :=
  [Start 0%nat; Start 1%nat; Finish 1%nat; Finish 0%nat].

(** * Properties *)

(** ** Dictionaries *)

Lemma dict_get_set_eq {V : Type} (k : string) (v : V) d :
  dict_get k (dict_set k v d) = Some v.
Proof.
  induction d as [|[k' v'] d IH]; cbn [dict_set dict_get].
  - by rewrite decide_True.
  - destruct (decide (k' = k)) as [->|Hne]; cbn [dict_get].
    + by rewrite decide_True.
    + by rewrite decide_False.
Qed.

Lemma dict_get_set_ne {V : Type} (k k' : string) (v : V) d :
  k <> k' -> dict_get k' (dict_set k v d) = dict_get k' d.
Proof.
  intros Hne. induction d as [|[k0 v0] d IH]; cbn [dict_set dict_get].
  - by rewrite decide_False.
  - destruct (decide (k0 = k)) as [->|Hne0]; cbn [dict_get].
    + by rewrite !decide_False.
    + destruct (decide (k0 = k')); [done|apply IH].
Qed.

Lemma dict_get_del_eq {V : Type} (k : string) (d : list (string * V)) :
  dict_get k (dict_del k d) = None.
Proof.
  unfold dict_del. induction d as [|[k' v'] d IH]; [done|].
  destruct (decide (k' = k)) as [->|Hne].
  - by rewrite filter_cons_False by (cbn; auto).
  - rewrite filter_cons_True by done. cbn [dict_get].
    by rewrite decide_False.
Qed.

Lemma dict_get_del_ne {V : Type} (k k' : string) (d : list (string * V)) :
  k <> k' -> dict_get k' (dict_del k d) = dict_get k' d.
Proof.
  intros Hne. unfold dict_del. induction d as [|[k0 v0] d IH]; [done|].
  destruct (decide (k0 = k)) as [->|Hne0].
  - rewrite filter_cons_False by (cbn; auto). cbn [dict_get].
    by rewrite decide_False.
  - rewrite filter_cons_True by done. cbn [dict_get].
    destruct (decide (k0 = k')); [done|apply IH].
Qed.

Lemma dict_get_None_keys {V : Type} (k : string) (d : list (string * V)) :
  dict_get k d = None <-> k ∉ dict_keys d.
Proof.
  unfold dict_keys. induction d as [|[k' v'] d IH]; cbn [dict_get map fst].
  - split; [intros _ H; inversion H|done].
  - rewrite not_elem_of_cons. destruct (decide (k' = k)) as [->|Hne].
    + split; [done|]. intros [H _]. done.
    + rewrite IH. split; [intros H; split; [done|done]|]. by intros [_ H].
Qed.

(** ** Hash-order independence of the classifier *)

Lemma list_of_set_Permutation {A : Type} (H1 H2 : HashOrder A) (l1 l2 : list A) :
  (forall x, x ∈ l1 <-> x ∈ l2) ->
  @list_of_set A H1 l1 ≡ₚ @list_of_set A H2 l2.
Proof.
  intros Hel. apply NoDup_Permutation; try apply list_of_set_NoDup.
  intros x. rewrite !list_of_set_elem. apply Hel.
Qed.

Lemma dict_get_is_Some {V : Type} (k : string) (d : list (string * V)) :
  k ∈ dict_keys d -> is_Some (dict_get k d).
Proof.
  unfold dict_keys. induction d as [|[k' v] d IH]; simpl.
  - intros H. by apply elem_of_nil in H.
  - intros H. destruct (decide (k' = k)); [eauto|].
    apply elem_of_cons in H as [->|H]; [done|auto].
Qed.

Lemma dict_get_Some_key {V : Type} (k : string) (v : V) (d : list (string * V)) :
  dict_get k d = Some v -> (k, v) ∈ d.
Proof.
  induction d as [|[k' v'] d IH]; simpl; [done|].
  destruct (decide (k' = k)) as [->|]; intros H.
  - injection H as ->. apply elem_of_cons; auto.
  - apply elem_of_cons; auto.
Qed.

Lemma pattern_agents_known :
  Forall (fun p => Forall known_agent (agents p.2) /\ agents p.2 <> [])
         TASK_PATTERNS.
Proof. unfold known_agent. apply (bool_decide_unpack _). by vm_compute. Qed.

Lemma extend_agent_domains_Some (ags : list string) (acc : list TaskDomain) :
  Forall known_agent ags -> is_Some (extend_agent_domains ags acc).
Proof.
  intros Hk. revert acc.
  induction Hk as [|a ags Ha _ IH]; intros acc; cbn [extend_agent_domains].
  - eauto.
  - destruct (dict_get_is_Some a AGENT_CAPABILITIES Ha) as [c ->].
    cbn [mbind option_bind]. apply IH.
Qed.

Lemma scan_pattern_domains_Some (ps : list (string * Pattern)) tl acc :
  Forall (fun p => Forall known_agent (agents p.2) /\ agents p.2 <> []) ps ->
  is_Some (scan_pattern_domains ps tl acc).
Proof.
  intros Hk. revert acc.
  induction Hk as [|[name info] ps [Ha _] _ IH]; intros acc;
    cbn [scan_pattern_domains].
  - eauto.
  - destruct (any_keyword _ _); [|apply IH].
    destruct (extend_agent_domains_Some (agents info) acc Ha) as [acc' ->].
    cbn [mbind option_bind]. apply IH.
Qed.

Lemma scan_pattern_domains_unmatched (ps : list (string * Pattern)) tl acc :
  Forall (fun p => Forall known_agent (agents p.2) /\ agents p.2 <> []) ps ->
  pattern_agents ps tl = [] ->
  scan_pattern_domains ps tl acc = Some acc.
Proof.
  intros Hk. induction Hk as [|[name info] ps [_ Hne] _ IH];
    cbn [scan_pattern_domains pattern_agents]; [done|].
  destruct (any_keyword _ _); [|apply IH].
  intros H. apply app_eq_nil in H as [H _]. done.
Qed.

Lemma pattern_agents_elem (ps : list (string * Pattern)) tl a :
  Forall (fun p => Forall known_agent (agents p.2) /\ agents p.2 <> []) ps ->
  a ∈ pattern_agents ps tl -> known_agent a.
Proof.
  intros Hk. induction Hk as [|[name info] ps [Ha _] _ IH];
    cbn [pattern_agents].
  - intros H. by apply elem_of_nil in H.
  - destruct (any_keyword _ _); [|apply IH].
    rewrite elem_of_app. intros [H|H]; [|auto].
    rewrite Forall_forall in Ha. auto.
Qed.

Lemma domain_agents_elem (caps : list (string * Capability)) d c a :
  a ∈ domain_agents caps d c -> a ∈ dict_keys caps.
Proof.
  unfold dict_keys. induction caps as [|[a' cap] caps IH];
    cbn [domain_agents map fst].
  - intros H. inversion H.
  - destruct (_ && _); rewrite ?elem_of_cons; intros H; intuition.
Qed.

Lemma selected_insertions_known task doms c a :
  a ∈ selected_insertions task doms c -> known_agent a.
Proof.
  unfold selected_insertions. rewrite !elem_of_app.
  intros [H|[H|[H|H]]].
  - eapply pattern_agents_elem; [apply pattern_agents_known|done].
  - apply list_elem_of_bind in H as (d & Ha & _).
    by apply domain_agents_elem in Ha.
  - destruct (bool_decide _); [|by apply elem_of_nil in H].
    apply list_elem_of_singleton in H as ->.
    apply (bool_decide_unpack _). by vm_compute.
  - destruct (any_keyword _ _); [|by apply elem_of_nil in H].
    apply list_elem_of_singleton in H as ->.
    apply (bool_decide_unpack _). by vm_compute.
Qed.

Lemma selected_insertions_Permutation task doms1 doms2 c :
  doms1 ≡ₚ doms2 ->
  selected_insertions task doms1 c ≡ₚ selected_insertions task doms2 c.
Proof. intros H. unfold selected_insertions. by rewrite H. Qed.

Lemma assess_complexity_length task doms1 doms2 :
  length doms1 = length doms2 ->
  _assess_complexity task doms1 = _assess_complexity task doms2.
Proof. intros H. unfold _assess_complexity. by rewrite H. Qed.

(** Every admissible hash order identifies the domains that the
    first-insertion order identifies. *)
Lemma identify_domains_order (HD1 HD2 : HashOrder TaskDomain) task :
  exists d1 d2,
    @_identify_domains HD1 task = Some d1 /\
    @_identify_domains HD2 task = Some d2 /\
    d1 ≡ₚ d2 /\ d1 <> [].
Proof.
  unfold _identify_domains.
  destruct (scan_pattern_domains_Some TASK_PATTERNS (lower task) []
              pattern_agents_known) as [collected ->].
  cbn [mbind option_bind].
  pose proof (list_of_set_Permutation HD1 HD2 collected collected
                (fun x => reflexivity _)) as Hp.
  eexists _, _. split; [done|]. split; [done|].
  destruct (@list_of_set _ HD1 collected) as [|x l1] eqn:E1.
  - apply Permutation_nil_l in Hp. rewrite <- Hp. by split.
  - destruct (@list_of_set _ HD2 collected) as [|y l2] eqn:E2.
    + by apply Permutation_nil_r in Hp.
    + by split.
Qed.

Lemma domain_agents_backend c :
  "backend-expert" ∈ domain_agents AGENT_CAPABILITIES FULL_STACK c.
Proof. destruct c; apply (bool_decide_unpack _); by vm_compute. Qed.

Lemma select_agents_nonempty (HD : HashOrder TaskDomain) (HS : HashOrder string)
    task doms :
  @_identify_domains HD task = Some doms ->
  forall c, @_select_agents HS task doms c <> [].
Proof.
  unfold _identify_domains. intros H c Hnil.
  assert (forall a, a ∉ selected_insertions task doms c) as Hno.
  { intros a Ha. apply (proj2 (list_of_set_elem _ _)) in Ha.
    unfold _select_agents in Hnil. rewrite Hnil in Ha. inversion Ha. }
  destruct (pattern_agents TASK_PATTERNS (lower task)) as [|a l] eqn:Epat.
  - rewrite (scan_pattern_domains_unmatched _ _ _ pattern_agents_known Epat) in H.
    cbn [mbind option_bind] in H.
    destruct (list_of_set []) as [|d l] eqn:E.
    + injection H as <-. apply (Hno "backend-expert").
      unfold selected_insertions. rewrite !elem_of_app. right; left.
      rewrite bind_singleton. apply domain_agents_backend.
    + assert (d ∈ list_of_set (A:=TaskDomain) []) as Hd by (rewrite E; left).
      apply (proj1 (list_of_set_elem _ _)) in Hd. inversion Hd.
  - apply (Hno a). unfold selected_insertions. rewrite Epat.
    apply elem_of_app. left. left.
Qed.

Lemma select_agents_known (HS : HashOrder string) task doms c :
  Forall known_agent (_select_agents task doms c).
Proof.
  apply Forall_forall. intros a Ha. unfold _select_agents in Ha.
  apply (proj1 (list_of_set_elem _ _)) in Ha.
  by apply selected_insertions_known in Ha.
Qed.

Lemma make_subtasks_Some (HD : HashOrder TaskDomain) uuid task ags doms n :
  Forall known_agent ags ->
  is_Some (make_subtasks uuid task ags doms n).
Proof.
  intros Hk. revert n.
  induction Hk as [|a ags Ha _ IH]; intros n; cbn [make_subtasks].
  - eauto.
  - destruct (dict_get_is_Some a AGENT_CAPABILITIES Ha) as [c ->].
    cbn [mbind option_bind].
    destruct (list_of_inter _ _); [apply IH|].
    destruct (IH (S n)) as [[more n'] ->]. cbn. eauto.
Qed.

(** [analyze_task] returns, and its fields are the results of the steps. *)
Lemma analyze_task_fields (HD : HashOrder TaskDomain) (HS : HashOrder string)
    uuid task n :
  exists a m,
    analyze_task uuid task n = Some (a, m) /\
    _identify_domains task = Some (domains a) /\
    complexity a = _assess_complexity task (domains a) /\
    required_agents a = _select_agents task (domains a) (complexity a) /\
    _decompose_task uuid task (required_agents a) (domains a) (S n)
      = Some (subtasks a, m) /\
    total_estimated_time a = _estimate_time (subtasks a) (dependency_map a).
Proof.
  unfold analyze_task.
  destruct (identify_domains_order HD HD task) as (doms & ? & -> & _ & _ & _).
  cbn [mbind option_bind].
  unfold _decompose_task.
  destruct (make_subtasks_Some HD uuid task
              (_select_agents task doms (_assess_complexity task doms)) doms (S n)
              (select_agents_known HS _ _ _)) as [[sts n'] Hm].
  rewrite Hm. cbn [mbind option_bind].
  eexists _, _. split; [reflexivity|]. cbn.
  rewrite Hm. cbn. done.
Qed.

(** Classification does not depend on the hash order or on the id supply. *)
Lemma analysis_order_independent
    (HD1 HD2 : HashOrder TaskDomain) (HS1 HS2 : HashOrder string)
    (uuid1 uuid2 : nat -> string) (n1 n2 : nat) (task : string) :
  exists a1 m1 a2 m2,
    @analyze_task HD1 HS1 uuid1 task n1 = Some (a1, m1) /\
    @analyze_task HD2 HS2 uuid2 task n2 = Some (a2, m2) /\
    domains a1 ≡ₚ domains a2 /\
    complexity a1 = complexity a2 /\
    required_agents a1 ≡ₚ required_agents a2.
Proof.
  destruct (analyze_task_fields HD1 HS1 uuid1 task n1)
    as (a1 & m1 & Ha1 & Hd1 & Hc1 & Hr1 & _).
  destruct (analyze_task_fields HD2 HS2 uuid2 task n2)
    as (a2 & m2 & Ha2 & Hd2 & Hc2 & Hr2 & _).
  destruct (identify_domains_order HD1 HD2 task)
    as (d1 & d2 & Hi1 & Hi2 & Hperm & _).
  rewrite Hi1 in Hd1. rewrite Hi2 in Hd2.
  injection Hd1 as Hd1. injection Hd2 as Hd2. subst d1 d2.
  assert (complexity a1 = complexity a2) as Hc.
  { rewrite Hc1, Hc2. apply assess_complexity_length.
    by apply Permutation_length. }
  exists a1, m1, a2, m2. repeat split; try done.
  rewrite Hr1, Hr2, <- Hc. unfold _select_agents.
  apply list_of_set_Permutation. intros x.
  by rewrite (selected_insertions_Permutation task _ _ (complexity a1) Hperm).
Qed.

(** ** Classification *)

(** C7: for every task text [analyze_task] returns an analysis whose domain
    list is not empty and whose required agents are not empty and are all
    role ids declared in [AGENT_CAPABILITIES]. *)
Theorem analyze_task_nonempty_known
    (HD : HashOrder TaskDomain) (HS : HashOrder string)
    (uuid : nat -> string) (task : string) (n : nat) :
  exists a m,
    analyze_task uuid task n = Some (a, m) /\
    domains a <> [] /\
    required_agents a <> [] /\
    required_agents a ⊆ dict_keys AGENT_CAPABILITIES.
Proof.
  destruct (analyze_task_fields HD HS uuid task n)
    as (a & m & Ha & Hd & Hc & Hr & _).
  exists a, m. split; [done|].
  destruct (identify_domains_order HD HD task) as (d1 & d2 & H1 & _ & _ & Hne).
  rewrite H1 in Hd. injection Hd as ->.
  split; [done|]. rewrite Hr. split.
  - by eapply select_agents_nonempty.
  - intros r Hin.
    pose proof (select_agents_known HS task (domains a) (complexity a)) as Hk.
    rewrite Forall_forall in Hk. by apply Hk.
Qed.

(** C9: two analyses of the same text agree on the domain set, on the
    complexity tier and on the set of required roles, whatever ids the two
    calls draw and whatever order the interpreter iterates its sets in. *)
Theorem analyze_task_deterministic
    (HD1 HD2 : HashOrder TaskDomain) (HS1 HS2 : HashOrder string)
    (uuid1 uuid2 : nat -> string) (n1 n2 : nat) (task : string) :
  exists a1 m1 a2 m2,
    @analyze_task HD1 HS1 uuid1 task n1 = Some (a1, m1) /\
    @analyze_task HD2 HS2 uuid2 task n2 = Some (a2, m2) /\
    domains a1 ≡ₚ domains a2 /\
    complexity a1 = complexity a2 /\
    required_agents a1 ≡ₚ required_agents a2.
Proof. apply analysis_order_independent. Qed.

(** In one interpreter the two calls return the very same lists. *)
Lemma analyze_task_same_process
    (HD : HashOrder TaskDomain) (HS : HashOrder string)
    (uuid1 uuid2 : nat -> string) (n1 n2 : nat) (task : string) :
  exists a1 m1 a2 m2,
    analyze_task uuid1 task n1 = Some (a1, m1) /\
    analyze_task uuid2 task n2 = Some (a2, m2) /\
    domains a1 = domains a2 /\
    complexity a1 = complexity a2 /\
    required_agents a1 = required_agents a2.
Proof.
  destruct (analyze_task_fields HD HS uuid1 task n1)
    as (a1 & m1 & Ha1 & Hd1 & Hc1 & Hr1 & _).
  destruct (analyze_task_fields HD HS uuid2 task n2)
    as (a2 & m2 & Ha2 & Hd2 & Hc2 & Hr2 & _).
  exists a1, m1, a2, m2.
  assert (domains a1 = domains a2) as Hd by congruence.
  assert (complexity a1 = complexity a2) as Hc by congruence.
  repeat split; try done. congruence.
Qed.

(** The ids of the two calls may differ. *)
Example analyze_task_ids_differ :
  (task_id <$> (fst <$> @analyze_task insertion_order insertion_order
                          example_uuid scenario_A_text 0)) <>
  (task_id <$> (fst <$> @analyze_task insertion_order insertion_order
                          example_uuid scenario_A_text 3)).
Proof. by vm_compute. Qed.

(** C4, as stated: domains [{Backend}] and roles [{backend-expert}].  The
    analysis of the scenario text has two domains and two roles. *)
Lemma scenario_A_backend_only_fails :
  ~ (exists a, analysis_of scenario_A_text = Some a /\
               domains a ≡ₚ [BACKEND] /\
               complexity a = MODERATE /\
               required_agents a ≡ₚ ["backend-expert"]).
Proof.
  intros (a & Ha & Hd & _). vm_compute in Ha. injection Ha as <-.
  apply Permutation_length in Hd. discriminate.
Qed.

(** C4, amended: for "Create a REST API for user management" the domain set
    is [{Backend, FullStack}], the complexity is Moderate and the role set is
    [{backend-expert, frontend-expert}]. *)
Theorem scenario_A_analysis
    (HD : HashOrder TaskDomain) (HS : HashOrder string)
    (uuid : nat -> string) (n : nat) :
  exists a m,
    analyze_task uuid scenario_A_text n = Some (a, m) /\
    domains a ≡ₚ [BACKEND; FULL_STACK] /\
    complexity a = MODERATE /\
    required_agents a ≡ₚ ["backend-expert"; "frontend-expert"].
Proof.
  destruct (analysis_order_independent HD insertion_order HS insertion_order
              uuid example_uuid n 0 scenario_A_text)
    as (a & m & a' & m' & Ha & Ha' & Hd & Hc & Hr).
  vm_compute in Ha'. injection Ha' as <- <-.
  exists a, m. split; [done|]. by cbn in Hd, Hc, Hr.
Qed.

(** ** Decomposer: tiers and ids *)

Lemma insert_by_priority_Permutation x l : insert_by_priority x l ≡ₚ x :: l.
Proof.
  induction l as [|y l IH]; cbn [insert_by_priority]; [done|].
  destruct (_ <=? _); [done|]. rewrite IH. apply Permutation_swap.
Qed.

Lemma sorted_by_priority_Permutation sts :
  sorted_by_priority sts ≡ₚ imap (fun i t => (i, t)) sts.
Proof.
  unfold sorted_by_priority.
  induction (imap (fun i t => (i, t)) sts) as [|x l IH]; cbn [foldr]; [done|].
  by rewrite insert_by_priority_Permutation, IH.
Qed.

Lemma sorted_by_priority_elem sts r t :
  (r, t) ∈ sorted_by_priority sts <-> sts !! r = Some t.
Proof.
  rewrite sorted_by_priority_Permutation, elem_of_lookup_imap. split.
  - intros (i & y & [= -> ->] & H). done.
  - intros H. eauto.
Qed.

Lemma wired_from_refl sts : Forall2 (wired_from sts) sts sts.
Proof.
  apply Forall2_same_length_lookup_2; [done|].
  intros i x y Hx Hy. assert (x = y) as -> by congruence.
  unfold wired_from. repeat split; try done. auto.
Qed.

Lemma wire_step_preserves sts store i :
  Forall2 (wired_from sts) sts store ->
  Forall2 (wired_from sts) sts (wire_step (sorted_by_priority sts) store i).
Proof.
  intros Hinv. unfold wire_step. destruct i as [|i']; [done|].
  destruct (sorted_by_priority sts !! S i') as [[r task]|] eqn:Hcur; [|done].
  destruct (sorted_by_priority sts !! i') as [[r0 prev]|] eqn:Hprev; [|done].
  destruct (priority prev <? priority task) eqn:Hlt; [|done].
  apply Z.ltb_lt in Hlt.
  apply Forall2_alter_r; [done|].
  intros x y Hx Hy (Hid & Hpr & Het & Hag & Hdeps).
  assert (x = task) as ->.
  { apply list_elem_of_lookup_2, sorted_by_priority_elem in Hcur. congruence. }
  unfold wired_from, set_dependencies. cbn.
  repeat split; try done.
  intros d Hd. right.
  apply list_elem_of_fmap in Hd as ([j s] & -> & Hs).
  apply list_elem_of_filter in Hs as [Hprio Hs]. cbn in Hprio.
  apply elem_of_take in Hs as (k & Hk & _).
  apply list_elem_of_lookup_2, sorted_by_priority_elem in Hk.
  exists s. split; [by eapply list_elem_of_lookup_2|].
  split; [reflexivity|]. cbn in *. lia.
Qed.

Lemma wire_steps_preserve sts steps store :
  Forall2 (wired_from sts) sts store ->
  Forall2 (wired_from sts) sts
          (foldl (wire_step (sorted_by_priority sts)) store steps).
Proof.
  revert store. induction steps as [|i steps IH]; intros store H;
    cbn [foldl]; [done|].
  apply IH. by apply wire_step_preserves.
Qed.

Lemma establish_dependencies_wired sts :
  Forall2 (wired_from sts) sts (_establish_dependencies sts).
Proof. apply wire_steps_preserve, wired_from_refl. Qed.

(** Ids and tiers of the decomposer's output. *)
Lemma establish_dependencies_ids sts :
  id <$> _establish_dependencies sts = id <$> sts.
Proof.
  pose proof (establish_dependencies_wired sts) as H.
  induction H as [|x y l k (Hid & _) _ IH]; cbn; [done|].
  by rewrite Hid, IH.
Qed.

Lemma establish_dependencies_tiered sts :
  Forall (fun t => dependencies t = []) sts ->
  forall t d, t ∈ _establish_dependencies sts -> d ∈ dependencies t ->
    exists s, s ∈ _establish_dependencies sts /\ id s = d /\
              priority s < priority t.
Proof.
  intros Hnil t' d Ht' Hd.
  pose proof (establish_dependencies_wired sts) as H.
  apply list_elem_of_lookup in Ht' as [i Hi].
  destruct (Forall2_lookup_r _ _ _ _ _ H Hi) as (t & Ht & _ & Hpr & _ & _ & Hdeps).
  destruct (Hdeps d Hd) as [Hold|(s & Hs & Hsid & Hlt)].
  - rewrite Forall_forall in Hnil.
    rewrite (Hnil t) in Hold by (by eapply list_elem_of_lookup_2).
    inversion Hold.
  - apply list_elem_of_lookup in Hs as [j Hj].
    destruct (Forall2_lookup_l _ _ _ _ _ H Hj) as (s' & Hs' & Hid' & Hpr' & _).
    exists s'. split; [by eapply list_elem_of_lookup_2|].
    split; [congruence|lia].
Qed.

Section DecomposerFacts.
Context {HD : HashOrder TaskDomain}.
Variable uuid : nat -> string.

Lemma make_subtasks_shape task ags doms n sts n' :
  make_subtasks uuid task ags doms n = Some (sts, n') ->
  (n <= n')%nat /\
  Forall (fun t => dependencies t = [] /\
                   exists k, (n <= k < n')%nat /\ id t = "subtask_" +:+ uuid k /\
                   agent_id t ∈ ags /\
                   priority t = _calculate_priority (agent_id t) doms /\
                   estimated_time t = _estimate_agent_time (agent_id t) task) sts.
Proof.
  revert n sts n'. induction ags as [|a ags IH]; intros n sts n';
    cbn [make_subtasks].
  - intros [= <- <-]. split; [lia|constructor].
  - destruct (dict_get a AGENT_CAPABILITIES) as [c|]; [|discriminate].
    cbn [mbind option_bind].
    destruct (list_of_inter _ _) as [|primary rest].
    + intros H. apply IH in H as [Hle H]. split; [done|].
      eapply Forall_impl; [exact H|]. cbn.
      intros t (Hd & k & Hk & Hid & Hag & Hrest). split; [done|].
      exists k. split; [lia|]. split; [done|]. split; [by right|done].
    + destruct (make_subtasks uuid task ags doms (S n)) as [[more m]|] eqn:E;
        [|discriminate].
      cbn [mbind option_bind]. intros [= <- <-].
      apply IH in E as [Hle H]. split; [lia|].
      constructor.
      * cbn. split; [done|]. exists n.
        split; [lia|]. split; [done|]. split; [by left|done].
      * eapply Forall_impl; [exact H|]. cbn.
        intros t (Hd & k & Hk & Hid & Hag & Hrest). split; [done|].
        exists k. split; [lia|]. split; [done|]. split; [by right|done].
Qed.

Lemma make_subtasks_NoDup task ags doms n sts n' :
  Inj (=) (=) uuid ->
  make_subtasks uuid task ags doms n = Some (sts, n') ->
  NoDup (id <$> sts).
Proof.
  intros Hinj. revert n sts n'. induction ags as [|a ags IH]; intros n sts n';
    cbn [make_subtasks].
  - intros [= <- <-]. constructor.
  - destruct (dict_get a AGENT_CAPABILITIES) as [c|]; [|discriminate].
    cbn [mbind option_bind].
    destruct (list_of_inter _ _) as [|primary rest]; [apply IH|].
    destruct (make_subtasks uuid task ags doms (S n)) as [[more m]|] eqn:E;
      [|discriminate].
    cbn [mbind option_bind]. intros [= <- <-].
    cbn [fmap list_fmap id]. apply NoDup_cons. split; [|by eapply IH].
    intros Hin. apply list_elem_of_fmap in Hin as (t & Hid & Ht).
    apply make_subtasks_shape in E as [_ Hall].
    rewrite Forall_forall in Hall.
    destruct (Hall t Ht) as (_ & k & Hk & Hidk & _).
    rewrite Hidk in Hid. apply (inj (String.app "subtask_")) in Hid.
    apply Hinj in Hid. lia.
Qed.

End DecomposerFacts.

(** ** Topological generations *)

Lemma successors_out_edges G u :
  successors G u = snd <$> out_edges (graph_edges G) u.
Proof.
  unfold successors, out_edges, graph_edges.
  induction (g_edge G) as [|[[a b] data] l IH]; [done|].
  cbn [fmap list_fmap fst]. destruct (decide (a = u)) as [->|Hne].
  - rewrite !filter_cons_True by done. cbn [fmap list_fmap]. by rewrite IH.
  - by rewrite !filter_cons_False by done.
Qed.

Lemma in_degree_in_edges G v :
  in_degree G v = Z.of_nat (length (in_edges (graph_edges G) v)).
Proof.
  unfold in_degree, predecessors, in_edges, graph_edges. f_equal.
  rewrite length_fmap.
  induction (g_edge G) as [|[[a b] data] l IH]; [done|].
  cbn [fmap list_fmap fst]. destruct (decide (b = v)) as [->|Hne].
  - rewrite !filter_cons_True by done. cbn [length]. by rewrite IH.
  - by rewrite !filter_cons_False by done.
Qed.

Lemma in_edges_cons_eq R u c : in_edges ((u, c) :: R) c = (u, c) :: in_edges R c.
Proof. unfold in_edges. by rewrite filter_cons_True. Qed.

Lemma in_edges_cons_ne R u c v : c <> v -> in_edges ((u, c) :: R) v = in_edges R v.
Proof. intros H. unfold in_edges. by rewrite filter_cons_False. Qed.

(** A duplicate-free list that is longer than another has an element the
    other lacks. *)
Lemma longer_has_extra {A : Type} `{EqDecision A} (l k : list A) :
  NoDup l -> (length k < length l)%nat -> exists x, x ∈ l /\ x ∉ k.
Proof.
  intros Hnd Hlen.
  destruct (decide (Forall (fun x => x ∈ k) l)) as [Hall|Hnot].
  - rewrite Forall_forall in Hall.
    pose proof (submseteq_length _ _ (NoDup_submseteq _ _ Hnd Hall)). lia.
  - apply not_Forall_Exists in Hnot; [|apply _].
    apply Exists_exists in Hnot as (x & Hx & Hnx). eauto.
Qed.

(** Relaxing one edge that was not relaxed before: the target is still in
    [indegree_map]. *)
Lemma relax_target_pending G M R Zs u c :
  graph_wf G -> kahn_inv G M R Zs ->
  (u, c) ∈ graph_edges G -> (u, c) ∉ R ->
  exists d, dict_get c M = Some d /\ 0 < d /\
            d = Z.of_nat (length (in_edges (graph_edges G) c))
                - Z.of_nat (length (in_edges R c)).
Proof.
  intros (_ & _ & Hend) (Hsome & Hnone & _) Huc Hfresh.
  destruct (Hend u c Huc) as [_ HcN].
  destruct (dict_get c M) as [d|] eqn:Hc.
  - exists d. split; [done|]. by apply Hsome.
  - destruct (Hnone c HcN Hc) as [_ Hall]. by apply Hall in Huc.
Qed.

(** The in-degree of the target reaches zero: it leaves the map and joins the
    zero list. *)
Lemma relax_to_zero G M R Zs u c :
  graph_wf G -> kahn_inv G M R Zs ->
  (u, c) ∈ graph_edges G -> (u, c) ∉ R ->
  dict_get c M = Some 1 ->
  kahn_inv G (dict_del c M) ((u, c) :: R) (Zs ++ [c]).
Proof.
  intros (_ & HE & Hend) (Hsome & Hnone & Hzs & HndZ & HndR & Hsub)
         Huc Hfresh Hc.
  destruct (Hsome c 1 Hc) as [_ Hd].
  assert ((u, c) :: R ⊆ graph_edges G) as Hsub'.
  { intros e He. apply elem_of_cons in He as [->|He]; [done|by apply Hsub]. }
  unfold kahn_inv. split; [|split; [|split; [|split; [|split]]]].
  - intros v d Hv. destruct (decide (c = v)) as [->|Hne].
    + rewrite dict_get_del_eq in Hv. discriminate.
    + rewrite dict_get_del_ne in Hv by done.
      rewrite in_edges_cons_ne by done. by apply Hsome.
  - intros v HvN Hv. destruct (decide (c = v)) as [->|Hne].
    + split; [apply elem_of_app; right; left|].
      intros u' Hu'.
      assert (in_edges ((u, v) :: R) v ≡ₚ in_edges (graph_edges G) v) as Hp.
      { apply submseteq_length_Permutation.
        - apply NoDup_submseteq; [apply NoDup_filter; by apply NoDup_cons|].
          intros e He. apply list_elem_of_filter in He as [He1 He2].
          apply list_elem_of_filter. split; [done|by apply Hsub'].
        - rewrite in_edges_cons_eq. cbn [length]. lia. }
      assert ((u', v) ∈ in_edges ((u, v) :: R) v) as Hin.
      { rewrite Hp. by apply list_elem_of_filter. }
      by apply list_elem_of_filter in Hin as [_ Hin].
    + rewrite dict_get_del_ne in Hv by done.
      destruct (Hnone v HvN Hv) as [HvZ Hall].
      split; [apply elem_of_app; by left|].
      intros u' Hu'. right. by apply Hall.
  - intros v Hv. apply elem_of_app in Hv as [Hv|Hv].
    + destruct (Hzs v Hv) as [HvN Hvn]. split; [done|].
      destruct (decide (c = v)) as [->|Hne]; [apply dict_get_del_eq|].
      by rewrite dict_get_del_ne.
    + apply list_elem_of_singleton in Hv as ->.
      split; [by destruct (Hend u c Huc)|apply dict_get_del_eq].
  - apply NoDup_app. split; [done|]. split; [|apply NoDup_singleton].
    intros x Hx Hx'. apply list_elem_of_singleton in Hx' as ->.
    destruct (Hzs c Hx) as [_ Hcn]. congruence.
  - by apply NoDup_cons.
  - done.
Qed.

(** The in-degree of the target stays positive: it is decremented in place. *)
Lemma relax_decrement G M R Zs u c d :
  graph_wf G -> kahn_inv G M R Zs ->
  (u, c) ∈ graph_edges G -> (u, c) ∉ R ->
  dict_get c M = Some d -> d - 1 <> 0 ->
  kahn_inv G (dict_set c (d - 1) M) ((u, c) :: R) Zs.
Proof.
  intros _ (Hsome & Hnone & Hzs & HndZ & HndR & Hsub) Huc Hfresh Hc Hnz.
  destruct (Hsome c d Hc) as [Hpos Hd].
  unfold kahn_inv. split; [|split; [|split; [|split; [|split]]]].
  - intros v d' Hv. destruct (decide (c = v)) as [->|Hne].
    + rewrite dict_get_set_eq in Hv. injection Hv as <-.
      rewrite in_edges_cons_eq. cbn [length]. lia.
    + rewrite dict_get_set_ne in Hv by done.
      rewrite in_edges_cons_ne by done. by apply Hsome.
  - intros v HvN Hv. destruct (decide (c = v)) as [->|Hne].
    + rewrite dict_get_set_eq in Hv. discriminate.
    + rewrite dict_get_set_ne in Hv by done.
      destruct (Hnone v HvN Hv) as [HvZ Hall]. split; [done|].
      intros u' Hu'. right. by apply Hall.
  - intros v Hv. destruct (Hzs v Hv) as [HvN Hvn]. split; [done|].
    destruct (decide (c = v)) as [->|Hne]; [congruence|].
    by rewrite dict_get_set_ne.
  - done.
  - by apply NoDup_cons.
  - intros e He. apply elem_of_cons in He as [->|He]; [done|by apply Hsub].
Qed.

Lemma relax_one G M R Zs u c :
  graph_wf G -> kahn_inv G M R Zs ->
  (u, c) ∈ graph_edges G -> (u, c) ∉ R ->
  exists d,
    dict_get c M = Some d /\
    (d - 1 = 0 ->
       kahn_inv G (dict_del c M) ((u, c) :: R) (Zs ++ [c])) /\
    (d - 1 <> 0 ->
       kahn_inv G (dict_set c (d - 1) M) ((u, c) :: R) Zs).
Proof.
  intros Hwf Hinv Huc Hfresh.
  destruct (relax_target_pending G M R Zs u c Hwf Hinv Huc Hfresh)
    as (d & Hc & _).
  exists d. split; [done|]. split.
  - intros Hzero. assert (d = 1) as -> by lia. by apply relax_to_zero.
  - intros Hnz. by apply relax_decrement.
Qed.

Lemma kahn_inv_Permutation G M R R' Zs :
  R ≡ₚ R' -> kahn_inv G M R Zs -> kahn_inv G M R' Zs.
Proof.
  intros Hp (Hsome & Hnone & Hzs & HndZ & HndR & Hsub).
  unfold kahn_inv. split; [|split; [|split; [done|split; [done|split]]]].
  - intros v d Hv. destruct (Hsome v d Hv) as [Hpos Hd]. split; [done|].
    unfold in_edges in *. by rewrite <- Hp.
  - intros v Hv Hn. destruct (Hnone v Hv Hn) as [Hz Hall]. split; [done|].
    intros u Hu. rewrite <- Hp. by apply Hall.
  - by rewrite <- Hp.
  - intros e He. apply Hsub. by rewrite Hp.
Qed.

(** Relaxing a list of distinct, not yet relaxed edges never raises. *)
Lemma relax_edges G es : 
  graph_wf G ->
  forall M R Zs Z,
    kahn_inv G M R Zs ->
    NoDup es -> es ⊆ graph_edges G -> (forall e, e ∈ es -> e ∉ R) ->
    exists M' Znew,
      relax_children (snd <$> es) M Z = Some (M', Z ++ Znew) /\
      kahn_inv G M' (es ++ R) (Zs ++ Znew).
Proof.
  intros Hwf. induction es as [|[u c] es IH]; intros M R Zs Z Hinv Hnd Hsub Hfresh.
  - exists M, []. cbn. by rewrite !app_nil_r.
  - apply NoDup_cons in Hnd as [Hnotin Hnd].
    destruct (relax_one G M R Zs u c Hwf Hinv) as (d & Hd & Hzero & Hnz).
    { apply Hsub. left. }
    { apply Hfresh. left. }
    cbn [fmap list_fmap snd relax_children]. rewrite Hd.
    cbn [mbind option_bind].
    assert (es ⊆ graph_edges G) as Hsub'.
    { intros e He. apply Hsub. by right. }
    assert (forall e, e ∈ es -> e ∉ (u, c) :: R) as Hfresh'.
    { intros e He. apply not_elem_of_cons. split; [by intros ->|].
      apply Hfresh. by right. }
    destruct (d - 1 =? 0) eqn:E.
    + apply Z.eqb_eq in E.
      destruct (IH _ _ _ (Z ++ [c]) (Hzero E) Hnd Hsub' Hfresh')
        as (M' & Znew & Hrun & Hinv').
      exists M', (c :: Znew). rewrite Hrun.
      split; [by rewrite <- app_assoc|].
      rewrite <- app_assoc in Hinv'. cbn [app] in Hinv'.
      eapply kahn_inv_Permutation; [|exact Hinv'].
      symmetry. apply Permutation_middle.
    + apply Z.eqb_neq in E.
      destruct (IH _ _ _ Z (Hnz E) Hnd Hsub' Hfresh')
        as (M' & Znew & Hrun & Hinv').
      exists M', Znew. split; [done|].
      eapply kahn_inv_Permutation; [|exact Hinv'].
      symmetry. apply Permutation_middle.
Qed.

Lemma relax_children_app l1 l2 M Z :
  relax_children (l1 ++ l2) M Z =
  relax_children l1 M Z ≫= fun mz => relax_children l2 mz.1 mz.2.
Proof.
  revert M Z. induction l1 as [|c l1 IH]; intros M Z; cbn [app relax_children].
  - done.
  - destruct (dict_get c M) as [d|]; cbn [mbind option_bind]; [|done].
    destruct (d - 1 =? 0); apply IH.
Qed.

Lemma process_generation_flat G gen M Z :
  process_generation G gen M Z =
  relax_children (snd <$> (gen ≫= out_edges (graph_edges G))) M Z.
Proof.
  revert M Z. induction gen as [|node gen IH]; intros M Z;
    cbn [process_generation]; [done|].
  rewrite bind_cons, fmap_app, relax_children_app, <- successors_out_edges.
  destruct (relax_children (successors G node) M Z) as [[m z]|];
    cbn [mbind option_bind]; [apply IH|done].
Qed.

Lemma out_edges_bind_NoDup E gen :
  NoDup E -> NoDup gen -> NoDup (gen ≫= out_edges E).
Proof.
  intros HE Hgen. apply NoDup_bind; [| |done].
  - intros x1 x2 e _ _ H1 H2.
    apply list_elem_of_filter in H1 as [H1 _].
    apply list_elem_of_filter in H2 as [H2 _]. congruence.
  - intros x _. by apply NoDup_filter.
Qed.

Lemma elem_of_out_edges_bind E gen e :
  e ∈ gen ≫= out_edges E <-> e ∈ E /\ e.1 ∈ gen.
Proof.
  rewrite list_elem_of_bind. split.
  - intros (x & He & Hx). apply list_elem_of_filter in He as [<- He]. done.
  - intros [He Hg]. exists e.1. split; [|done]. by apply list_elem_of_filter.
Qed.

(** A non-empty list has an element of least rank. *)
Lemma least_rank (rank : string -> Z) (l : list string) :
  l <> [] -> exists v, v ∈ l /\ forall u, u ∈ l -> rank v <= rank u.
Proof.
  induction l as [|x l IH]; [done|]. intros _.
  destruct l as [|y l].
  - exists x. split; [left|]. intros u Hu.
    apply list_elem_of_singleton in Hu as ->. lia.
  - destruct IH as (v & Hv & Hmin); [done|].
    destruct (decide (rank x <= rank v)).
    + exists x. split; [left|]. intros u Hu.
      apply elem_of_cons in Hu as [->|Hu]; [lia|].
      specialize (Hmin u Hu). lia.
    + exists v. split; [by right|]. intros u Hu.
      apply elem_of_cons in Hu as [->|Hu]; [lia|by apply Hmin].
Qed.

(** The [while] loop of the generations: with edges that climb a rank, it
    ends with an empty [indegree_map]. *)
Lemma generations_loop_succeeds G (rank : string -> Z) :
  graph_wf G ->
  (forall u v, (u, v) ∈ graph_edges G -> rank u < rank v) ->
  forall fuel M D Zcur R,
    kahn_inv G M R (D ++ Zcur) ->
    (forall e, e ∈ R <-> e ∈ graph_edges G /\ e.1 ∈ D) ->
    (length (g_node G) < fuel + length D)%nat ->
    is_Some (generations_loop fuel G M Zcur).
Proof.
  intros Hwf Hrank. pose proof Hwf as (HN & HE & Hend).
  induction fuel as [|fuel IH]; intros M D Zcur R Hinv HR Hfuel.
  - exfalso.
    destruct Hinv as (_ & _ & Hzs & HndZ & _).
    assert (D ++ Zcur ⊆+ dict_keys (g_node G)) as Hsub.
    { apply NoDup_submseteq; [done|]. intros x Hx. by apply Hzs. }
    apply submseteq_length in Hsub.
    unfold dict_keys in Hsub. rewrite length_map, length_app in Hsub. lia.
  - destruct Zcur as [|z Zcur].
    + (* nothing left to emit: the map must be empty *)
      cbn [generations_loop]. destruct M as [|[k0 d0] M0]; [eauto|].
      exfalso. rewrite app_nil_r in Hinv.
      destruct Hinv as (Hsome & Hnone & Hzs & _ & HndR & Hsub).
      destruct (least_rank rank (dict_keys ((k0, d0) :: M0)))
        as (v & Hv & Hmin); [done|].
      destruct (dict_get_is_Some v _ Hv) as [d Hd].
      destruct (Hsome v d Hd) as [Hpos Heq].
      destruct (longer_has_extra (in_edges (graph_edges G) v) (in_edges R v))
        as ([u v'] & Hin & Hnotin); [by apply NoDup_filter|lia|].
      apply list_elem_of_filter in Hin as [Hv' Hin]. cbn in Hv'. subst v'.
      assert ((u, v) ∉ R) as HnR.
      { intros HinR. apply Hnotin. by apply list_elem_of_filter. }
      assert (u ∉ D) as HuD.
      { intros HuD. apply HnR, HR. done. }
      destruct (Hend u v Hin) as [HuN _].
      destruct (dict_get u ((k0, d0) :: M0)) as [du|] eqn:Hu.
      * assert (u ∈ dict_keys ((k0, d0) :: M0)) as Huk.
        { destruct (decide (u ∈ dict_keys ((k0, d0) :: M0))); [done|].
          apply dict_get_None_keys in n. congruence. }
        specialize (Hmin u Huk). specialize (Hrank u v Hin). lia.
      * destruct (Hnone u HuN Hu) as [HuZ _]. done.
    + cbn [generations_loop]. rewrite process_generation_flat.
      set (es := (z :: Zcur) ≫= out_edges (graph_edges G)).
      destruct Hinv as (Hsome & Hnone & Hzs & HndZ & HndR & Hsub).
      pose proof HndZ as HndZ'.
      apply NoDup_app in HndZ' as (HndD & Hdisj & Hndcur).
      destruct (relax_edges G es Hwf M R (D ++ z :: Zcur) [])
        as (M' & Znew & Hrun & Hinv').
      { done. }
      { by apply out_edges_bind_NoDup. }
      { intros e He. by apply elem_of_out_edges_bind in He as [He _]. }
      { intros e He HeR. apply elem_of_out_edges_bind in He as [_ He].
        apply HR in HeR as [_ HeD]. by apply (Hdisj e.1). }
      rewrite Hrun. cbn [mbind option_bind app].
      destruct (IH M' (D ++ z :: Zcur) Znew (es ++ R)) as [later Hlater].
      * done.
      * intros e. rewrite !elem_of_app. unfold es.
        rewrite elem_of_out_edges_bind, HR. tauto.
      * rewrite length_app. cbn [length]. lia.
      * rewrite Hlater. cbn [mbind option_bind]. eauto.
Qed.

Lemma degrees_filter_keys {A} (f : string -> A) (P : string * A -> Prop)
    `{forall x, Decision (P x)} (l : list string) :
  fst <$> filter P ((fun n => (n, f n)) <$> l) =
  filter (fun n => P (n, f n)) l.
Proof.
  induction l as [|x l IH]; [done|]. cbn [fmap list_fmap].
  destruct (decide (P (x, f x))) as [Hp|Hp].
  - rewrite !filter_cons_True by done. cbn [fmap list_fmap fst]. by rewrite IH.
  - by rewrite !filter_cons_False by done.
Qed.

Lemma degrees_filter_get {A} (f : string -> A) (P : string * A -> Prop)
    `{forall x, Decision (P x)} (l : list string) v :
  dict_get v (filter P ((fun n => (n, f n)) <$> l)) =
  if decide (v ∈ l /\ P (v, f v)) then Some (f v) else None.
Proof.
  induction l as [|x l IH].
  - cbn. rewrite decide_False; [done|]. intros [Hv _]. inversion Hv.
  - cbn [fmap list_fmap]. destruct (decide (P (x, f x))) as [Hp|Hp].
    + rewrite filter_cons_True by done. cbn [dict_get].
      destruct (decide (x = v)) as [->|Hne].
      * rewrite decide_True; [done|]. split; [left|done].
      * rewrite IH. destruct (decide (v ∈ l /\ P (v, f v))) as [[Hl Hpv]|Hn].
        -- rewrite decide_True; [done|]. split; [by right|done].
        -- rewrite decide_False; [done|]. intros [Hv Hpv]. apply Hn.
           apply elem_of_cons in Hv as [->|Hv]; done.
    + rewrite filter_cons_False by done. rewrite IH.
      destruct (decide (v ∈ l /\ P (v, f v))) as [[Hl Hpv]|Hn].
      * rewrite decide_True; [done|]. split; [by right|done].
      * rewrite decide_False; [done|]. intros [Hv Hpv]. apply Hn.
        apply elem_of_cons in Hv as [->|Hv]; done.
Qed.

(** The networkx sort succeeds on a graph whose edges climb a rank. *)
Lemma topological_sort_succeeds G (rank : string -> Z) :
  graph_wf G ->
  (forall u v, (u, v) ∈ graph_edges G -> rank u < rank v) ->
  is_Some (topological_sort G).
Proof.
  intros Hwf Hrank. pose proof Hwf as (HN & HE & Hend).
  unfold topological_sort, topological_generations.
  destruct (generations_loop_succeeds G rank Hwf Hrank
              (S (length (g_node G)))
              (filter (fun nd => 0 < nd.2)
                 ((fun n => (n, in_degree G n)) <$> dict_keys (g_node G)))
              []
              (fst <$> filter (fun nd => nd.2 = 0)
                 ((fun n => (n, in_degree G n)) <$> dict_keys (g_node G)))
              []) as [gens Hgens].
  - cbn [app]. unfold kahn_inv.
    split; [|split; [|split; [|split; [|split]]]].
    + intros v d Hv. rewrite degrees_filter_get in Hv.
      destruct (decide _) as [[_ Hpos]|]; [|discriminate].
      injection Hv as <-. cbn in Hpos. split; [done|].
      rewrite in_degree_in_edges. cbn. lia.
    + intros v Hv Hnone. rewrite degrees_filter_get in Hnone.
      destruct (decide _) as [|Hn]; [discriminate|].
      assert (in_degree G v = 0) as Hz.
      { destruct (decide (0 < in_degree G v)) as [Hpos|Hnpos].
        - exfalso. apply Hn. done.
        - unfold in_degree in *. lia. }
      split.
      * rewrite degrees_filter_keys. by apply list_elem_of_filter.
      * intros u Hu. exfalso.
        rewrite in_degree_in_edges in Hz.
        assert ((u, v) ∈ in_edges (graph_edges G) v) as Hin
          by (by apply list_elem_of_filter).
        destruct (in_edges (graph_edges G) v); [inversion Hin|].
        cbn [length] in Hz. lia.
    + intros v Hv. rewrite degrees_filter_keys in Hv.
      apply list_elem_of_filter in Hv as [Hz Hv]. cbn in Hz.
      split; [done|]. rewrite degrees_filter_get.
      rewrite decide_False; [done|]. intros [_ Hpos]. cbn in Hpos. lia.
    + rewrite degrees_filter_keys. by apply NoDup_filter.
    + constructor.
    + intros e He. inversion He.
  - intros e. split; [intros He; inversion He|]. intros [_ He]. inversion He.
  - cbn [length]. lia.
  - rewrite Hgens. cbn. eauto.
Qed.

(** ** The execution graph *)

Lemma dict_keys_set {V : Type} (k : string) (v : V) d :
  dict_keys (dict_set k v d) =
  if decide (k ∈ dict_keys d) then dict_keys d else dict_keys d ++ [k].
Proof.
  unfold dict_keys. induction d as [|[k' v'] d IH]; cbn [dict_set map fst].
  - rewrite decide_False; [done|]. intros H. inversion H.
  - destruct (decide (k' = k)) as [->|Hne]; cbn [map fst].
    + rewrite decide_True; [done|]. left.
    + rewrite IH. destruct (decide (k ∈ map fst d)) as [Hin|Hnin].
      * rewrite decide_True; [done|]. by right.
      * rewrite decide_False; [done|]. intros Hin.
        apply elem_of_cons in Hin as [->|Hin]; done.
Qed.

Lemma dict_keys_app {V : Type} (d1 d2 : list (string * V)) :
  dict_keys (d1 ++ d2) = dict_keys d1 ++ dict_keys d2.
Proof. unfold dict_keys. apply map_app. Qed.

Lemma NoDup_snoc_fresh {A} (l : list A) x : NoDup l -> x ∉ l -> NoDup (l ++ [x]).
Proof.
  intros Hl Hx. apply NoDup_app. split; [done|]. split; [|apply NoDup_singleton].
  intros y Hy Hy'. apply list_elem_of_singleton in Hy' as ->. done.
Qed.

Lemma add_node_wf n attr G : graph_wf G -> graph_wf (add_node n attr G).
Proof.
  intros (HN & HE & Hend). unfold graph_wf, add_node, graph_edges.
  cbn [g_node g_edge]. rewrite dict_keys_set.
  destruct (decide (n ∈ dict_keys (g_node G))) as [Hin|Hnin].
  - done.
  - split; [by apply NoDup_snoc_fresh|]. split; [done|].
    intros u v Huv. destruct (Hend u v Huv).
    rewrite !elem_of_app. auto.
Qed.

Lemma add_node_edges n attr G :
  graph_edges (add_node n attr G) = graph_edges G.
Proof. done. Qed.

Lemma add_node_keys n attr G x :
  x ∈ dict_keys (g_node G) -> x ∈ dict_keys (g_node (add_node n attr G)).
Proof.
  intros Hx. unfold add_node. cbn [g_node]. rewrite dict_keys_set.
  destruct (decide _); [done|]. apply elem_of_app. by left.
Qed.

Lemma ensure_node_wf n G : graph_wf G -> graph_wf (ensure_node n G).
Proof.
  intros (HN & HE & Hend). unfold ensure_node.
  destruct (bool_decide (n ∈ dict_keys (g_node G))) eqn:En; [done|].
  apply bool_decide_eq_false in En.
  unfold graph_wf, graph_edges. cbn [g_node g_edge]. rewrite dict_keys_app.
  split; [by apply NoDup_snoc_fresh|]. split; [done|].
  intros a b Hab. destruct (Hend a b Hab). rewrite !elem_of_app. auto.
Qed.

Lemma ensure_node_edges n G : graph_edges (ensure_node n G) = graph_edges G.
Proof. unfold ensure_node. by destruct (bool_decide _). Qed.

Lemma ensure_node_keys n G x :
  x ∈ dict_keys (g_node (ensure_node n G)) <->
  x = n \/ x ∈ dict_keys (g_node G).
Proof.
  unfold ensure_node.
  destruct (bool_decide (n ∈ dict_keys (g_node G))) eqn:En.
  - apply bool_decide_eq_true in En. split; [auto|]. by intros [->|].
  - cbn [g_node]. rewrite dict_keys_app, elem_of_app.
    change (dict_keys [(n, @nil (string * Q))]) with [n].
    rewrite list_elem_of_singleton. tauto.
Qed.

Lemma add_edge_edges u v G e :
  e ∈ graph_edges (add_edge u v G) <-> e = (u, v) \/ e ∈ graph_edges G.
Proof.
  unfold add_edge.
  destruct (bool_decide _) eqn:Ee.
  - apply bool_decide_eq_true in Ee.
    rewrite !ensure_node_edges. fold (graph_edges (ensure_node v (ensure_node u G))) in Ee.
    rewrite !ensure_node_edges in Ee. split; [auto|]. by intros [->|].
  - unfold graph_edges at 1. cbn [g_edge]. rewrite fmap_app.
    fold (graph_edges (ensure_node v (ensure_node u G))).
    rewrite !ensure_node_edges, elem_of_app.
    cbn [fmap list_fmap fst]. rewrite list_elem_of_singleton. tauto.
Qed.

Lemma add_edge_wf u v G : graph_wf G -> graph_wf (add_edge u v G).
Proof.
  intros Hwf.
  pose proof (ensure_node_wf v _ (ensure_node_wf u _ Hwf)) as Hwf2.
  unfold add_edge. destruct (bool_decide _) eqn:Ee; [done|].
  apply bool_decide_eq_false in Ee.
  destruct Hwf2 as (HN & HE & Hend).
  unfold graph_wf, graph_edges in *. cbn [g_node g_edge].
  split; [done|]. rewrite fmap_app. cbn [fmap list_fmap fst].
  split; [by apply NoDup_snoc_fresh|].
  intros a b Hab. apply elem_of_app in Hab as [Hab|Hab]; [by apply Hend|].
  apply list_elem_of_singleton in Hab as [= -> ->].
  rewrite !ensure_node_keys. auto.
Qed.

Lemma add_edge_keys u v G x :
  x ∈ dict_keys (g_node G) -> x ∈ dict_keys (g_node (add_edge u v G)).
Proof.
  intros Hx. unfold add_edge.
  destruct (bool_decide _); cbn [g_node]; rewrite !ensure_node_keys; auto.
Qed.

Lemma add_subtask_wf G t : graph_wf G -> graph_wf (add_subtask G t).
Proof.
  intros Hwf. unfold add_subtask.
  generalize (add_node_wf (id t) [("time", estimated_time t)] G Hwf).
  generalize (add_node (id t) [("time", estimated_time t)] G).
  induction (dependencies t) as [|dep deps IH]; intros G' Hwf'; cbn [foldl];
    [done|].
  apply IH. by apply add_edge_wf.
Qed.

Lemma add_subtask_edges G t e :
  e ∈ graph_edges (add_subtask G t) ->
  e ∈ graph_edges G \/ (e.2 = id t /\ e.1 ∈ dependencies t).
Proof.
  unfold add_subtask.
  rewrite <- (add_node_edges (id t) [("time", estimated_time t)] G).
  generalize (add_node (id t) [("time", estimated_time t)] G).
  induction (dependencies t) as [|dep deps IH]; intros G'; cbn [foldl];
    [auto|].
  intros He. apply IH in He as [He|[He1 He2]].
  - apply add_edge_edges in He as [->|He]; [|auto].
    right. split; [done|left].
  - right. split; [done|by right].
Qed.

Lemma execution_graph_wf sts : graph_wf (execution_graph sts).
Proof.
  unfold execution_graph.
  assert (graph_wf empty_graph) as H0.
  { unfold graph_wf, graph_edges. cbn. split; [constructor|].
    split; [constructor|]. intros u v H. inversion H. }
  revert H0. generalize empty_graph.
  induction sts as [|t sts IH]; intros G HG; cbn [foldl]; [done|].
  apply IH. by apply add_subtask_wf.
Qed.

Lemma execution_graph_edges sts e :
  e ∈ graph_edges (execution_graph sts) ->
  exists t, t ∈ sts /\ e.2 = id t /\ e.1 ∈ dependencies t.
Proof.
  unfold execution_graph.
  assert (forall G, e ∈ graph_edges (foldl add_subtask G sts) ->
            e ∈ graph_edges G \/
            exists t, t ∈ sts /\ e.2 = id t /\ e.1 ∈ dependencies t) as H.
  { induction sts as [|t sts IH]; intros G; cbn [foldl]; [auto|].
    intros He. apply IH in He as [He|(t' & Ht' & He)].
    - apply add_subtask_edges in He as [He|He]; [auto|].
      right. exists t. split; [left|done].
    - right. exists t'. split; [by right|done]. }
  intros He. apply H in He as [He|He]; [inversion He|done].
Qed.

Lemma rank_of_id sts t :
  NoDup (id <$> sts) -> t ∈ sts -> rank_of sts (id t) = priority t.
Proof.
  induction sts as [|t0 sts IH]; intros Hnd Ht; [inversion Ht|].
  cbn [fmap list_fmap] in Hnd. apply NoDup_cons in Hnd as [Hnotin Hnd].
  cbn [rank_of]. apply elem_of_cons in Ht as [->|Ht].
  - by rewrite decide_True.
  - rewrite decide_False; [by apply IH|].
    intros Heq. apply Hnotin. rewrite Heq. by apply list_elem_of_fmap_2.
Qed.

(** The execution graph of tiered subtasks with distinct ids sorts. *)
Lemma tiered_topological_sort sts :
  NoDup (id <$> sts) -> tiered sts ->
  is_Some (topological_sort (execution_graph sts)).
Proof.
  intros Hnd Htier.
  apply (topological_sort_succeeds _ (rank_of sts)); [apply execution_graph_wf|].
  intros u v Huv.
  apply execution_graph_edges in Huv as (t & Ht & Hv & Hu). cbn in Hv, Hu.
  destruct (Htier t u Ht Hu) as (s & Hs & <- & Hlt). subst v.
  by rewrite !rank_of_id.
Qed.

(** No dependency path leads from a subtask back to itself. *)
Lemma tiered_acyclic sts x :
  NoDup (id <$> sts) -> tiered sts ->
  ~ tc (fun u v => (u, v) ∈ graph_edges (execution_graph sts)) x x.
Proof.
  intros Hnd Htier Hcyc.
  assert (forall u v, tc (fun u v => (u, v) ∈ graph_edges (execution_graph sts)) u v ->
                      rank_of sts u < rank_of sts v) as Hclimb.
  { assert (forall u v, (u, v) ∈ graph_edges (execution_graph sts) ->
                        rank_of sts u < rank_of sts v) as Hedge.
    { intros u v Huv.
      apply execution_graph_edges in Huv as (t & Ht & Hv & Hu). cbn in Hv, Hu.
      destruct (Htier t u Ht Hu) as (s & Hs & <- & Hlt). subst v.
      by rewrite !rank_of_id. }
    induction 1 as [u v Huv|u w v Huw _ IH].
    - by apply Hedge.
    - apply Hedge in Huw. lia. }
  apply Hclimb in Hcyc. lia.
Qed.

(** ** The decomposer's dependency graph *)

Lemma decompose_task_tiered (HD : HashOrder TaskDomain) uuid task ags doms n
    sts n' :
  _decompose_task uuid task ags doms n = Some (sts, n') ->
  tiered sts /\ (Inj (=) (=) uuid -> NoDup (id <$> sts)).
Proof.
  unfold _decompose_task.
  destruct (make_subtasks uuid task ags doms n) as [[sts0 m]|] eqn:Hm;
    [|discriminate].
  cbn [mbind option_bind]. intros [= <- <-]. split.
  - intros t d. apply establish_dependencies_tiered.
    apply make_subtasks_shape in Hm as [_ Hm].
    eapply Forall_impl; [exact Hm|]. by intros t' [? _].
  - intros Hinj. rewrite establish_dependencies_ids.
    by eapply make_subtasks_NoDup.
Qed.

(** C2: for every task text the decomposer's dependency edges lead from a
    subtask of a strictly lower priority tier to one of a strictly higher
    tier; with ids that do not repeat, no dependency path returns to its
    start and the topological sort of the execution graph succeeds. *)
Theorem decomposer_graph_acyclic
    (HD : HashOrder TaskDomain) (HS : HashOrder string)
    (uuid : nat -> string) (task : string) (n : nat) :
  Inj (=) (=) uuid ->
  exists a m,
    analyze_task uuid task n = Some (a, m) /\
    (forall t d, t ∈ subtasks a -> d ∈ dependencies t ->
       exists s, s ∈ subtasks a /\ id s = d /\ priority s < priority t) /\
    (forall x,
       ~ tc (fun u v => (u, v) ∈ graph_edges (execution_graph (subtasks a)))
            x x) /\
    is_Some (topological_sort (execution_graph (subtasks a))).
Proof.
  intros Hinj.
  destruct (analyze_task_fields HD HS uuid task n)
    as (a & m & Ha & _ & _ & _ & Hdec & _).
  apply decompose_task_tiered in Hdec as [Htier Hnd].
  specialize (Hnd Hinj).
  exists a, m. split; [done|]. split; [exact Htier|]. split.
  - intros x. by apply tiered_acyclic.
  - by apply tiered_topological_sort.
Qed.

Lemma decomposer_graph_acyclic_witness :
  Inj (=) (=) example_uuid /\
  exists a m,
    @analyze_task insertion_order insertion_order example_uuid
      scenario_A_text 0 = Some (a, m) /\
    (forall t d, t ∈ subtasks a -> d ∈ dependencies t ->
       exists s, s ∈ subtasks a /\ id s = d /\ priority s < priority t) /\
    is_Some (topological_sort (execution_graph (subtasks a))).
Proof.
  split; [apply pretty_nat_inj|].
  destruct (decomposer_graph_acyclic insertion_order insertion_order
              example_uuid scenario_A_text 0 pretty_nat_inj)
    as (a & m & Ha & Htier & _ & Hsort).
  exists a, m. split; [exact Ha|]. split; [exact Htier|exact Hsort].
Defined.

(** ** The longest path only looks at the shape of the graph *)

Section Shape.
Variables G G' : DiGraph.
Hypothesis Hshape : same_shape G G'.

Lemma shape_successors u : successors G u = successors G' u.
Proof. unfold successors. by rewrite (proj2 Hshape). Qed.

Lemma shape_predecessors v : predecessors G v = predecessors G' v.
Proof. unfold predecessors. by rewrite (proj2 Hshape). Qed.

Lemma shape_process_generation gen M Z :
  process_generation G gen M Z = process_generation G' gen M Z.
Proof.
  revert M Z. induction gen as [|node gen IH]; intros M Z;
    cbn [process_generation]; [done|].
  rewrite shape_successors.
  destruct (relax_children _ _ _) as [[m z]|]; cbn [mbind option_bind];
    [apply IH|done].
Qed.

Lemma shape_generations_loop fuel M Z :
  generations_loop fuel G M Z = generations_loop fuel G' M Z.
Proof.
  revert M Z. induction fuel as [|fuel IH]; intros M Z;
    destruct Z as [|z Z]; cbn [generations_loop]; try done.
  rewrite shape_process_generation.
  destruct (process_generation _ _ _ _) as [[m z']|]; cbn [mbind option_bind];
    [|done].
  by rewrite IH.
Qed.

Lemma shape_topological_sort : topological_sort G = topological_sort G'.
Proof.
  unfold topological_sort, topological_generations.
  assert (length (g_node G) = length (g_node G')) as ->.
  { pose proof (f_equal length (proj1 Hshape)) as H.
    unfold dict_keys in H. by rewrite !length_map in H. }
  rewrite <- (proj1 Hshape).
  assert (((fun n => (n, in_degree G n)) <$> dict_keys (g_node G)) =
          ((fun n => (n, in_degree G' n)) <$> dict_keys (g_node G))) as ->.
  { apply list_fmap_ext. intros _ n _. unfold in_degree.
    by rewrite shape_predecessors. }
  by rewrite shape_generations_loop.
Qed.

Lemma shape_longest_dist weight dw topo dist :
  longest_dist G weight dw topo dist = longest_dist G' weight dw topo dist.
Proof.
  revert dist. induction topo as [|v topo IH]; intros dist;
    cbn [longest_dist]; [done|].
  rewrite shape_predecessors.
  destruct (candidates _ _ _ _) as [us|]; cbn [mbind option_bind]; [|done].
  apply IH.
Qed.

Lemma shape_pairwise_length weight dw u rest acc :
  pairwise_length G weight dw u rest acc =
  pairwise_length G' weight dw u rest acc.
Proof.
  revert u acc. induction rest as [|v rest IH]; intros u acc;
    cbn [pairwise_length]; [done|].
  unfold edge_data. rewrite (proj2 Hshape).
  destruct (_ <$> list_find _ _) as [data|]; cbn [mbind option_bind]; [|done].
  apply IH.
Qed.

Lemma shape_dag_longest_path_length weight dw :
  dag_longest_path_length G weight dw = dag_longest_path_length G' weight dw.
Proof.
  unfold dag_longest_path_length, dag_longest_path.
  rewrite shape_topological_sort.
  assert (match g_node G with [] => true | _ => false end =
          match g_node G' with [] => true | _ => false end) as Hemp.
  { pose proof (proj1 Hshape) as H. unfold dict_keys in H.
    destruct (g_node G), (g_node G'); done. }
  destruct (g_node G) as [|x l], (g_node G') as [|x' l']; try done.
  destruct (topological_sort G') as [topo|]; cbn [mbind option_bind]; [|done].
  rewrite shape_longest_dist.
  destruct (longest_dist G' weight dw topo []) as [dist|];
    cbn [mbind option_bind]; [|done].
  destruct dist as [|d0 dist]; cbn [mbind option_bind]; [done|].
  destruct (walk_back _ _ _ _) as [path|]; cbn [mbind option_bind]; [|done].
  destruct (reverse path) as [|u rest]; [done|].
  apply shape_pairwise_length.
Qed.

End Shape.

Lemma same_shape_refl G : same_shape G G.
Proof. done. Qed.

Lemma add_node_shape n attr attr' G G' :
  same_shape G G' -> same_shape (add_node n attr G) (add_node n attr' G').
Proof.
  intros [Hk He]. unfold same_shape, add_node. cbn [g_node g_edge].
  by rewrite !dict_keys_set, Hk.
Qed.

Lemma ensure_node_shape n G G' :
  same_shape G G' -> same_shape (ensure_node n G) (ensure_node n G').
Proof.
  intros [Hk He]. unfold ensure_node. rewrite Hk.
  destruct (bool_decide _); [done|].
  unfold same_shape. cbn [g_node g_edge]. by rewrite !dict_keys_app, Hk.
Qed.

Lemma add_edge_shape u v G G' :
  same_shape G G' -> same_shape (add_edge u v G) (add_edge u v G').
Proof.
  intros H.
  pose proof (ensure_node_shape v _ _ (ensure_node_shape u _ _ H)) as H2.
  unfold add_edge. cbv zeta.
  destruct (ensure_node v (ensure_node u G)) as [n1 e1].
  destruct (ensure_node v (ensure_node u G')) as [n2 e2].
  destruct H2 as [Hk He]. cbn [g_node g_edge] in *. subst e2.
  destruct (bool_decide _); [done|].
  unfold same_shape. by cbn [g_node g_edge].
Qed.

Lemma add_subtask_shape G G' t t' :
  same_shape G G' -> same_wiring t t' ->
  same_shape (add_subtask G t) (add_subtask G' t').
Proof.
  intros H [Hid Hdep]. unfold add_subtask. rewrite <- Hid, <- Hdep.
  clear Hid Hdep.
  generalize (add_node_shape (id t) [("time", estimated_time t)]
                [("time", estimated_time t')] G G' H).
  generalize (add_node (id t) [("time", estimated_time t)] G).
  generalize (add_node (id t) [("time", estimated_time t')] G').
  induction (dependencies t) as [|dep deps IH]; intros G1' G1 H1;
    cbn [foldl]; [done|].
  apply IH. by apply add_edge_shape.
Qed.

Lemma execution_graph_shape sts sts' :
  Forall2 same_wiring sts sts' ->
  same_shape (execution_graph sts) (execution_graph sts').
Proof.
  unfold execution_graph. generalize (same_shape_refl empty_graph).
  generalize empty_graph at 1 3. generalize empty_graph.
  intros G' G HG H. revert G G' HG.
  induction H as [|t t' sts sts' Ht _ IH]; intros G G' HG; cbn [foldl];
    [done|].
  apply IH. by apply add_subtask_shape.
Qed.

Lemma add_node_key n attr G : n ∈ dict_keys (g_node (add_node n attr G)).
Proof.
  unfold add_node. cbn [g_node]. rewrite dict_keys_set.
  destruct (decide _); [done|]. apply elem_of_app. right. left.
Qed.

Lemma add_subtask_keys G t x :
  x = id t \/ x ∈ dict_keys (g_node G) ->
  x ∈ dict_keys (g_node (add_subtask G t)).
Proof.
  intros Hx. unfold add_subtask.
  assert (x ∈ dict_keys (g_node (add_node (id t) [("time", estimated_time t)] G)))
    as H.
  { destruct Hx as [->|Hx]; [apply add_node_key|by apply add_node_keys]. }
  revert H. generalize (add_node (id t) [("time", estimated_time t)] G).
  induction (dependencies t) as [|dep deps IH]; intros G1 H1; cbn [foldl];
    [done|].
  apply IH. by apply add_edge_keys.
Qed.

Lemma execution_graph_keys sts t :
  t ∈ sts -> id t ∈ dict_keys (g_node (execution_graph sts)).
Proof.
  unfold execution_graph.
  assert (forall G, id t ∈ dict_keys (g_node G) \/ t ∈ sts ->
            id t ∈ dict_keys (g_node (foldl add_subtask G sts))) as H.
  { induction sts as [|t0 sts IH]; intros G [HG|Ht]; cbn [foldl];
      try done.
    - inversion Ht.
    - apply IH. left. apply add_subtask_keys. by right.
    - apply elem_of_cons in Ht as [->|Ht].
      + apply IH. left. apply add_subtask_keys. by left.
      + apply IH. by right. }
  intros Ht. apply H. by right.
Qed.

(** Whenever the networkx call returns, [_estimate_time] returns the same
    number for any other durations of the same subtasks: the durations do
    not enter the estimate. *)
Lemma estimate_time_blind_to_durations sts sts' deps deps' l :
  Forall2 same_wiring sts sts' ->
  sts <> [] ->
  dag_longest_path_length (execution_graph sts) "time" 1 = Some l ->
  _estimate_time sts deps = l /\ _estimate_time sts' deps' = l.
Proof.
  intros Hw Hne Hl.
  pose proof (shape_dag_longest_path_length _ _ (execution_graph_shape _ _ Hw)
                "time" 1) as Heq.
  pose proof (execution_graph_shape _ _ Hw) as [Hk _].
  assert (length (g_node (execution_graph sts)) =
          length (g_node (execution_graph sts'))) as Hlen.
  { pose proof (f_equal length Hk) as H. unfold dict_keys in H.
    by rewrite !length_map in H. }
  destruct Hw as [|t t' sts sts' Ht Hw]; [done|].
  assert ((0 <? length (g_node (execution_graph (t :: sts))))%nat = true)
    as Hpos.
  { pose proof (execution_graph_keys (t :: sts) t ltac:(left)) as Hin.
    unfold dict_keys in Hin.
    destruct (g_node (execution_graph (t :: sts))); [inversion Hin|done]. }
  unfold _estimate_time. rewrite <- Hlen, Hpos, <- Heq, Hl. done.
Qed.

(** ** Critical-path estimate *)

(** A graph without edges has only one-node paths. *)
Lemma graph_path_no_edges G p :
  g_edge G = [] -> graph_path G p -> exists v, p = [v] /\ v ∈ dict_keys (g_node G).
Proof.
  intros He Hp. destruct Hp as [v Hv|u v p Huv _]; [eauto|].
  rewrite He in Huv. inversion Huv.
Qed.

(** C1 at the task "Tune the slow query": one subtask of duration 0.152, the
    critical path of the graph weighs 0.152, and [_estimate_time] returns 0,
    the number of edges on the longest path. *)
Theorem estimate_time_ignores_durations :
  exists a,
    analysis_of single_role_text = Some a /\
    (total_estimated_time a ==
       _estimate_time (subtasks a) (dependency_map a))%Q /\
    (total_estimated_time a == 0)%Q /\
    is_critical_path_length (execution_graph (subtasks a)) (152 # 1000) /\
    ~ is_critical_path_length (execution_graph (subtasks a))
        (total_estimated_time a).
Proof.
  eexists. split; [by vm_compute|]. cbn [total_estimated_time subtasks dependency_map].
  split; [by vm_compute|]. split; [by vm_compute|].
  assert (forall p, graph_path (execution_graph
            [mkSubTask "subtask_1"
               "Design and optimize database schema for: Tune the slow query"
               "database-expert" DATABASE [] 2 (152 # 1000) []]) p ->
          p = ["subtask_1"]) as Hpaths.
  { intros p Hp. apply graph_path_no_edges in Hp as (v & -> & Hv); [|done].
    vm_compute in Hv. apply list_elem_of_singleton in Hv as ->. done. }
  split; [split|].
  - exists ["subtask_1"]. split; [|by vm_compute].
    apply path_single. vm_compute. left.
  - intros p Hp. apply Hpaths in Hp as ->. by vm_compute.
  - intros [(p & Hp & Heq) _]. apply Hpaths in Hp as ->. by vm_compute in Heq.
Qed.

(** C5 at the task "Create a REST API for user management": two subtasks in
    a chain with durations 0.444 and 0.37; [_estimate_time] returns 1, which
    exceeds the sum 0.814 of the durations. *)
Theorem estimate_time_exceeds_sum :
  exists a,
    analysis_of scenario_A_text = Some a /\
    (total_estimated_time a ==
       _estimate_time (subtasks a) (dependency_map a))%Q /\
    (total_estimated_time a == 1)%Q /\
    (sum_times (subtasks a) == 814 # 1000)%Q /\
    ~ (total_estimated_time a <= sum_times (subtasks a))%Q.
Proof.
  eexists. split; [by vm_compute|].
  cbn [total_estimated_time subtasks dependency_map].
  split; [by vm_compute|]. split; [by vm_compute|]. split; [by vm_compute|].
  by vm_compute.
Qed.

(** The estimate of an analysis without subtasks is 0. *)
Lemma estimate_time_no_subtasks deps : _estimate_time [] deps = 0%Q.
Proof. reflexivity. Qed.

(** The estimate of the empty task text is 1: two subtasks of duration 0
    joined by one edge. *)
Example empty_text_estimate :
  exists a,
    analysis_of "" = Some a /\
    (total_estimated_time a == 1)%Q /\
    (sum_times (subtasks a) == 0)%Q.
Proof. eexists. split; [by vm_compute|]. split; by vm_compute. Qed.

(** ** Scheduler: invariant of the run state *)

Lemma elem_of_dict_set {V : Type} (k k' : string) (v v' : V) d :
  (k', v') ∈ dict_set k v d -> (k', v') = (k, v) \/ (k', v') ∈ d.
Proof.
  induction d as [|[k0 v0] d IH]; cbn [dict_set].
  - intros H. apply list_elem_of_singleton in H. by left.
  - destruct (decide (k0 = k)) as [->|Hne]; intros H.
    + apply elem_of_cons in H as [H|H]; [by left|].
      right. by apply elem_of_cons; right.
    + apply elem_of_cons in H as [H|H].
      * right. rewrite H. by left.
      * destruct (IH H) as [?|?]; [by left|]. right. by right.
Qed.

Section SchedulerFacts.
Variable worker : SubTask -> TaskResult.
Variable sts : list SubTask.

Lemma sched_inv_initial : sched_inv worker sts (initial_state sts).
Proof.
  unfold sched_inv, initial_state; cbn.
  split; [by rewrite length_replicate|].
  split; [intros d Hd; by apply elem_of_empty in Hd|].
  assert (forall j, replicate (length sts) Waiting !! j <> Some Done) as Hw.
  { intros j Hj. by apply lookup_replicate in Hj as [? _]. }
  split; [intros j tj _ Hj; by apply Hw in Hj|].
  split.
  { intros j tj Hj Hph. exfalso. apply Hph.
    apply lookup_replicate. split; [done|]. by eapply lookup_lt_Some. }
  split; [intros k r Hk; inversion Hk|].
  intros _ j tj _ Hj. by apply Hw in Hj.
Qed.

Lemma dependencies_met_spec done t :
  dependencies_met done t = true <->
  forall d, d ∈ dependencies t -> d ∈ done.
Proof.
  unfold dependencies_met. rewrite forallb_forall. split.
  - intros H d Hd. apply list_elem_of_In in Hd. apply H in Hd.
    by apply bool_decide_eq_true in Hd.
  - intros H d Hd. apply bool_decide_eq_true, H. by apply list_elem_of_In.
Qed.

Lemma fire_preserves e s s' :
  sched_inv worker sts s -> fire worker sts e s = Some s' ->
  sched_inv worker sts s'.
Proof.
  intros (Hlen & Hcd & Hdc & Hdep & Hres & Hnd) Hf.
  destruct e as [i|i|i]; cbn [fire] in Hf;
    destruct (sts !! i) as [t|] eqn:Ht; try discriminate;
    cbn [mbind option_bind] in Hf;
    destruct (phases s !! i) as [ph|] eqn:Hph; try discriminate;
    cbn [mbind option_bind] in Hf.
  - (* Poll *)
    destruct (decide (ph = Waiting)); [|discriminate].
    destruct (dependencies_met _ _); [discriminate|].
    injection Hf as <-. by repeat split.
  - (* Start *)
    destruct (decide (ph = Waiting)) as [->|]; [|discriminate].
    destruct (dependencies_met _ _) eqn:Hmet; [|discriminate].
    injection Hf as <-. unfold sched_inv. cbn [phases results completed].
    assert (forall j x, j <> i \/ x <> Running ->
              <[i:=Running]> (phases s) !! j = Some x ->
              phases s !! j = Some x) as Hlk.
    { intros j x Hor Hj. destruct (decide (j = i)) as [->|Hne].
      - rewrite list_lookup_insert_eq in Hj by (by eapply lookup_lt_Some).
        injection Hj as <-. by destruct Hor.
      - by rewrite list_lookup_insert_ne in Hj. }
    repeat split.
    + by rewrite length_insert.
    + intros d Hd. destruct (Hcd d Hd) as (j & tj & Hj & Hid & Hdone).
      exists j, tj. repeat split; try done.
      rewrite list_lookup_insert_ne; [done|]. intros ->. congruence.
    + intros j tj Hj Hdone. apply (Hdc j tj Hj). apply Hlk; [|done]. by right.
    + intros j tj Hj Hnw d Hd. destruct (decide (j = i)) as [->|Hne].
      * assert (tj = t) as -> by congruence.
        by apply (proj1 (dependencies_met_spec _ _) Hmet).
      * rewrite list_lookup_insert_ne in Hnw by done. by eapply Hdep.
    + done.
    + intros Hnodup j tj Hj Hdone. apply (Hnd Hnodup j tj Hj).
      apply Hlk; [|done]. by right.
  - (* Finish *)
    destruct (decide (ph = Running)) as [->|]; [|discriminate].
    injection Hf as <-. unfold sched_inv. cbn [phases results completed].
    repeat split.
    + by rewrite length_insert.
    + intros d Hd. apply elem_of_union in Hd as [Hd|Hd].
      * apply elem_of_singleton in Hd as ->. exists i, t. repeat split; try done.
        apply list_lookup_insert_eq. by eapply lookup_lt_Some.
      * destruct (Hcd d Hd) as (j & tj & Hj & Hid & Hdone).
        exists j, tj. repeat split; try done.
        rewrite list_lookup_insert_ne; [done|]. intros ->. congruence.
    + intros j tj Hj Hdone. destruct (decide (j = i)) as [->|Hne].
      * assert (tj = t) as -> by congruence. set_solver.
      * rewrite list_lookup_insert_ne in Hdone by done.
        apply elem_of_union. right. by eapply Hdc.
    + intros j tj Hj Hnw d Hd. apply elem_of_union. right.
      destruct (decide (j = i)) as [->|Hne].
      * assert (tj = t) as -> by congruence.
        eapply (Hdep i t); [done| |done]. congruence.
      * rewrite list_lookup_insert_ne in Hnw by done. by eapply Hdep.
    + intros k r Hk. apply elem_of_dict_set in Hk as [[= -> ->]|Hk].
      * exists t. repeat split; try done. by eapply list_elem_of_lookup_2.
      * by apply Hres.
    + intros Hnodup j tj Hj Hdone. destruct (decide (j = i)) as [->|Hne].
      * assert (tj = t) as -> by congruence. apply dict_get_set_eq.
      * rewrite list_lookup_insert_ne in Hdone by done.
        rewrite dict_get_set_ne; [by apply (Hnd Hnodup j)|].
        intros Heq. apply Hne.
        apply (NoDup_lookup (id <$> sts) j i (id t) Hnodup).
        -- rewrite list_lookup_fmap, Hj. cbn. by rewrite Heq.
        -- by rewrite list_lookup_fmap, Ht.
Qed.

Lemma run_preserves schedule s s' :
  sched_inv worker sts s -> run worker sts schedule s = Some s' ->
  sched_inv worker sts s'.
Proof.
  revert s. induction schedule as [|e rest IH]; intros s Hinv; cbn [run].
  - intros [= <-]. done.
  - destruct (fire worker sts e s) as [s1|] eqn:Hf; [|discriminate].
    cbn [mbind option_bind]. apply IH. by eapply fire_preserves.
Qed.


End SchedulerFacts.

(** ** Runs of the scheduler *)

Lemma all_done_lookup s j :
  all_done s = true -> (j < length (phases s))%nat -> phases s !! j = Some Done.
Proof.
  unfold all_done. rewrite forallb_forall. intros Hall Hj.
  destruct (lookup_lt_is_Some_2 _ _ Hj) as [ph Hph].
  rewrite Hph. f_equal.
  apply list_elem_of_lookup_2, list_elem_of_In, Hall in Hph.
  by apply bool_decide_eq_true in Hph.
Qed.

(** A finished run holds, for every subtask, the result of its own worker
    call, whatever the results of its dependencies are. *)
Lemma execute_subtasks_results worker sts schedule res :
  _execute_subtasks worker sts schedule = Some res ->
  (NoDup (id <$> sts) ->
   forall i t, sts !! i = Some t -> dict_get (id t) res = Some (worker t)) /\
  (forall k r, (k, r) ∈ res ->
     exists t, t ∈ sts /\ r = worker t /\ k = id t).
Proof.
  unfold _execute_subtasks.
  destruct (run worker sts schedule (initial_state sts)) as [s|] eqn:Hrun;
    [|discriminate].
  cbn [mbind option_bind]. destruct (all_done s) eqn:Hdone; [|discriminate].
  intros [= <-].
  assert (sched_inv worker sts s) as (Hlen & _ & _ & _ & Hres & Hown).
  { eapply run_preserves; [apply sched_inv_initial|done]. }
  split; [|done].
  intros Hnd i t Hi. apply (Hown Hnd i t Hi).
  apply all_done_lookup; [done|]. rewrite Hlen. by eapply lookup_lt_Some.
Qed.

Lemma merge_results_all_successful res :
  all_successful (summary (_merge_results res)) = true <->
  forall k r, (k, r) ∈ res -> status r = "completed".
Proof.
  cbn. rewrite forallb_forall. split.
  - intros H k r Hin. apply list_elem_of_In, H in Hin.
    by apply bool_decide_eq_true in Hin.
  - intros H [k r] Hin. apply bool_decide_eq_true. cbn.
    apply (H k). by apply list_elem_of_In.
Qed.

(** With the engine's own worker every result is completed and the summary
    says so. *)
Lemma builtin_worker_all_successful sts schedule res :
  _execute_subtasks _execute_single_task sts schedule = Some res ->
  all_successful (summary (_merge_results res)) = true.
Proof.
  intros Hrun. apply merge_results_all_successful. intros k r Hin.
  apply execute_subtasks_results in Hrun as [_ Hres].
  by destruct (Hres k r Hin) as (t & _ & -> & _).
Qed.





(** A coroutine starts running only through its own [Start] event. *)
Lemma running_entered_by_start worker sts e s s' i :
  fire worker sts e s = Some s' ->
  phases s !! i <> Some Running -> phases s' !! i = Some Running ->
  e = Start i.
Proof.
  intros Hf Hbefore Hafter.
  destruct e as [k|k|k]; cbn [fire] in Hf;
    destruct (sts !! k) as [t|]; try discriminate;
    cbn [mbind option_bind] in Hf;
    destruct (phases s !! k) as [ph|] eqn:Hph; try discriminate;
    cbn [mbind option_bind] in Hf;
    destruct (decide _); try discriminate.
  - destruct (dependencies_met _ _); [discriminate|].
    injection Hf as <-. done.
  - destruct (dependencies_met _ _); [|discriminate].
    injection Hf as <-. cbn [phases] in Hafter.
    destruct (decide (k = i)) as [->|Hne]; [done|].
    by rewrite list_lookup_insert_ne in Hafter.
  - injection Hf as <-. cbn [phases] in Hafter.
    destruct (decide (k = i)) as [->|Hne].
    + rewrite list_lookup_insert_eq in Hafter by (by eapply lookup_lt_Some).
      discriminate.
    + by rewrite list_lookup_insert_ne in Hafter.
Qed.


(** ** Same-tier subtasks may overlap *)

Lemma insert_by_priority_sorted x l :
  StronglySorted tier_le l -> StronglySorted tier_le (insert_by_priority x l).
Proof.
  induction 1 as [|y l Hl IH Hy]; cbn [insert_by_priority].
  - repeat constructor.
  - destruct (priority x.2 <=? priority y.2) eqn:E.
    + apply Z.leb_le in E. constructor; [by constructor|].
      constructor; [done|].
      eapply Forall_impl; [exact Hy|]. unfold tier_le. intros z Hz. lia.
    + apply Z.leb_gt in E. constructor; [done|].
      rewrite insert_by_priority_Permutation. constructor; [|done].
      unfold tier_le. lia.
Qed.

Lemma sorted_by_priority_sorted sts :
  StronglySorted tier_le (sorted_by_priority sts).
Proof.
  unfold sorted_by_priority.
  induction (imap (fun i t => (i, t)) sts) as [|x l IH]; cbn [foldr].
  - constructor.
  - by apply insert_by_priority_sorted.
Qed.

Lemma StronglySorted_lookup_le {A} (R : relation A) l i j x y :
  StronglySorted R l -> (i < j)%nat -> l !! i = Some x -> l !! j = Some y -> R x y.
Proof.
  intros Hs. revert i j. induction Hs as [|z l Hs IH Hz]; intros i j Hij Hi Hj.
  - done.
  - destruct i as [|i], j as [|j]; try lia; cbn in Hi, Hj.
    + injection Hi as <-. rewrite Forall_forall in Hz.
      apply Hz. by eapply list_elem_of_lookup_2.
    + eapply (IH i j); [lia|done|done].
Qed.

Lemma sorted_by_priority_NoDup sts : NoDup (fst <$> sorted_by_priority sts).
Proof.
  rewrite sorted_by_priority_Permutation, fmap_imap.
  change (NoDup (imap (fun (j : nat) (_ : SubTask) => j) sts)).
  rewrite imap_seq_0, list_fmap_id. apply NoDup_seq.
Qed.

Lemma sorted_by_priority_lookup_inj sts m m' x x' :
  sorted_by_priority sts !! m = Some x ->
  sorted_by_priority sts !! m' = Some x' ->
  x.1 = x'.1 -> m = m'.
Proof.
  intros Hm Hm' Heq.
  apply (NoDup_lookup (fst <$> sorted_by_priority sts) m m' x.1).
  - apply sorted_by_priority_NoDup.
  - by rewrite list_lookup_fmap, Hm.
  - by rewrite list_lookup_fmap, Hm', Heq.
Qed.

Section Overlap.
Variable worker : SubTask -> TaskResult.
Variable sts : list SubTask.
Hypothesis Htiered : tiered sts.

Lemma run_app l1 l2 s :
  run worker sts (l1 ++ l2) s = run worker sts l1 s ≫= run worker sts l2.
Proof.
  revert s. induction l1 as [|e l1 IH]; intros s; cbn [run app]; [done|].
  destruct (fire worker sts e s) as [s'|]; cbn [mbind option_bind]; [apply IH|done].
Qed.

(** The dependencies of a task that sits no higher than everything from
    position [k] on are found before position [k] of the sorted list. *)
Lemma dependencies_in_prefix k t d :
  t ∈ sts ->
  (forall m x, (k <= m)%nat -> sorted_by_priority sts !! m = Some x ->
               priority t <= priority x.2) ->
  d ∈ dependencies t ->
  exists m x, (m < k)%nat /\ sorted_by_priority sts !! m = Some x /\ id x.2 = d.
Proof.
  intros Ht Hlow Hd.
  destruct (Htiered t d Ht Hd) as (s' & Hs' & Hid & Hlt).
  apply list_elem_of_lookup in Hs' as [j Hj].
  apply sorted_by_priority_elem, list_elem_of_lookup in Hj as [m Hm].
  exists m, (j, s'). split; [|done].
  destruct (decide (m < k)%nat) as [|Hge]; [done|].
  specialize (Hlow m (j, s') ltac:(lia) Hm). cbn in Hlow. lia.
Qed.

(** Running the first [k] subtasks of the sorted list one after the other. *)
Lemma serial_prefix_runs k :
  (k <= length (sorted_by_priority sts))%nat ->
  exists s,
    run worker sts (serial (fst <$> take k (sorted_by_priority sts)))
        (initial_state sts) = Some s /\
    length (phases s) = length sts /\
    (forall m x, (m < k)%nat -> sorted_by_priority sts !! m = Some x ->
       id x.2 ∈ completed s) /\
    (forall m x, (k <= m)%nat -> sorted_by_priority sts !! m = Some x ->
       phases s !! x.1 = Some Waiting).
Proof.
  induction k as [|k IH]; intros Hk.
  - exists (initial_state sts). split; [done|].
    split; [apply length_replicate|].
    split; [intros; lia|].
    intros m [r t] _ Hm. cbn.
    apply list_elem_of_lookup_2, sorted_by_priority_elem in Hm.
    apply lookup_replicate. split; [done|]. by eapply lookup_lt_Some.
  - destruct IH as (s & Hrun & Hlen & Hdone & Hwait); [lia|].
    destruct (lookup_lt_is_Some_2 (sorted_by_priority sts) k) as [[r t] Hcur];
      [lia|].
    pose proof Hcur as Hrt.
    apply list_elem_of_lookup_2, sorted_by_priority_elem in Hrt.
    rewrite (take_S_r _ _ _ Hcur), fmap_app. unfold serial.
    rewrite bind_app. fold (serial (fst <$> take k (sorted_by_priority sts))).
    rewrite run_app, Hrun. cbn [mbind option_bind fmap list_fmap mbind list_bind app run fire fst].
    rewrite Hrt. cbn [mbind option_bind].
    pose proof (Hwait k (r, t) ltac:(lia) Hcur) as Hw. cbn [fst] in Hw.
    rewrite Hw. cbn [mbind option_bind].
    rewrite decide_True by done.
    assert (dependencies_met (completed s) t = true) as ->.
    { apply dependencies_met_spec. intros d Hd.
      destruct (dependencies_in_prefix k t d) as (m & x & Hm & Hx & <-);
        [by eapply list_elem_of_lookup_2| |done|by eapply Hdone].
      intros m x Hm Hx. destruct (decide (m = k)) as [->|Hne].
      - assert (x = (r, t)) as -> by congruence. done.
      - apply (StronglySorted_lookup_le tier_le _ k m (r, t) x
                 (sorted_by_priority_sorted sts)); [lia|done|done]. }
    cbn [mbind option_bind phases results completed].
    rewrite list_lookup_insert_eq by (rewrite Hlen; by eapply lookup_lt_Some).
    cbn [mbind option_bind]. rewrite decide_True by done.
    eexists. split; [done|]. cbn [phases results completed].
    split; [by rewrite !length_insert|].
    split.
    + intros m x Hm Hx. destruct (decide (m = k)) as [->|Hne].
      * assert (x = (r, t)) as -> by congruence. set_solver.
      * apply elem_of_union. right. apply (Hdone m x); [lia|done].
    + intros m x Hm Hx.
      assert (r <> x.1) as Hne.
      { intros Heq.
        pose proof (sorted_by_priority_lookup_inj sts k m (r, t) x Hcur Hx Heq).
        lia. }
      rewrite !list_lookup_insert_ne by done. apply (Hwait m x); [lia|done].
Qed.


End Overlap.

(** ** Scheduling order *)



(** ** Metrics recorder: the update loop *)

Lemma py_div_nonzero (a b : Q) : ~ (b == 0)%Q -> py_div a b = Some (a / b)%Q.
Proof.
  intros Hb. unfold py_div. destruct (Qeq_bool b 0) eqn:E; [|done].
  by apply Qeq_bool_eq in E.
Qed.

Lemma inject_Z_nonzero (z : Z) : z <> 0 -> ~ (inject_Z z == 0)%Q.
Proof. intros Hz H. apply Hz. unfold Qeq in H. cbn in H. lia. Qed.

Lemma update_agent_metrics_spec exec_time n_agents all_ok pm agent :
  (0 < n_agents)%nat -> metrics_wf pm ->
  update_agent_metrics exec_time n_agents all_ok pm agent =
    Some (<[agent := updated_metrics exec_time n_agents all_ok
                       (default (mkAgentMetrics 0 0 0 0) (pm !! agent))]> pm).
Proof.
  intros Hn Hwf. unfold update_agent_metrics.
  assert (exists old,
    old = default (mkAgentMetrics 0 0 0 0) (pm !! agent) /\
    0 <= m_total_tasks old /\
    match pm !! agent with
    | Some _ => pm
    | None => <[agent:=mkAgentMetrics 0 0 0 0]> pm
    end !! agent = Some old /\
    <[agent := updated_metrics exec_time n_agents all_ok old]>
      match pm !! agent with
      | Some _ => pm
      | None => <[agent:=mkAgentMetrics 0 0 0 0]> pm
      end = <[agent := updated_metrics exec_time n_agents all_ok old]> pm)
    as (old & Hold & Hpos & Hlk & Hins).
  { destruct (pm !! agent) as [m|] eqn:E.
    - exists m. split; [reflexivity|]. split; [exact (Hwf agent m E)|]. by split.
    - exists (mkAgentMetrics 0 0 0 0). split; [reflexivity|].
      split; [reflexivity|].
      split; [by rewrite lookup_insert_eq|by rewrite insert_insert_eq]. }
  rewrite <- Hold. rewrite Hlk. cbn [mbind option_bind].
  rewrite (py_div_nonzero exec_time) by (apply inject_Z_nonzero; lia).
  cbn [mbind option_bind].
  destruct all_ok.
  - rewrite py_div_nonzero by (apply inject_Z_nonzero; lia).
    cbn [mbind option_bind]. f_equal. exact Hins.
  - cbn [mbind option_bind]. f_equal. exact Hins.
Qed.

Lemma updated_metrics_wf exec_time n_agents all_ok pm agent :
  metrics_wf pm ->
  metrics_wf (<[agent := updated_metrics exec_time n_agents all_ok
                           (default (mkAgentMetrics 0 0 0 0) (pm !! agent))]> pm).
Proof.
  intros Hwf a m. destruct (decide (agent = a)) as [->|Hne].
  - rewrite lookup_insert_eq. intros [= <-]. cbn.
    destruct (pm !! a) as [m|] eqn:E; cbn; [|lia].
    apply Hwf in E. lia.
  - rewrite lookup_insert_ne by done. apply Hwf.
Qed.


Lemma update_metrics_total exec_time n_agents all_ok ags pm :
  (length ags <= n_agents)%nat -> metrics_wf pm ->
  exists pm', update_metrics exec_time n_agents all_ok ags pm = Some pm' /\
              metrics_wf pm'.
Proof.
  revert pm. induction ags as [|a0 ags IH]; intros pm Hlen Hwf;
    cbn [update_metrics].
  - by exists pm.
  - cbn [length] in Hlen.
    rewrite update_agent_metrics_spec by (done || lia).
    cbn [mbind option_bind]. apply IH; [lia|].
    by apply updated_metrics_wf.
Qed.

Lemma accuracy_figure_spec (exec_time estimated : Q) :
  exists acc,
    accuracy_figure exec_time estimated = Some acc /\
    ((estimated <= 0)%Q -> acc = 1%Q) /\
    ((0 < estimated)%Q -> acc = (exec_time / estimated)%Q).
Proof.
  unfold accuracy_figure. destruct (Qlt_le_dec 0 estimated) as [Hpos|Hle].
  - rewrite py_div_nonzero.
    + eexists. split; [done|]. split; [|done].
      intros Hle. exfalso. by apply (Qlt_not_le _ _ Hpos).
    + intros H0. rewrite H0 in Hpos. by apply Qlt_irrefl in Hpos.
  - exists 1%Q. split; [done|]. split; [done|].
    intros Hpos. exfalso. by apply (Qlt_not_le _ _ Hpos).
Qed.

(** ** Recorded runs *)


(** [_record_execution] never raises on an engine whose counters are not
    negative, and keeps them so. *)
Lemma record_execution_total now eng analysis result exec_time :
  metrics_wf (performance_metrics eng) ->
  exists eng' acc,
    _record_execution now eng analysis result exec_time = Some eng' /\
    accuracy_figure exec_time (total_estimated_time analysis) = Some acc /\
    accuracy <$> execution_history eng' =
      (accuracy <$> execution_history eng) ++ [acc] /\
    metrics_wf (performance_metrics eng').
Proof.
  intros Hwf. unfold _record_execution.
  destruct (accuracy_figure_spec exec_time (total_estimated_time analysis))
    as (acc & Hacc & _).
  rewrite Hacc. cbn [mbind option_bind].
  destruct (update_metrics_total exec_time (length (required_agents analysis))
              (all_successful (summary result)) (required_agents analysis)
              (performance_metrics eng) ltac:(done) Hwf) as (pm' & -> & Hwf').
  cbn [mbind option_bind]. eexists _, acc. split; [done|]. split; [done|].
  cbn [execution_history performance_metrics]. split; [|done].
  by rewrite fmap_app.
Qed.





(** Through [execute_task] with the engine's own worker every recorded run
    is a successful one. *)
Lemma execute_task_builtin_successful now elapsed schedule eng analysis r eng' :
  execute_task _execute_single_task now elapsed schedule eng analysis
    = Some (r, eng') ->
  run_status r = "completed" /\
  all_successful (summary (run_results r)) = true.
Proof.
  unfold execute_task.
  destruct (_execute_subtasks _ _ _) as [res|] eqn:Hrun; [|discriminate].
  cbn [mbind option_bind].
  destruct (_record_execution _ _ _ _ _) as [e|]; [|discriminate].
  cbn [mbind option_bind]. intros [= <- <-]. cbn [run_status run_results].
  split; [done|]. by eapply builtin_worker_all_successful.
Qed.

(** ** Complete runs of the scheduler, and the aggregator *)

(** ** Complete runs *)

Section CompleteRuns.
Variable worker : SubTask -> TaskResult.
Variable sts : list SubTask.

Lemma fire_keeps_done e s s' i :
  fire worker sts e s = Some s' ->
  phases s !! i = Some Done -> phases s' !! i = Some Done.
Proof.
  intros Hf Hdone.
  destruct e as [k|k|k]; cbn [fire] in Hf;
    destruct (sts !! k) as [t|]; try discriminate;
    cbn [mbind option_bind] in Hf;
    destruct (phases s !! k) as [ph|] eqn:Hph; try discriminate;
    cbn [mbind option_bind] in Hf;
    destruct (decide _) as [->|]; try discriminate.
  - destruct (dependencies_met _ _); [discriminate|]. by injection Hf as <-.
  - destruct (dependencies_met _ _); [|discriminate].
    injection Hf as <-. cbn [phases].
    rewrite list_lookup_insert_ne; [done|]. intros ->. congruence.
  - injection Hf as <-. cbn [phases].
    rewrite list_lookup_insert_ne; [done|]. intros ->. congruence.
Qed.

Lemma run_keeps_done schedule s s' i :
  run worker sts schedule s = Some s' ->
  phases s !! i = Some Done -> phases s' !! i = Some Done.
Proof.
  revert s. induction schedule as [|e rest IH]; intros s; cbn [run].
  - by intros [= <-].
  - destruct (fire worker sts e s) as [s1|] eqn:Hf; [|discriminate].
    cbn [mbind option_bind]. intros Hrun Hdone.
    apply (IH s1 Hrun). by eapply fire_keeps_done.
Qed.

Lemma finish_sets_done s s' k :
  fire worker sts (Finish k) s = Some s' -> phases s' !! k = Some Done.
Proof.
  cbn [fire]. destruct (sts !! k) as [t|]; [|discriminate].
  cbn [mbind option_bind].
  destruct (phases s !! k) as [ph|] eqn:Hph; [|discriminate].
  cbn [mbind option_bind]. destruct (decide _); [|discriminate].
  intros [= <-]. cbn [phases].
  apply list_lookup_insert_eq. by eapply lookup_lt_Some.
Qed.

Lemma run_serial_done order s s' k :
  run worker sts (serial order) s = Some s' ->
  k ∈ order -> phases s' !! k = Some Done.
Proof.
  revert s. induction order as [|k0 order IH]; intros s Hrun Hk;
    [inversion Hk|].
  unfold serial in Hrun. rewrite bind_cons in Hrun. fold (serial order) in Hrun.
  cbn [app run] in Hrun.
  destruct (fire worker sts (Start k0) s) as [s1|]; [|discriminate].
  cbn [mbind option_bind] in Hrun.
  destruct (fire worker sts (Finish k0) s1) as [s2|] eqn:Hfin; [|discriminate].
  cbn [mbind option_bind] in Hrun.
  apply elem_of_cons in Hk as [->|Hk].
  - apply (run_keeps_done _ _ _ _ Hrun). by eapply finish_sets_done.
  - by apply (IH s2).
Qed.

Lemma all_done_intro s :
  (forall j, (j < length (phases s))%nat -> phases s !! j = Some Done) ->
  all_done s = true.
Proof.
  intros H. unfold all_done. apply forallb_forall. intros ph Hph.
  apply list_elem_of_In, list_elem_of_lookup in Hph as [j Hj].
  apply bool_decide_eq_true.
  pose proof (lookup_lt_Some _ _ _ Hj) as Hlt.
  rewrite (H j Hlt) in Hj. congruence.
Qed.

Lemma sorted_by_priority_indices i :
  (i < length sts)%nat -> i ∈ (fst <$> sorted_by_priority sts).
Proof.
  intros Hi. destruct (lookup_lt_is_Some_2 sts i Hi) as [t Ht].
  apply sorted_by_priority_elem in Ht.
  apply list_elem_of_fmap. by exists (i, t).
Qed.

Lemma sorted_by_priority_length : length (sorted_by_priority sts) = length sts.
Proof.
  rewrite (Permutation_length (sorted_by_priority_Permutation sts)).
  apply length_imap.
Qed.

End CompleteRuns.

Lemma dict_set_fresh {V : Type} (k : string) (v : V) d :
  k ∉ dict_keys d -> dict_set k v d = d ++ [(k, v)].
Proof.
  unfold dict_keys. induction d as [|[k' v'] d IH]; cbn [dict_set map fst app].
  - done.
  - intros Hk. apply not_elem_of_cons in Hk as [Hne Hk].
    rewrite decide_False by done. by rewrite IH.
Qed.

Lemma dict_keys_fmap {V : Type} (d : list (string * V)) :
  dict_keys d = fst <$> d.
Proof.
  unfold dict_keys. induction d as [|x d IH]; cbn; [done|]. by rewrite IH.
Qed.

Lemma dict_keys_lookup {V : Type} (d : list (string * V)) k :
  k ∈ dict_keys d <-> exists p v, d !! p = Some (k, v).
Proof.
  rewrite dict_keys_fmap, list_elem_of_fmap. split.
  - intros ([k' v] & -> & Hin). apply list_elem_of_lookup in Hin as [p Hp].
    eauto.
  - intros (p & v & Hp). exists (k, v). split; [done|].
    by eapply list_elem_of_lookup_2.
Qed.

Section ResultsOrder.
Variable worker : SubTask -> TaskResult.
Variable sts : list SubTask.

Lemma results_inv_initial : results_inv sts (initial_state sts).
Proof.
  unfold results_inv, initial_state. cbn [results completed].
  split; [constructor|]. split.
  - intros k. split; intros H; [inversion H|by apply elem_of_empty in H].
  - intros _ p k r t d Hp. by rewrite lookup_nil in Hp.
Qed.

Lemma lookup_subtask_by_id i j t t' :
  NoDup (id <$> sts) -> sts !! i = Some t -> sts !! j = Some t' ->
  id t = id t' -> i = j.
Proof.
  intros Hnd Hi Hj Heq.
  apply (NoDup_lookup (id <$> sts) i j (id t) Hnd).
  - by rewrite list_lookup_fmap, Hi.
  - by rewrite list_lookup_fmap, Hj, Heq.
Qed.

Lemma fire_results_inv e s s' :
  sched_inv worker sts s -> results_inv sts s ->
  fire worker sts e s = Some s' -> results_inv sts s'.
Proof.
  intros (Hlen & Hcd & Hdc & Hdep & _ & _) (Hnd & Hkeys & Hord) Hf.
  destruct e as [i|i|i]; cbn [fire] in Hf;
    destruct (sts !! i) as [t|] eqn:Ht; try discriminate;
    cbn [mbind option_bind] in Hf;
    destruct (phases s !! i) as [ph|] eqn:Hph; try discriminate;
    cbn [mbind option_bind] in Hf;
    destruct (decide _) as [->|]; try discriminate.
  - destruct (dependencies_met _ _); [discriminate|]. by injection Hf as <-.
  - destruct (dependencies_met _ _); [|discriminate]. by injection Hf as <-.
  - injection Hf as <-. unfold results_inv. cbn [results completed].
    split; [|split].
    + rewrite dict_keys_set. destruct (decide _); [done|].
      apply NoDup_app. split; [done|]. split; [|apply NoDup_singleton].
      intros x Hx Hx'. apply list_elem_of_singleton in Hx' as ->. done.
    + intros k. rewrite dict_keys_set, elem_of_union, elem_of_singleton.
      destruct (decide (id t ∈ dict_keys (results s))) as [Hin|Hnin].
      * rewrite Hkeys. split; [auto|]. intros [->|H]; [by apply Hkeys|done].
      * rewrite elem_of_app, list_elem_of_singleton, Hkeys. tauto.
    + intros Hids p k r t' d Hp Ht' Hid Hd.
      assert (id t ∉ dict_keys (results s)) as Hfresh.
      { intros Hin. apply Hkeys, Hcd in Hin as (j & tj & Hj & Hidj & Hdone).
        assert (j = i) as -> by (by eapply lookup_subtask_by_id).
        congruence. }
      rewrite dict_set_fresh in Hp |- * by done.
      destruct (decide (p < length (results s))%nat) as [Hlt|Hge].
      * rewrite lookup_app_l in Hp by done.
        destruct (Hord Hids p k r t' d Hp Ht' Hid Hd) as (q & r' & Hq & Hqr).
        exists q, r'. split; [done|]. rewrite lookup_app_l by lia. done.
      * rewrite lookup_app_r in Hp by lia.
        destruct (p - length (results s))%nat as [|m] eqn:E; [|by destruct m].
        cbn in Hp. injection Hp as <- <-.
        apply list_elem_of_lookup in Ht' as [j Hj].
        assert (j = i) as -> by (by eapply lookup_subtask_by_id).
        assert (t' = t) as -> by congruence.
        assert (d ∈ completed s) as Hc.
        { eapply (Hdep i t); [done| |done]. rewrite Hph. discriminate. }
        apply Hkeys, dict_keys_lookup in Hc as (q & r' & Hq).
        exists q, r'. split.
        -- apply lookup_lt_Some in Hq. lia.
        -- by rewrite lookup_app_l by (by eapply lookup_lt_Some).
Qed.

Lemma run_results_inv schedule s s' :
  sched_inv worker sts s -> results_inv sts s ->
  run worker sts schedule s = Some s' -> results_inv sts s'.
Proof.
  revert s. induction schedule as [|e rest IH]; intros s Hs Hr; cbn [run].
  - by intros [= <-].
  - destruct (fire worker sts e s) as [s1|] eqn:Hf; [|discriminate].
    cbn [mbind option_bind]. apply IH.
    + by eapply fire_preserves.
    + by eapply fire_results_inv.
Qed.

Lemma finished_run_state schedule res :
  _execute_subtasks worker sts schedule = Some res ->
  exists s, run worker sts schedule (initial_state sts) = Some s /\
            all_done s = true /\ results s = res /\
            sched_inv worker sts s /\ results_inv sts s.
Proof.
  unfold _execute_subtasks.
  destruct (run worker sts schedule (initial_state sts)) as [s|] eqn:Hrun;
    [|discriminate].
  cbn [mbind option_bind]. destruct (all_done s) eqn:Hdone; [|discriminate].
  intros [= <-]. exists s. split; [done|]. split; [done|]. split; [done|].
  split.
  - eapply run_preserves; [apply sched_inv_initial|done].
  - eapply run_results_inv; [apply sched_inv_initial|apply results_inv_initial|done].
Qed.

End ResultsOrder.
Lemma serial_run_completes
    (worker : SubTask -> TaskResult) (sts : list SubTask) :
  tiered sts ->
  exists res,
    _execute_subtasks worker sts (serial (fst <$> sorted_by_priority sts))
      = Some res.
Proof.
  intros Htier.
  destruct (serial_prefix_runs worker sts Htier (length (sorted_by_priority sts)))
    as (s & Hrun & Hlen & _); [done|].
  rewrite firstn_all in Hrun.
  unfold _execute_subtasks. rewrite Hrun. cbn [mbind option_bind].
  rewrite all_done_intro; [eauto|].
  intros j Hj. eapply run_serial_done; [exact Hrun|].
  apply sorted_by_priority_indices. by rewrite <- Hlen.
Qed.

(** X9: subtasks whose dependency edges climb the tiers can always be run
    to the end: executing them one after the other in priority order is a
    schedule on which the gather returns. *)
Theorem tiered_run_completes
    (worker : SubTask -> TaskResult) (sts : list SubTask) :
  tiered sts ->
  exists res,
    _execute_subtasks worker sts (serial (fst <$> sorted_by_priority sts))
      = Some res.
Proof. apply serial_run_completes. Qed.

(** ** The aggregator *)

Lemma merge_fold_snoc m res kv :
  foldl merge_one m (res ++ [kv]) = merge_one (foldl merge_one m res) kv.
Proof. by rewrite foldl_app. Qed.

Lemma merge_one_keys m kv :
  dict_keys (merge_one m kv).2 =
  if decide (res_agent_id kv.2 ∈ dict_keys m.2) then dict_keys m.2
  else dict_keys m.2 ++ [res_agent_id kv.2].
Proof.
  unfold merge_one. cbn [snd].
  rewrite !dict_keys_fmap, <- list_fmap_compose.
  destruct (decide _) as [Hin|Hnin].
  - rewrite bool_decide_eq_true_2 by done.
    apply list_fmap_ext. intros i g _. cbn. by destruct (decide _).
  - rewrite bool_decide_eq_false_2 by done.
    rewrite fmap_app. cbn [fmap list_fmap]. rewrite <- dict_keys_fmap. f_equal.
    + rewrite dict_keys_fmap. apply list_fmap_ext. intros i g _. cbn.
      by destruct (decide _).
    + cbn. by rewrite decide_True.
Qed.

Lemma filter_none {A : Type} (P : A -> Prop) `{forall x, Decision (P x)} l :
  Forall (fun x => ~ P x) l -> filter P l = [].
Proof.
  induction 1 as [|x l Hx _ IH]; [done|].
  by rewrite filter_cons_False.
Qed.

Lemma merge_fold_spec res :
  let m := foldl merge_one ([], []) res in
  m.1 = (fun kv => output kv.2) <$> res /\
  NoDup (dict_keys m.2) /\
  (forall a, a ∈ dict_keys m.2 <-> a ∈ (fun kv => res_agent_id kv.2) <$> res) /\
  (forall a l, (a, l) ∈ m.2 -> l = group_of a res).
Proof.
  induction res as [|kv res IH] using rev_ind.
  - cbn. split; [done|]. split; [constructor|]. split.
    + intros a. split; intros H; inversion H.
    + intros a l H. inversion H.
  - cbn zeta in IH |- *. rewrite merge_fold_snoc.
    destruct IH as (Hout & Hnd & Hkeys & Hgrp).
    set (m := foldl merge_one ([], []) res) in *.
    split; [|split; [|split]].
    + unfold merge_one. cbn [fst]. rewrite Hout, fmap_app. done.
    + rewrite merge_one_keys. destruct (decide _) as [Hin|Hnin]; [done|].
      apply NoDup_app. split; [done|]. split; [|apply NoDup_singleton].
      intros x Hx Hx'. apply list_elem_of_singleton in Hx' as ->. done.
    + intros a. rewrite merge_one_keys, fmap_app, elem_of_app.
      cbn [fmap list_fmap]. rewrite list_elem_of_singleton, <- Hkeys.
      destruct (decide _) as [Hin|Hnin].
      * split; [auto|]. intros [H| ->]; done.
      * by rewrite elem_of_app, list_elem_of_singleton.
    + intros a l Hal. unfold group_of. rewrite fmap_app, filter_app.
      cbn [fmap list_fmap].
      unfold merge_one in Hal. cbn [snd] in Hal.
      apply list_elem_of_fmap in Hal as ([a' l'] & Heq & Hg). cbn [fst snd] in Heq.
      assert ((a', l') ∈ m.2 \/
              (a', l') = (res_agent_id kv.2, []) /\
              res_agent_id kv.2 ∉ dict_keys m.2) as Hcases.
      { destruct (bool_decide _) eqn:Hb; [by left|].
        apply bool_decide_eq_false in Hb.
        apply elem_of_app in Hg as [Hg|Hg]; [by left|].
        apply list_elem_of_singleton in Hg. by right. }
      assert (l' = group_of a' res) as Hl'.
      { destruct Hcases as [Hin|[[= -> ->] Hnin]]; [by apply Hgrp|].
        unfold group_of. symmetry. apply filter_none.
        apply Forall_forall. intros r Hr Hra.
        apply Hnin, Hkeys. apply list_elem_of_fmap in Hr as (kv' & -> & Hkv').
        rewrite <- Hra. apply list_elem_of_fmap. by exists kv'. }
      destruct (decide (a' = res_agent_id kv.2)) as [Heqa|Hne].
      * injection Heq as -> ->. rewrite Hl'. unfold group_of.
        rewrite filter_cons_True by done. by rewrite Heqa.
      * injection Heq as -> ->. rewrite Hl'. unfold group_of.
        rewrite filter_cons_False by (intros ?; by apply Hne).
        by rewrite app_nil_r.
Qed.

Lemma dict_get_NoDup_elem {V : Type} (k : string) (v : V) d :
  NoDup (dict_keys d) -> (k, v) ∈ d -> dict_get k d = Some v.
Proof.
  unfold dict_keys. induction d as [|[k' v'] d IH]; intros Hnd Hin;
    [inversion Hin|].
  cbn [map fst] in Hnd. apply NoDup_cons in Hnd as [Hk' Hnd].
  cbn [dict_get]. apply elem_of_cons in Hin as [[= -> ->]|Hin].
  - by rewrite decide_True.
  - rewrite decide_False; [by apply IH|].
    intros ->. apply Hk'. change (k ∈ dict_keys d).
    rewrite dict_keys_fmap. apply list_elem_of_fmap. by exists (k, v).
Qed.

(** X14: the aggregator lists the outputs in the order of the results, and
    files every result under its role: the group of a role holds exactly
    the results of that role, in order, no role is listed twice and no
    group is empty. *)
Theorem merge_results_groups (res : list (string * TaskResult)) :
  combined_output (_merge_results res) = (fun kv => output kv.2) <$> res /\
  NoDup (dict_keys (by_agent (_merge_results res))) /\
  forall a l,
    dict_get a (by_agent (_merge_results res)) = Some l <->
    l = group_of a res /\ l <> [].
Proof.
  destruct (merge_fold_spec res) as (Hout & Hnd & Hkeys & Hgrp).
  unfold _merge_results. cbn [combined_output by_agent].
  split; [done|]. split; [done|].
  intros a l. split.
  - intros Hget. apply dict_get_Some_key in Hget as Hin.
    split; [by apply Hgrp|].
    assert (a ∈ dict_keys (foldl merge_one ([], []) res).2) as Ha.
    { rewrite dict_keys_fmap. apply list_elem_of_fmap. by exists (a, l). }
    apply Hkeys, list_elem_of_fmap in Ha as (kv & -> & Hkv).
    rewrite (Hgrp _ _ Hin). unfold group_of. intros Hnil.
    eapply (filter_nil_not_elem_of _ _ (kv.2) Hnil); [done|].
    apply list_elem_of_fmap. by exists kv.
  - intros [-> Hne].
    destruct (dict_get a (foldl merge_one ([], []) res).2) as [l'|] eqn:Hget.
    + apply dict_get_Some_key in Hget. by rewrite (Hgrp _ _ Hget).
    + exfalso. apply dict_get_None_keys in Hget. apply Hne.
      unfold group_of. apply filter_none, Forall_forall. intros r Hr Hra.
      apply Hget, Hkeys. apply list_elem_of_fmap in Hr as (kv & -> & Hkv).
      rewrite <- Hra. apply list_elem_of_fmap. by exists kv.
Qed.

Lemma merge_results_agent_keys res :
  dict_keys (by_agent (_merge_results res)) ≡ₚ
  remove_dups ((fun kv => res_agent_id kv.2) <$> res).
Proof.
  destruct (merge_fold_spec res) as (_ & Hnd & Hkeys & _).
  unfold _merge_results. cbn [by_agent].
  apply NoDup_Permutation; [done|apply NoDup_remove_dups|].
  intros a. by rewrite Hkeys, elem_of_remove_dups.
Qed.

Lemma merge_results_summary (res : list (string * TaskResult)) :
  let s := summary (_merge_results res) in
  total_tasks s = Z.of_nat (length res) /\
  agents_involved s =
    Z.of_nat (length (remove_dups ((fun kv => res_agent_id kv.2) <$> res))) /\
  agents_involved s <= total_tasks s /\
  (res <> [] -> 1 <= agents_involved s).
Proof.
  cbn zeta.
  pose proof (merge_results_agent_keys res) as Hperm.
  apply Permutation_length in Hperm. unfold dict_keys in Hperm.
  rewrite length_map in Hperm.
  assert (agents_involved (summary (_merge_results res)) =
          Z.of_nat (length (by_agent (_merge_results res)))) as -> by done.
  assert (total_tasks (summary (_merge_results res)) =
          Z.of_nat (length res)) as -> by done.
  rewrite Hperm. split; [done|]. split; [done|]. split.
  - apply inj_le.
    rewrite <- (length_fmap (fun kv : string * TaskResult => res_agent_id kv.2) res).
    apply submseteq_length, NoDup_submseteq; [apply NoDup_remove_dups|].
    intros x. by rewrite elem_of_remove_dups.
  - intros Hne. destruct res as [|kv res]; [done|].
    cbn [fmap list_fmap].
    assert (remove_dups (res_agent_id kv.2 ::
              ((fun kv : string * TaskResult => res_agent_id kv.2) <$> res)) <> [])
      as Hnil.
    { intros Hnil.
      assert (res_agent_id kv.2 ∈ remove_dups (res_agent_id kv.2 ::
              ((fun kv : string * TaskResult => res_agent_id kv.2) <$> res))) as Hin
        by (apply elem_of_remove_dups; left).
      rewrite Hnil in Hin. inversion Hin. }
    destruct (remove_dups _); [done|]. cbn [length]. lia.
Qed.

(** X15: the summary counts every result once and every role once, however
    many results the role has; there are never more roles than results. *)
Theorem merge_results_counts (res : list (string * TaskResult)) :
  let s := summary (_merge_results res) in
  total_tasks s = Z.of_nat (length res) /\
  agents_involved s =
    Z.of_nat (length (remove_dups ((fun kv => res_agent_id kv.2) <$> res))) /\
  agents_involved s <= total_tasks s /\
  (res <> [] -> 1 <= agents_involved s).
Proof. apply merge_results_summary. Qed.

(** ** Complete runs of the scheduler *)

Lemma results_NoDup worker sts schedule res :
  _execute_subtasks worker sts schedule = Some res -> NoDup res.
Proof.
  intros Hex.
  destruct (finished_run_state _ _ _ _ Hex) as (s & _ & _ & <- & _ & Hnd & _).
  rewrite dict_keys_fmap in Hnd. by eapply NoDup_fmap_1.
Qed.

Lemma results_keys worker sts schedule res :
  NoDup (id <$> sts) ->
  _execute_subtasks worker sts schedule = Some res ->
  dict_keys res ≡ₚ id <$> sts.
Proof.
  intros Hids Hex.
  destruct (execute_subtasks_results _ _ _ _ Hex) as [Hget Hmem].
  destruct (finished_run_state _ _ _ _ Hex) as (s & _ & _ & <- & _ & Hnd & _).
  apply NoDup_Permutation; [done|done|].
  intros k. rewrite dict_keys_fmap. split.
  - intros ([k' r] & -> & Hin)%list_elem_of_fmap.
    destruct (Hmem _ _ Hin) as (t & Ht & _ & ->).
    apply list_elem_of_fmap. by exists t.
  - intros (t & -> & Ht)%list_elem_of_fmap.
    apply list_elem_of_lookup in Ht as [i Hi].
    specialize (Hget Hids i t Hi). apply dict_get_Some_key in Hget.
    apply list_elem_of_fmap. by exists (id t, worker t).
Qed.

Lemma results_Permutation worker sts sch1 sch2 res1 res2 :
  NoDup (id <$> sts) ->
  _execute_subtasks worker sts sch1 = Some res1 ->
  _execute_subtasks worker sts sch2 = Some res2 ->
  res1 ≡ₚ res2.
Proof.
  intros Hids H1 H2.
  apply NoDup_Permutation; [by eapply results_NoDup|by eapply results_NoDup|].
  assert (forall scha schb resa resb,
            _execute_subtasks worker sts scha = Some resa ->
            _execute_subtasks worker sts schb = Some resb ->
            forall x, x ∈ resa -> x ∈ resb) as Hincl.
  { intros scha schb resa resb Ha Hb [k r] Hin.
    destruct (execute_subtasks_results _ _ _ _ Ha) as [_ Hmem].
    destruct (execute_subtasks_results _ _ _ _ Hb) as [Hget _].
    destruct (Hmem _ _ Hin) as (t & Ht & -> & ->).
    apply list_elem_of_lookup in Ht as [i Hi].
    by apply dict_get_Some_key, (Hget Hids i). }
  intros x. split; by eapply Hincl.
Qed.

(** X10: a run never returns when some subtask names a dependency that is
    no subtask of the run: its coroutine polls for ever, whatever the
    interleaving. *)
Theorem unknown_dependency_never_returns
    (worker : SubTask -> TaskResult) (sts : list SubTask)
    (t : SubTask) (d : string) (schedule : list Event) :
  t ∈ sts -> d ∈ dependencies t -> d ∉ (id <$> sts) ->
  _execute_subtasks worker sts schedule = None.
Proof.
  intros Ht Hd Hunknown.
  destruct (_execute_subtasks worker sts schedule) as [res|] eqn:Hex; [|done].
  exfalso.
  destruct (finished_run_state _ _ _ _ Hex)
    as (s & _ & Hdone & _ & (Hlen & Hcd & _ & Hdep & _) & _).
  apply list_elem_of_lookup in Ht as [i Hi].
  assert (phases s !! i = Some Done) as Hph.
  { apply all_done_lookup; [done|]. rewrite Hlen. by eapply lookup_lt_Some. }
  assert (d ∈ completed s) as Hc.
  { eapply (Hdep i t); [done| |done]. rewrite Hph. discriminate. }
  destruct (Hcd d Hc) as (j & tj & Hj & <- & _).
  apply Hunknown, list_elem_of_fmap. exists tj. split; [done|].
  by eapply list_elem_of_lookup_2.
Qed.

(** X11: when a run returns, the results dict lists every subtask after
    all of its dependencies. *)
Theorem results_follow_dependencies
    (worker : SubTask -> TaskResult) (sts : list SubTask)
    (schedule : list Event) (res : list (string * TaskResult))
    (p : nat) (t : SubTask) (r : TaskResult) (d : string) :
  NoDup (id <$> sts) ->
  _execute_subtasks worker sts schedule = Some res ->
  t ∈ sts -> d ∈ dependencies t ->
  res !! p = Some (id t, r) ->
  exists q r', (q < p)%nat /\ res !! q = Some (d, r').
Proof.
  intros Hids Hex Ht Hd Hp.
  destruct (finished_run_state _ _ _ _ Hex)
    as (s & _ & _ & <- & _ & _ & _ & Hord).
  by eapply (Hord Hids p (id t) r t d).
Qed.

(** X12: with distinct subtask ids, a run that returns has recorded one
    result per subtask, under the subtask's id and as the worker gave it. *)
Theorem one_result_per_subtask
    (worker : SubTask -> TaskResult) (sts : list SubTask)
    (schedule : list Event) (res : list (string * TaskResult)) :
  NoDup (id <$> sts) ->
  _execute_subtasks worker sts schedule = Some res ->
  res ≡ₚ (fun t => (id t, worker t)) <$> sts /\
  total_tasks (summary (_merge_results res)) = Z.of_nat (length sts).
Proof.
  intros Hids Hex.
  assert (res ≡ₚ (fun t => (id t, worker t)) <$> sts) as Hperm.
  { destruct (execute_subtasks_results _ _ _ _ Hex) as [Hget Hmem].
    apply NoDup_Permutation; [by eapply results_NoDup| |].
    - eapply (NoDup_fmap_1 fst). by rewrite <- list_fmap_compose.
    - intros [k r]. split.
      + intros Hin. destruct (Hmem _ _ Hin) as (t & Ht & -> & ->).
        apply list_elem_of_fmap. by exists t.
      + intros (t & [= -> ->] & Ht)%list_elem_of_fmap.
        apply list_elem_of_lookup in Ht as [i Hi].
        by apply dict_get_Some_key, (Hget Hids i). }
  split; [done|].
  change (Z.of_nat (length res) = Z.of_nat (length sts)).
  by rewrite (Permutation_length Hperm), length_fmap.
Qed.

(** X13: the interleaving does not change the outcome.  With distinct
    subtask ids, two runs of the same subtasks that both return give the
    same results up to the order of completion, and the same summary. *)
Theorem outcome_independent_of_schedule
    (worker : SubTask -> TaskResult) (sts : list SubTask)
    (sch1 sch2 : list Event) (res1 res2 : list (string * TaskResult)) :
  NoDup (id <$> sts) ->
  _execute_subtasks worker sts sch1 = Some res1 ->
  _execute_subtasks worker sts sch2 = Some res2 ->
  res1 ≡ₚ res2 /\
  (forall k, dict_get k res1 = dict_get k res2) /\
  summary (_merge_results res1) = summary (_merge_results res2).
Proof.
  intros Hids H1 H2.
  pose proof (results_Permutation _ _ _ _ _ _ Hids H1 H2) as Hperm.
  split; [done|]. split.
  - intros k.
    destruct (finished_run_state _ _ _ _ H1) as (s1 & _ & _ & <- & _ & Hnd1 & _).
    destruct (finished_run_state _ _ _ _ H2) as (s2 & _ & _ & <- & _ & Hnd2 & _).
    destruct (dict_get k (results s1)) as [r|] eqn:Hg1.
    + symmetry. apply dict_get_NoDup_elem; [done|].
      rewrite <- Hperm. by apply dict_get_Some_key.
    + destruct (dict_get k (results s2)) as [r|] eqn:Hg2; [|done].
      apply dict_get_Some_key in Hg2. rewrite <- Hperm in Hg2.
      apply (dict_get_NoDup_elem _ _ _ Hnd1) in Hg2. congruence.
  - destruct (merge_results_summary res1) as (Ht1 & Ha1 & _).
    destruct (merge_results_summary res2) as (Ht2 & Ha2 & _).
    cbn zeta in *.
    destruct (summary (_merge_results res1)) as [t1 a1 b1] eqn:E1.
    destruct (summary (_merge_results res2)) as [t2 a2 b2] eqn:E2.
    cbn [total_tasks agents_involved] in *.
    assert (b1 = b2) as ->.
    { pose proof (merge_results_all_successful res1) as Hb1.
      pose proof (merge_results_all_successful res2) as Hb2.
      rewrite E1 in Hb1. rewrite E2 in Hb2. cbn [all_successful] in Hb1, Hb2.
      assert (b1 = true <-> b2 = true) as Hiff.
      { rewrite Hb1, Hb2. split; intros H k r Hin; apply (H k r).
        - by rewrite Hperm.
        - by rewrite <- Hperm. }
      destruct b1, b2; try done; [symmetry; by apply Hiff|by apply Hiff]. }
    f_equal.
    + by rewrite Ht1, Ht2, (Permutation_length Hperm).
    + rewrite Ha1, Ha2. f_equal. apply Permutation_length.
      apply NoDup_Permutation; [apply NoDup_remove_dups..|].
      intros a. rewrite !elem_of_remove_dups, !list_elem_of_fmap.
      split; intros (kv & -> & Hkv); exists kv; split; try done.
      * by rewrite <- Hperm.
      * by rewrite Hperm.
Qed.

(** ** Engines reached by recording runs *)

Lemma metrics_ok_wf pm : metrics_ok pm -> metrics_wf pm.
Proof. intros H a m Ha. destruct (H a m Ha) as [? _]. lia. Qed.

Lemma inject_Z_pred (c : Z) : (inject_Z (c - 1) == inject_Z c - 1)%Q.
Proof.
  unfold Z.sub. rewrite inject_Z_plus. unfold Qminus. reflexivity.
Qed.

Lemma rolling_rate_bounds (r : Q) (c : Z) :
  1 <= c -> (0 <= r)%Q -> (r <= 1)%Q ->
  (0 <= (r * inject_Z (c - 1) + 1) / inject_Z c)%Q /\
  ((r * inject_Z (c - 1) + 1) / inject_Z c <= 1)%Q.
Proof.
  intros Hc H0 H1.
  assert (1 <= inject_Z c)%Q as Hq.
  { change 1%Q with (inject_Z 1). rewrite <- Zle_Qle. done. }
  rewrite inject_Z_pred. set (q := inject_Z c) in *. clearbody q.
  assert (0 <= r * (q - 1))%Q as Hp.
  { apply Qmult_le_0_compat; lra. }
  assert (r * (q - 1) <= 1 * (q - 1))%Q as Hp'.
  { apply Qmult_le_compat_r; lra. }
  split.
  - apply Qle_shift_div_l; lra.
  - apply Qle_shift_div_r; lra.
Qed.

Lemma updated_metrics_ok exec_time n_agents all_ok pm agent :
  metrics_ok pm ->
  metrics_ok (<[agent := updated_metrics exec_time n_agents all_ok
                           (default (mkAgentMetrics 0 0 0 0) (pm !! agent))]> pm).
Proof.
  intros Hok a m. destruct (decide (a = agent)) as [->|Hne].
  - rewrite lookup_insert_eq. intros [= <-].
    unfold updated_metrics. cbn [m_total_tasks success_rate avg_accuracy].
    destruct (pm !! agent) as [old|] eqn:Hold; cbn [from_option Datatypes.id].
    + destruct (Hok _ _ Hold) as (Hc & H0 & H1 & Hacc).
      split; [lia|]. destruct all_ok.
      * destruct (rolling_rate_bounds (success_rate old) (m_total_tasks old + 1))
          as [Ha Hb]; [lia|done|done|]. done.
      * done.
    + cbn [m_total_tasks success_rate avg_accuracy].
      split; [lia|]. destruct all_ok.
      * destruct (rolling_rate_bounds 0 (0 + 1)) as [Ha Hb]; [lia|lra|lra|].
        done.
      * repeat split; lra.
  - rewrite lookup_insert_ne by done. apply Hok.
Qed.

Lemma update_metrics_steps exec_time n_agents all_ok ags pm pm' :
  metrics_wf pm ->
  update_metrics exec_time n_agents all_ok ags pm = Some pm' ->
  ags = [] /\ pm' = pm \/
  exists a rest,
    ags = a :: rest /\ (0 < n_agents)%nat /\
    update_metrics exec_time n_agents all_ok rest
      (<[a := updated_metrics exec_time n_agents all_ok
                (default (mkAgentMetrics 0 0 0 0) (pm !! a))]> pm) = Some pm'.
Proof.
  intros Hwf. destruct ags as [|a rest]; cbn [update_metrics].
  - intros [= <-]. by left.
  - intros Hup. right. exists a, rest. split; [done|].
    destruct (decide (0 < n_agents)%nat) as [Hn|Hn].
    + split; [done|].
      by rewrite (update_agent_metrics_spec _ _ _ _ _ Hn Hwf) in Hup.
    + exfalso. assert (n_agents = 0%nat) as -> by lia.
      unfold update_agent_metrics in Hup.
      destruct (match pm !! a with
                | Some _ => pm
                | None => <[a:=mkAgentMetrics 0 0 0 0]> pm
                end !! a); cbn [mbind option_bind] in Hup; [|done].
      unfold py_div in Hup. cbn in Hup. done.
Qed.

Lemma update_metrics_ok exec_time n_agents all_ok ags pm pm' :
  metrics_ok pm ->
  update_metrics exec_time n_agents all_ok ags pm = Some pm' ->
  metrics_ok pm'.
Proof.
  revert pm. induction ags as [|a rest IH]; intros pm Hok Hup.
  - cbn in Hup. by injection Hup as <-.
  - destruct (update_metrics_steps _ _ _ _ _ _ (metrics_ok_wf _ Hok) Hup)
      as [[? _]|(a' & rest' & [= <- <-] & Hn & Hrest)]; [done|].
    eapply IH; [|exact Hrest]. by apply updated_metrics_ok.
Qed.

Lemma record_execution_inv now eng analysis result exec_time eng' :
  _record_execution now eng analysis result exec_time = Some eng' ->
  exists acc pm',
    accuracy_figure exec_time (total_estimated_time analysis) = Some acc /\
    update_metrics exec_time (length (required_agents analysis))
      (all_successful (summary result)) (required_agents analysis)
      (performance_metrics eng) = Some pm' /\
    performance_metrics eng' = pm' /\
    execution_history eng' =
      execution_history eng ++
      [mkExecutionRecord (task_id analysis) now
         (complexity_name (complexity analysis))
         (map domain_value (domains analysis))
         (required_agents analysis) exec_time
         (total_estimated_time analysis) acc (confidence analysis)
         (all_successful (summary result))].
Proof.
  unfold _record_execution.
  destruct (accuracy_figure _ _) as [acc|]; [|done]. cbn [mbind option_bind].
  destruct (update_metrics _ _ _ _ _) as [pm'|]; [|done].
  cbn [mbind option_bind]. intros [= <-]. by exists acc, pm'.
Qed.

Lemma recorded_metrics_ok eng :
  recorded eng -> metrics_ok (performance_metrics eng).
Proof.
  induction 1 as [|now eng analysis result exec_time eng' _ IH Hrec].
  - intros a m Ha. cbn in Ha. by rewrite lookup_empty in Ha.
  - destruct (record_execution_inv _ _ _ _ _ _ Hrec)
      as (acc & pm' & _ & Hup & -> & _).
    by eapply update_metrics_ok.
Qed.

(** X16: after any number of recorded runs, a role with metrics has taken
    part in at least one run, its success rate lies between 0 and 1, and
    its average accuracy is still the initial 0: no run ever updates it. *)
Theorem recorded_metrics_bounds (eng : Engine) (a : string) (m : AgentMetrics) :
  recorded eng ->
  performance_metrics eng !! a = Some m ->
  1 <= m_total_tasks m /\
  (0 <= success_rate m)%Q /\ (success_rate m <= 1)%Q /\
  avg_accuracy m = 0%Q.
Proof.
  intros Hrec Ha. by apply (recorded_metrics_ok eng Hrec a m).
Qed.

(** Counting *)

Lemma update_metrics_count exec_time n_agents all_ok ags pm pm' a :
  metrics_wf pm ->
  update_metrics exec_time n_agents all_ok ags pm = Some pm' ->
  m_total_tasks (default (mkAgentMetrics 0 0 0 0) (pm' !! a)) =
  m_total_tasks (default (mkAgentMetrics 0 0 0 0) (pm !! a))
  + Z.of_nat (length (filter (fun x => x = a) ags)) /\
  (is_Some (pm' !! a) <-> is_Some (pm !! a) \/ a ∈ ags).
Proof.
  revert pm. induction ags as [|a0 rest IH]; intros pm Hwf Hup.
  - cbn in Hup. injection Hup as <-. cbn. split; [lia|].
    split; [by left|]. intros [H|H]; [done|inversion H].
  - destruct (update_metrics_steps _ _ _ _ _ _ Hwf Hup)
      as [[? _]|(a' & rest' & [= <- <-] & Hn & Hrest)]; [done|].
    destruct (IH _ (updated_metrics_wf _ _ _ _ _ Hwf) Hrest) as [-> Hsome].
    split.
    + destruct (decide (a0 = a)) as [->|Hne].
      * rewrite lookup_insert_eq, filter_cons_True by done.
        cbn [from_option Datatypes.id updated_metrics m_total_tasks length]. lia.
      * rewrite lookup_insert_ne, filter_cons_False by done. done.
    + rewrite Hsome, elem_of_cons.
      destruct (decide (a0 = a)) as [->|Hne].
      * rewrite lookup_insert_eq. split; [intros _; by right; left|].
        intros _. left. by eexists.
      * rewrite lookup_insert_ne by done. split; intros [H|H]; auto.
        -- destruct H as [H|H]; [congruence|by right].
Qed.

(** X17: the task counter of a role is the number of times the records of
    the history list it, and a role has metrics exactly when some record
    lists it. *)
Theorem total_tasks_counts_records (eng : Engine) (a : string) :
  recorded eng ->
  m_total_tasks (default (mkAgentMetrics 0 0 0 0)
                         (performance_metrics eng !! a))
    = listed_in a (execution_history eng) /\
  (is_Some (performance_metrics eng !! a) <->
   0 < listed_in a (execution_history eng)).
Proof.
  induction 1 as [|now eng analysis result exec_time eng' Hreach IH Hrec].
  - cbn. rewrite lookup_empty. unfold listed_in. cbn. split; [done|].
    split; [intros [? ?]; done|lia].
  - destruct IH as [IHc IHs].
    destruct (record_execution_inv _ _ _ _ _ _ Hrec)
      as (acc & pm' & _ & Hup & -> & ->).
    pose proof (metrics_ok_wf _ (recorded_metrics_ok _ Hreach)) as Hwf.
    destruct (update_metrics_count _ _ _ _ _ _ a Hwf Hup) as [Hc Hs].
    assert (listed_in a
              (execution_history eng ++
               [mkExecutionRecord (task_id analysis) now
                  (complexity_name (complexity analysis))
                  (map domain_value (domains analysis))
                  (required_agents analysis) exec_time
                  (total_estimated_time analysis) acc (confidence analysis)
                  (all_successful (summary result))]) =
            listed_in a (execution_history eng)
            + Z.of_nat (length (filter (fun x => x = a)
                                       (required_agents analysis)))) as Hl.
    { unfold listed_in. rewrite bind_app, filter_app, length_app.
      cbn [mbind list_bind rec_agents]. rewrite app_nil_r. lia. }
    rewrite Hl, Hc, IHc. split; [done|].
    rewrite Hs, IHs.
    assert (a ∈ required_agents analysis <->
            0 < Z.of_nat (length (filter (fun x => x = a)
                                         (required_agents analysis)))) as ->.
    { split.
      - intros Hin.
        assert (a ∈ filter (fun x => x = a) (required_agents analysis)) as Hf
          by (by apply list_elem_of_filter).
        destruct (filter _ _); [inversion Hf|cbn [length]; lia].
      - intros Hpos.
        destruct (filter (fun x => x = a) (required_agents analysis))
          as [|x l] eqn:Hf; [cbn in Hpos; lia|].
        assert (x ∈ filter (fun x => x = a) (required_agents analysis)) as Hx
          by (rewrite Hf; left).
        apply list_elem_of_filter in Hx as [-> Hx]. done. }
    unfold listed_in. lia.
Qed.

Lemma rolling_rate_one (r : Q) (c : Z) :
  1 <= c -> (r == 1)%Q -> ((r * inject_Z (c - 1) + 1) / inject_Z c == 1)%Q.
Proof.
  intros Hc Hr. rewrite Hr, inject_Z_pred.
  assert (1 <= inject_Z c)%Q as Hq.
  { change 1%Q with (inject_Z 1). by rewrite <- Zle_Qle. }
  field. intros H0. rewrite H0 in Hq. by apply Hq.
Qed.

Lemma update_metrics_rate_one exec_time n_agents ags pm pm' :
  metrics_ok pm ->
  (forall a m, pm !! a = Some m -> (success_rate m == 1)%Q) ->
  update_metrics exec_time n_agents true ags pm = Some pm' ->
  forall a m, pm' !! a = Some m -> (success_rate m == 1)%Q.
Proof.
  revert pm. induction ags as [|a0 rest IH]; intros pm Hok Hone Hup.
  - cbn in Hup. by injection Hup as <-.
  - destruct (update_metrics_steps _ _ _ _ _ _ (metrics_ok_wf _ Hok) Hup)
      as [[? _]|(a' & rest' & [= <- <-] & Hn & Hrest)]; [done|].
    eapply IH; [|clear Hrest Hup IH|exact Hrest].
    + by apply updated_metrics_ok.
    + intros a m. destruct (decide (a = a0)) as [->|Hne].
      * rewrite lookup_insert_eq. intros [= <-].
        unfold updated_metrics. cbn [success_rate].
        destruct (pm !! a0) as [old|] eqn:Hold; cbn [from_option Datatypes.id].
        -- destruct (Hok _ _ Hold) as (Hc & _).
           apply rolling_rate_one; [lia|]. by apply (Hone a0).
        -- reflexivity.
      * rewrite lookup_insert_ne by done. apply Hone.
Qed.

Lemma update_metrics_rate_kept exec_time n_agents ags pm pm' :
  metrics_wf pm ->
  (forall a m, pm !! a = Some m -> (success_rate m == 0)%Q) ->
  update_metrics exec_time n_agents false ags pm = Some pm' ->
  forall a m, pm' !! a = Some m -> (success_rate m == 0)%Q.
Proof.
  revert pm. induction ags as [|a0 rest IH]; intros pm Hwf Hzero Hup.
  - cbn in Hup. by injection Hup as <-.
  - destruct (update_metrics_steps _ _ _ _ _ _ Hwf Hup)
      as [[? _]|(a' & rest' & [= <- <-] & Hn & Hrest)]; [done|].
    eapply IH; [|clear Hrest Hup IH|exact Hrest].
    + by apply updated_metrics_wf.
    + intros a m. destruct (decide (a = a0)) as [->|Hne].
      * rewrite lookup_insert_eq. intros [= <-].
        unfold updated_metrics. cbn [success_rate].
        destruct (pm !! a0) as [old|] eqn:Hold; cbn [from_option Datatypes.id].
        -- by apply (Hzero a0).
        -- reflexivity.
      * rewrite lookup_insert_ne by done. apply Hzero.
Qed.

(** X18: the success rate of a role is 1 as long as every recorded run
    succeeded, and 0 as long as every recorded run failed. *)
Theorem uniform_history_success_rate
    (eng : Engine) (outcome : bool) (a : string) (m : AgentMetrics) :
  recorded eng ->
  Forall (fun r => success r = outcome) (execution_history eng) ->
  performance_metrics eng !! a = Some m ->
  (success_rate m == if outcome then 1 else 0)%Q.
Proof.
  intros Hrec. revert a m.
  induction Hrec as [|now eng analysis result exec_time eng' Hreach IH Hrec];
    intros a m Hall Ha.
  - cbn in Ha. by rewrite lookup_empty in Ha.
  - destruct (record_execution_inv _ _ _ _ _ _ Hrec)
      as (acc & pm' & _ & Hup & Hpm & Hhist).
    rewrite Hhist in Hall. apply Forall_app in Hall as [Hall Hlast].
    rewrite Forall_singleton in Hlast. simpl in Hlast.
    rewrite Hlast in Hup. rewrite Hpm in Ha.
    specialize (fun a m => IH a m Hall).
    destruct outcome.
    + eapply update_metrics_rate_one; [|exact IH|exact Hup|exact Ha].
      by apply recorded_metrics_ok.
    + eapply update_metrics_rate_kept; [|exact IH|exact Hup|exact Ha].
      by apply metrics_ok_wf, recorded_metrics_ok.
Qed.



(** ** Stages of the execution plan *)

Lemma group_append_keys p x groups :
  fst <$> group_append p x groups =
  if decide (p ∈ fst <$> groups) then fst <$> groups
  else (fst <$> groups) ++ [p].
Proof.
  induction groups as [|[p' l] groups IH]; cbn [group_append fmap list_fmap fst].
  - by rewrite decide_False by (intros H; inversion H).
  - destruct (decide (p' = p)) as [->|Hne].
    + rewrite decide_True by left. done.
    + cbn [fmap list_fmap fst]. rewrite IH.
      destruct (decide (p ∈ fst <$> groups)) as [Hin|Hnin].
      * rewrite decide_True by (by right). done.
      * rewrite decide_False; [done|].
        intros [?|?]%elem_of_cons; congruence.
Qed.

Lemma group_get_append p q x groups :
  group_get q (group_append p x groups) =
  if decide (p = q) then group_get q groups ++ [x] else group_get q groups.
Proof.
  induction groups as [|[p' l] groups IH]; cbn [group_append group_get].
  - destruct (decide (p = q)); done.
  - destruct (decide (p' = p)) as [->|Hne]; cbn [group_get].
    + destruct (decide (p = q)); done.
    + rewrite IH. destruct (decide (p' = q)) as [->|]; [|done].
      by rewrite decide_False by done.
Qed.

Lemma priority_groups_spec sts :
  NoDup (fst <$> priority_groups sts) /\
  (forall p, p ∈ fst <$> priority_groups sts <-> p ∈ priority <$> sts) /\
  (forall p, group_get p (priority_groups sts) = tier_entries p sts).
Proof.
  unfold priority_groups.
  induction sts as [|t sts IH] using rev_ind.
  - cbn. split; [constructor|]. split; [done|]. done.
  - rewrite foldl_app. cbn [foldl].
    destruct IH as (Hnd & Hkeys & Hget).
    set (groups := foldl _ [] sts) in *.
    split; [|split].
    + rewrite group_append_keys. destruct (decide _); [done|].
      apply NoDup_app. split; [done|]. split; [|apply NoDup_singleton].
      intros x Hx Hx'. apply list_elem_of_singleton in Hx' as ->. done.
    + intros p. rewrite group_append_keys, fmap_app, elem_of_app.
      cbn [fmap list_fmap]. rewrite list_elem_of_singleton, <- Hkeys.
      destruct (decide _) as [Hin|Hnin].
      * split; [auto|]. intros [H| ->]; done.
      * by rewrite elem_of_app, list_elem_of_singleton.
    + intros p. rewrite group_get_append, Hget. unfold tier_entries.
      rewrite filter_app, fmap_app.
      destruct (decide (priority t = p)) as [Heq|Hne].
      * by rewrite filter_cons_True by done.
      * rewrite filter_cons_False by done. cbn. by rewrite app_nil_r.
Qed.

Lemma sorted_keys_lt (l : list Z) :
  NoDup l -> StronglySorted Z.lt (merge_sort Z.le l).
Proof.
  intros Hnd.
  assert (NoDup (merge_sort Z.le l)) as Hnd'
    by (by rewrite merge_sort_Permutation).
  pose proof (StronglySorted_merge_sort Z.le l) as Hs.
  induction Hs as [|x k Hs IH Hall]; [constructor|].
  apply NoDup_cons in Hnd' as [Hx Hnd'].
  constructor; [by apply IH|].
  apply Forall_forall. intros y Hy.
  rewrite Forall_forall in Hall. specialize (Hall y Hy).
  assert (x <> y) by (intros ->; done). lia.
Qed.

Lemma plan_stages_sorted (analysis : TaskAnalysis) :
  StronglySorted Z.lt (stage_priority <$> stages (get_execution_plan analysis)) /\
  forall p, p ∈ stage_priority <$> stages (get_execution_plan analysis) <->
            p ∈ priority <$> subtasks analysis.
Proof.
  unfold get_execution_plan. cbn [stages].
  rewrite <- list_fmap_compose.
  destruct (priority_groups_spec (subtasks analysis)) as (Hnd & Hkeys & _).
  assert ((stage_priority ∘ (fun p => mkStage p true
             (group_get p (priority_groups (subtasks analysis)))))
            <$> merge_sort Z.le (fst <$> priority_groups (subtasks analysis))
          = merge_sort Z.le (fst <$> priority_groups (subtasks analysis))) as ->.
  { rewrite <- (list_fmap_id (merge_sort _ _)) at 2. by apply list_fmap_ext. }
  split; [by apply sorted_keys_lt|].
  intros p. by rewrite merge_sort_Permutation.
Qed.

(** X21: the stages of a plan come in strictly increasing priority, one
    stage per priority that occurs among the subtasks. *)
Theorem plan_stages_increasing (analysis : TaskAnalysis) :
  StronglySorted Z.lt (stage_priority <$> stages (get_execution_plan analysis)) /\
  forall p, p ∈ stage_priority <$> stages (get_execution_plan analysis) <->
            p ∈ priority <$> subtasks analysis.
Proof. apply plan_stages_sorted. Qed.

Lemma plan_stage_contents (analysis : TaskAnalysis) (st : Stage) :
  st ∈ stages (get_execution_plan analysis) ->
  stage_tasks st = tier_entries (stage_priority st) (subtasks analysis) /\
  stage_tasks st <> [] /\
  parallel st = true.
Proof.
  unfold get_execution_plan. cbn [stages].
  destruct (priority_groups_spec (subtasks analysis)) as (_ & Hkeys & Hget).
  intros (p & -> & Hp)%list_elem_of_fmap.
  cbn [stage_tasks stage_priority parallel]. rewrite Hget.
  split; [done|]. split; [|done].
  rewrite merge_sort_Permutation in Hp.
  apply Hkeys, list_elem_of_fmap in Hp as (t & -> & Ht).
  unfold tier_entries. intros Hnil. apply fmap_nil_inv in Hnil.
  eapply (filter_nil_not_elem_of _ _ t Hnil); done.
Qed.

(** X22: a stage holds exactly the subtasks of its priority, in the order
    of the subtask list; it is never empty and always marked parallel. *)
Theorem plan_stage_tasks (analysis : TaskAnalysis) (st : Stage) :
  st ∈ stages (get_execution_plan analysis) ->
  stage_tasks st = tier_entries (stage_priority st) (subtasks analysis) /\
  stage_tasks st <> [] /\
  parallel st = true.
Proof. apply plan_stage_contents. Qed.

(** Position of priorities in the plan *)

Lemma plan_stage_lookup analysis i st :
  stages (get_execution_plan analysis) !! i = Some st ->
  (stage_priority <$> stages (get_execution_plan analysis)) !! i
    = Some (stage_priority st).
Proof. intros H. by rewrite list_lookup_fmap, H. Qed.

Lemma StronglySorted_lt_lookup (l : list Z) i j x y :
  StronglySorted Z.lt l -> l !! i = Some x -> l !! j = Some y ->
  x < y -> (i < j)%nat.
Proof.
  intros Hs Hi Hj Hxy.
  destruct (decide (i < j)%nat) as [|Hge]; [done|]. exfalso.
  destruct (decide (i = j)) as [->|Hne]; [rewrite Hi in Hj; injection Hj; lia|].
  assert (j < i)%nat as Hlt by lia.
  revert i j Hi Hj Hlt Hge Hne.
  induction Hs as [|z l Hs IH Hall]; intros i j Hi Hj Hlt _ _;
    [by rewrite lookup_nil in Hi|].
  destruct i as [|i]; [lia|]. cbn in Hi.
  destruct j as [|j].
  - cbn in Hj. injection Hj as ->.
    rewrite Forall_forall in Hall.
    pose proof (Hall x (list_elem_of_lookup_2 _ _ _ Hi)). lia.
  - cbn in Hj. destruct (decide (i = j)) as [->|]; [lia|].
    apply (IH i j); [done|done|lia|lia|done].
Qed.

(** X23: when dependency edges climb the tiers, every dependency of a task
    of the plan is a task of a strictly earlier stage. *)
Theorem plan_dependencies_in_earlier_stages
    (analysis : TaskAnalysis) (i : nat) (st : Stage) (x : PlanTask) (d : string) :
  tiered (subtasks analysis) ->
  stages (get_execution_plan analysis) !! i = Some st ->
  x ∈ stage_tasks st -> d ∈ pt_dependencies x ->
  exists j st' y,
    (j < i)%nat /\ stages (get_execution_plan analysis) !! j = Some st' /\
    y ∈ stage_tasks st' /\ pt_id y = d.
Proof.
  intros Htier Hi Hx Hd.
  destruct (plan_stages_sorted analysis) as [Hsorted Hprio].
  pose proof (list_elem_of_lookup_2 _ _ _ Hi) as Hst.
  destruct (plan_stage_contents analysis st Hst) as (Htasks & _).
  rewrite Htasks in Hx. unfold tier_entries in Hx.
  apply list_elem_of_fmap in Hx as (t & -> & Ht).
  apply list_elem_of_filter in Ht as [Hpt Ht].
  cbn [pt_dependencies plan_entry] in Hd.
  destruct (Htier t d Ht Hd) as (s & Hs & Hid & Hlt).
  assert (priority s ∈ stage_priority <$> stages (get_execution_plan analysis))
    as Hps.
  { apply Hprio, list_elem_of_fmap. by exists s. }
  apply list_elem_of_lookup in Hps as [j Hj].
  pose proof Hj as Hj'. rewrite list_lookup_fmap in Hj'.
  destruct (stages (get_execution_plan analysis) !! j) as [st'|] eqn:Hst';
    [|done].
  cbn in Hj'. injection Hj' as Hpj.
  exists j, st', (plan_entry s). split; [|split; [done|split; [|done]]].
  - eapply (StronglySorted_lt_lookup _ j i); [exact Hsorted|exact Hj| |].
    + by apply plan_stage_lookup.
    + lia.
  - destruct (plan_stage_contents analysis st'
                (list_elem_of_lookup_2 _ _ _ Hst')) as (-> & _).
    unfold tier_entries. apply list_elem_of_fmap. exists s. split; [done|].
    apply list_elem_of_filter. by split.
Qed.

(** ** Ranking of the recommendations *)

Lemma score_skill_fold task_lower sk acc :
  foldl (score_skill task_lower) acc sk =
  (acc.1 + 2 * Z.of_nat (length (filter (fun s => contains (replace_dash s) task_lower = true) sk)),
   acc.2 ++ ((fun s => "Expertise in " +:+ s) <$>
               filter (fun s => contains (replace_dash s) task_lower = true) sk)).
Proof.
  revert acc. induction sk as [|s sk IH]; intros [z rs]; cbn [foldl].
  - cbn. f_equal; [lia|by rewrite app_nil_r].
  - rewrite IH. unfold score_skill. cbn [fst snd].
    destruct (contains (replace_dash s) task_lower) eqn:Hc.
    + rewrite filter_cons_True by done. cbn [fst snd length fmap list_fmap].
      f_equal; [lia|]. by rewrite <- app_assoc.
    + rewrite filter_cons_False by (by rewrite Hc). done.
Qed.

Lemma score_domain_fold c doms acc :
  foldl (score_domain c) acc doms =
  (acc.1 + 3 * Z.of_nat (length (filter (fun d => d ∈ cap_domains c) doms)),
   acc.2 ++ ((fun d => "Specializes in " +:+ domain_value d) <$>
               filter (fun d => d ∈ cap_domains c) doms)).
Proof.
  revert acc. induction doms as [|d doms IH]; intros [z rs]; cbn [foldl].
  - cbn. f_equal; [lia|by rewrite app_nil_r].
  - rewrite IH. unfold score_domain. cbn [fst snd].
    destruct (decide (d ∈ cap_domains c)) as [Hin|Hnin].
    + rewrite bool_decide_eq_true_2, filter_cons_True by done.
      cbn [fst snd length fmap list_fmap].
      f_equal; [lia|]. by rewrite <- app_assoc.
    + rewrite bool_decide_eq_false_2, filter_cons_False by done. done.
Qed.

Lemma score_agent_spec (HD : HashOrder TaskDomain) task c :
  exists doms,
    _identify_domains task = Some doms /\ doms <> [] /\
    score_agent task c =
      Some (match_score task doms c,
            ((fun s => "Expertise in " +:+ s) <$> skill_hits task c) ++
            ((fun d => "Specializes in " +:+ domain_value d)
               <$> domain_hits doms c)).
Proof.
  destruct (identify_domains_order HD HD task) as (d1 & d2 & H1 & H2 & _ & Hne).
  exists d1. split; [done|]. split; [done|].
  unfold score_agent. rewrite H1. cbn [mbind option_bind].
  rewrite score_skill_fold, score_domain_fold. cbn [fst snd].
  unfold match_score, skill_hits, domain_hits. f_equal.
Qed.

Lemma insert_by_score_Permutation x l : insert_by_score x l ≡ₚ x :: l.
Proof.
  induction l as [|y l IH]; cbn [insert_by_score]; [done|].
  destruct (score y <=? score x); [done|].
  rewrite IH. apply perm_swap.
Qed.

Lemma sort_by_score_Permutation l : sort_by_score l ≡ₚ l.
Proof.
  unfold sort_by_score. induction l as [|x l IH]; cbn [foldr]; [done|].
  by rewrite insert_by_score_Permutation, IH.
Qed.

Lemma insert_by_score_sorted x l :
  StronglySorted score_ge l -> StronglySorted score_ge (insert_by_score x l).
Proof.
  induction 1 as [|y l Hs IH Hall]; cbn [insert_by_score].
  - repeat constructor.
  - destruct (score y <=? score x) eqn:Hle.
    + apply Z.leb_le in Hle. constructor; [by constructor|].
      constructor; [done|].
      eapply Forall_impl; [exact Hall|]. unfold score_ge. intros z Hz. lia.
    + apply Z.leb_gt in Hle. constructor; [done|].
      rewrite insert_by_score_Permutation. constructor; [|done].
      unfold score_ge. lia.
Qed.

Lemma sort_by_score_sorted l : StronglySorted score_ge (sort_by_score l).
Proof.
  unfold sort_by_score. induction l as [|x l IH]; cbn [foldr]; [constructor|].
  by apply insert_by_score_sorted.
Qed.

Lemma insert_by_score_stable (s : Z) x l :
  filter (fun r => score r = s) (insert_by_score x l) =
  filter (fun r => score r = s) (x :: l).
Proof.
  induction l as [|y l IH]; cbn [insert_by_score]; [done|].
  destruct (score y <=? score x) eqn:Hle; [done|].
  apply Z.leb_gt in Hle.
  destruct (decide (score x = s)) as [Hx|Hx].
  - rewrite (filter_cons_False _ y) by lia.
    rewrite IH, !(filter_cons_True _ x) by done.
    by rewrite (filter_cons_False _ y) by lia.
  - rewrite (filter_cons_False _ x) by done.
    rewrite !(filter_cons _ y), IH.
    by rewrite (filter_cons_False _ x) by done.
Qed.

Lemma sort_by_score_stable (s : Z) l :
  filter (fun r => score r = s) (sort_by_score l) =
  filter (fun r => score r = s) l.
Proof.
  unfold sort_by_score. induction l as [|x l IH]; cbn [foldr]; [done|].
  rewrite insert_by_score_stable, !filter_cons. by rewrite IH.
Qed.

Lemma collect_recommendations_spec (HD : HashOrder TaskDomain) task doms caps recs :
  _identify_domains task = Some doms ->
  collect_recommendations task caps recs =
  Some (recs ++ filter (fun r => 0 < score r) (candidate task doms <$> caps)).
Proof.
  intros Hd. revert recs.
  induction caps as [|[a c] caps IH]; intros recs; cbn [collect_recommendations].
  - by rewrite app_nil_r.
  - destruct (score_agent_spec HD task c) as (doms' & Hd' & _ & ->).
    assert (doms' = doms) as -> by congruence.
    cbn [mbind option_bind]. rewrite IH. cbn [fmap list_fmap].
    destruct (0 <? match_score task doms c) eqn:Hpos.
    + apply Z.ltb_lt in Hpos. rewrite filter_cons_True by done.
      by rewrite <- app_assoc.
    + apply Z.ltb_ge in Hpos. rewrite filter_cons_False; [done|].
      cbn. lia.
Qed.

Lemma get_agent_recommendations_spec (HD : HashOrder TaskDomain) task :
  exists doms,
    _identify_domains task = Some doms /\ doms <> [] /\
    get_agent_recommendations task =
      Some (take 5 (sort_by_score (candidates_of task doms))).
Proof.
  destruct (identify_domains_order HD HD task) as (d1 & d2 & H1 & H2 & _ & Hne).
  exists d1. split; [done|]. split; [done|].
  unfold get_agent_recommendations.
  by rewrite (collect_recommendations_spec HD task d1 _ _ H1).
Qed.

Lemma registry_keys_NoDup : NoDup (dict_keys AGENT_CAPABILITIES).
Proof. apply (bool_decide_unpack _). by vm_compute. Qed.

Lemma candidates_agents_sublist task doms :
  rcm_agent_id <$> candidates_of task doms `sublist_of`
  dict_keys AGENT_CAPABILITIES.
Proof.
  unfold candidates_of. rewrite dict_keys_fmap.
  assert (fst <$> AGENT_CAPABILITIES =
          rcm_agent_id <$> (candidate task doms <$> AGENT_CAPABILITIES)) as ->.
  { rewrite <- list_fmap_compose. by apply list_fmap_ext. }
  apply fmap_sublist, sublist_filter.
Qed.

(** X25: at most five recommendations are returned; they come in
    descending order of score, every score is positive, and they name
    distinct roles of the registry. *)
Theorem recommendations_ranked (HD : HashOrder TaskDomain) (task : string) :
  exists recs,
    get_agent_recommendations task = Some recs /\
    (length recs <= 5)%nat /\
    StronglySorted score_ge recs /\
    Forall (fun r => 0 < score r) recs /\
    NoDup (rcm_agent_id <$> recs) /\
    rcm_agent_id <$> recs ⊆ dict_keys AGENT_CAPABILITIES.
Proof.
  destruct (get_agent_recommendations_spec HD task) as (doms & _ & _ & ->).
  eexists. split; [done|].
  set (S := sort_by_score (candidates_of task doms)).
  assert (S ≡ₚ candidates_of task doms) as Hperm
    by apply sort_by_score_Permutation.
  split; [|split; [|split; [|split]]].
  - rewrite length_take. lia.
  - pose proof (sort_by_score_sorted (candidates_of task doms)) as Hs.
    fold S in Hs. rewrite <- (take_drop 5 S) in Hs.
    by apply StronglySorted_app_1_l in Hs.
  - apply Forall_forall. intros r Hr.
    apply (fun H => elem_of_sublist _ _ _ H (sublist_take S 5)) in Hr.
    rewrite Hperm in Hr. unfold candidates_of in Hr.
    by apply list_elem_of_filter in Hr as [? _].
  - eapply sublist_NoDup; [|apply fmap_sublist, sublist_take].
    rewrite Hperm.
    eapply sublist_NoDup; [apply registry_keys_NoDup|].
    apply candidates_agents_sublist.
  - intros a Ha.
    apply (fun H => elem_of_sublist _ _ _ H
                        (fmap_sublist rcm_agent_id _ _ (sublist_take S 5))) in Ha.
    rewrite Hperm in Ha.
    by apply (fun H => elem_of_sublist _ _ _ H
                           (candidates_agents_sublist task doms)).
Qed.

Lemma domain_covered (d : TaskDomain) :
  exists e, e ∈ AGENT_CAPABILITIES /\ d ∈ cap_domains e.2.
Proof.
  apply Exists_exists. apply (bool_decide_unpack _).
  destruct d; by vm_compute.
Qed.

Lemma match_score_domain task doms c d :
  d ∈ doms -> d ∈ cap_domains c -> 3 <= match_score task doms c.
Proof.
  intros Hd Hc. unfold match_score, domain_hits.
  assert (d ∈ filter (fun d => d ∈ cap_domains c) doms) as Hin
    by (by apply list_elem_of_filter).
  destruct (filter _ doms); [inversion Hin|]. cbn [length]. lia.
Qed.

Lemma sorted_head_max (l : list Recommendation) r :
  r ∈ sort_by_score l ->
  exists top rest, sort_by_score l = top :: rest /\ score r <= score top.
Proof.
  intros Hr. pose proof (sort_by_score_sorted l) as Hs.
  destruct (sort_by_score l) as [|top rest]; [inversion Hr|].
  exists top, rest. split; [done|].
  apply StronglySorted_inv in Hs as [_ Hall].
  apply elem_of_cons in Hr as [->|Hr]; [done|].
  rewrite Forall_forall in Hall. by apply Hall.
Qed.

(** X26: some role is always recommended: the first recommendation
    scores at least 3, the weight of one matching domain. *)
Theorem recommendations_nonempty (HD : HashOrder TaskDomain) (task : string) :
  exists top rest,
    get_agent_recommendations task = Some (top :: rest) /\ 3 <= score top.
Proof.
  destruct (get_agent_recommendations_spec HD task) as (doms & _ & Hne & ->).
  destruct doms as [|d doms]; [done|].
  destruct (domain_covered d) as (e & He & Hd).
  pose proof (match_score_domain task (d :: doms) e.2 d ltac:(left) Hd) as H3.
  assert (candidate task (d :: doms) e ∈
          sort_by_score (candidates_of task (d :: doms))) as Hin.
  { rewrite sort_by_score_Permutation. unfold candidates_of.
    apply list_elem_of_filter. split; [cbn; lia|].
    apply list_elem_of_fmap. by exists e. }
  destruct (sorted_head_max _ _ Hin) as (top & rest & -> & Hle).
  exists top, (take 4 rest). split; [done|].
  cbn [candidate score] in Hle. lia.
Qed.

(** X27: the five returned are the best: a role of the registry with a
    positive score is returned, unless five roles that score at least as
    much are. *)
Theorem recommendations_are_the_best
    (HD : HashOrder TaskDomain) (task : string) :
  exists doms recs,
    _identify_domains task = Some doms /\
    get_agent_recommendations task = Some recs /\
    forall a c,
      (a, c) ∈ AGENT_CAPABILITIES -> 0 < match_score task doms c ->
      (exists r, r ∈ recs /\ rcm_agent_id r = a /\
                 score r = match_score task doms c) \/
      (length recs = 5%nat /\
       Forall (fun r => match_score task doms c <= score r) recs).
Proof.
  destruct (get_agent_recommendations_spec HD task) as (doms & Hd & _ & ->).
  exists doms. eexists. split; [done|]. split; [done|].
  intros a c Hac Hpos.
  set (S := sort_by_score (candidates_of task doms)).
  assert (candidate task doms (a, c) ∈ S) as Hin.
  { unfold S. rewrite sort_by_score_Permutation. unfold candidates_of.
    apply list_elem_of_filter. split; [done|].
    apply list_elem_of_fmap. by exists (a, c). }
  pose proof (sort_by_score_sorted (candidates_of task doms)) as Hs.
  fold S in Hs. rewrite <- (take_drop 5 S) in Hin, Hs.
  apply elem_of_app in Hin as [Hin|Hin].
  - left. by exists (candidate task doms (a, c)).
  - right. split.
    + apply length_take_le.
      destruct (decide (5 <= length S)%nat) as [|Hlt]; [done|].
      rewrite drop_ge in Hin by lia. inversion Hin.
    + apply Forall_forall. intros r Hr.
      by apply (StronglySorted_app_1_elem_of _ _ _ r _ Hs Hr Hin).
Qed.

Lemma score_confidence_bounds (s : Z) :
  0 < s ->
  (0 < score_confidence s)%Q /\ (score_confidence s <= 1)%Q /\
  (score_confidence s == if 10 <=? s then 1 else inject_Z s / 10)%Q.
Proof.
  intros Hs. unfold score_confidence.
  assert (0 < inject_Z s)%Q as Hq.
  { change 0%Q with (inject_Z 0). by rewrite <- Zlt_Qlt. }
  assert (10 <= s -> (10 <= inject_Z s)%Q) as Hge.
  { intros H. change 10%Q with (inject_Z 10). by rewrite <- Zle_Qle. }
  assert (s < 10 -> (inject_Z s < 10)%Q) as Hlt.
  { intros H. change 10%Q with (inject_Z 10). by rewrite <- Zlt_Qlt. }
  assert (inject_Z s == inject_Z s / 10 * 10)%Q as Hdiv by field.
  set (x := inject_Z s) in *. clearbody x.
  set (y := (x / 10)%Q) in *. clearbody y.
  destruct (Qlt_le_dec 1 y) as [Hgt|Hle].
  - split; [lra|]. split; [lra|].
    destruct (10 <=? s) eqn:H10; [reflexivity|].
    apply Z.leb_gt in H10. specialize (Hlt H10). lra.
  - split; [lra|]. split; [done|].
    destruct (10 <=? s) eqn:H10; [|reflexivity].
    apply Z.leb_le in H10. specialize (Hge H10). lra.
Qed.

(** X28: every recommendation is accounted for by its reasons: the score
    is 2 for each matching skill plus 3 for each matching domain of the
    role, there is one reason per match, and the confidence is a tenth of
    the score, capped at 1. *)
Theorem recommendation_justified
    (HD : HashOrder TaskDomain) (task : string) :
  exists doms recs,
    _identify_domains task = Some doms /\
    get_agent_recommendations task = Some recs /\
    forall r, r ∈ recs ->
      exists c,
        (rcm_agent_id r, c) ∈ AGENT_CAPABILITIES /\
        score r = 2 * Z.of_nat (length (skill_hits task c))
                  + 3 * Z.of_nat (length (domain_hits doms c)) /\
        reasons r =
          ((fun s => "Expertise in " +:+ s) <$> skill_hits task c) ++
          ((fun d => "Specializes in " +:+ domain_value d)
             <$> domain_hits doms c) /\
        reasons r <> [] /\
        (0 < rcm_confidence r)%Q /\ (rcm_confidence r <= 1)%Q /\
        (rcm_confidence r ==
           if 10 <=? score r then 1 else inject_Z (score r) / 10)%Q.
Proof.
  destruct (get_agent_recommendations_spec HD task) as (doms & Hd & _ & ->).
  exists doms. eexists. split; [done|]. split; [done|].
  intros r Hr.
  apply (fun H => elem_of_sublist _ _ _ H (sublist_take _ 5)) in Hr.
  rewrite sort_by_score_Permutation in Hr. unfold candidates_of in Hr.
  apply list_elem_of_filter in Hr as [Hpos Hr].
  apply list_elem_of_fmap in Hr as ([a c] & -> & Hac).
  exists c. cbn [candidate rcm_agent_id score reasons rcm_confidence fst snd]
    in *.
  split; [done|]. split; [done|]. split; [done|].
  split.
  - intros Hnil. apply app_eq_nil in Hnil as [H1 H2].
    apply fmap_nil_inv in H1. apply fmap_nil_inv in H2.
    unfold match_score in Hpos. rewrite H1, H2 in Hpos. cbn in Hpos. lia.
  - by apply score_confidence_bounds.
Qed.

Lemma sublist_filter_mono {A : Type} (P : A -> Prop) `{forall x, Decision (P x)}
    (l1 l2 : list A) :
  l1 `sublist_of` l2 -> filter P l1 `sublist_of` filter P l2.
Proof.
  induction 1 as [|x l1 l2 _ IH|x l1 l2 _ IH].
  - done.
  - rewrite !filter_cons. destruct (decide (P x)); [by constructor|done].
  - rewrite filter_cons. destruct (decide (P x)); [by constructor|done].
Qed.

(** X29: ties are broken by the registry: recommendations of equal score
    are listed in the order in which the registry declares their roles. *)
Theorem recommendations_ties_in_registry_order
    (HD : HashOrder TaskDomain) (task : string) :
  exists recs,
    get_agent_recommendations task = Some recs /\
    forall s,
      rcm_agent_id <$> filter (fun r => score r = s) recs
        `sublist_of` dict_keys AGENT_CAPABILITIES.
Proof.
  destruct (get_agent_recommendations_spec HD task) as (doms & _ & _ & ->).
  eexists. split; [done|]. intros s.
  etrans; [|apply (candidates_agents_sublist task doms)].
  apply fmap_sublist.
  etrans; [apply sublist_filter_mono, sublist_take|].
  rewrite sort_by_score_stable. apply sublist_filter.
Qed.

Lemma insert_by_score_same_rank x x' l l' :
  same_rank x x' -> Forall2 same_rank l l' ->
  Forall2 same_rank (insert_by_score x l) (insert_by_score x' l').
Proof.
  intros Hx. induction 1 as [|y y' l l' Hy Hl IH]; cbn [insert_by_score].
  - constructor; [done|constructor].
  - pose proof Hx as (Ha & Hs & Hc). pose proof Hy as (Ha' & Hs' & Hc').
    rewrite <- Hs, <- Hs'. destruct (score y <=? score x).
    + constructor; [done|]. by constructor.
    + constructor; [done|]. apply IH.
Qed.

Lemma sort_by_score_same_rank l l' :
  Forall2 same_rank l l' ->
  Forall2 same_rank (sort_by_score l) (sort_by_score l').
Proof.
  unfold sort_by_score. induction 1 as [|x x' l l' Hx Hl IH]; cbn [foldr].
  - constructor.
  - by apply insert_by_score_same_rank.
Qed.

Lemma match_score_Permutation task doms doms' c :
  doms ≡ₚ doms' -> match_score task doms c = match_score task doms' c.
Proof.
  intros Hp. unfold match_score, domain_hits. by rewrite Hp.
Qed.

Lemma candidates_same_rank task doms doms' :
  doms ≡ₚ doms' ->
  Forall2 same_rank (candidates_of task doms) (candidates_of task doms').
Proof.
  intros Hp. unfold candidates_of.
  induction AGENT_CAPABILITIES as [|e caps IH]; cbn [fmap list_fmap].
  - constructor.
  - rewrite !filter_cons. cbn [candidate score].
    rewrite (match_score_Permutation task doms doms' e.2 Hp).
    destruct (decide _); [|done].
    constructor; [|done]. unfold same_rank.
    cbn [candidate rcm_agent_id score rcm_confidence].
    by rewrite (match_score_Permutation task doms doms' e.2 Hp).
Qed.

(** X30: the iteration order of the set of domains does not change the
    ranking: the same roles are recommended in the same order, with the
    same scores and confidences. *)
Theorem recommendations_order_independent
    (HD1 HD2 : HashOrder TaskDomain) (task : string) :
  exists recs1 recs2,
    @get_agent_recommendations HD1 task = Some recs1 /\
    @get_agent_recommendations HD2 task = Some recs2 /\
    (fun r => (rcm_agent_id r, score r, rcm_confidence r)) <$> recs1 =
    (fun r => (rcm_agent_id r, score r, rcm_confidence r)) <$> recs2.
Proof.
  destruct (identify_domains_order HD1 HD2 task)
    as (d1 & d2 & H1 & H2 & Hperm & _).
  destruct (get_agent_recommendations_spec HD1 task) as (d1' & H1' & _ & ->).
  destruct (get_agent_recommendations_spec HD2 task) as (d2' & H2' & _ & ->).
  assert (d1' = d1) as -> by congruence.
  assert (d2' = d2) as -> by congruence.
  eexists _, _. split; [done|]. split; [done|].
  assert (Forall2 same_rank
            (take 5 (sort_by_score (candidates_of task d1)))
            (take 5 (sort_by_score (candidates_of task d2)))) as HF.
  { by apply Forall2_take, sort_by_score_same_rank, candidates_same_rank. }
  induction HF as [|x x' l l' (Ha & Hs & Hc) _ IH]; [done|].
  cbn [fmap list_fmap]. by rewrite Ha, Hs, Hc, IH.
Qed.

(** ** The wiring loop in closed form *)

Lemma insert_by_priority_stable x l :
  Forall (fun y => (x.1 < y.1)%nat) l ->
  StronglySorted tier_then_position l ->
  StronglySorted tier_then_position (insert_by_priority x l).
Proof.
  intros Hpos Hs. induction Hs as [|y l Hs IH Hall]; cbn [insert_by_priority].
  - repeat constructor.
  - apply Forall_cons in Hpos as [Hxy Hpos].
    destruct (priority x.2 <=? priority y.2) eqn:Hle.
    + apply Z.leb_le in Hle. constructor; [by constructor|].
      constructor.
      * unfold tier_then_position. lia.
      * rewrite Forall_forall in Hall, Hpos |- *. intros z Hz.
        specialize (Hall z Hz). specialize (Hpos z Hz).
        unfold tier_then_position in *. lia.
    + apply Z.leb_gt in Hle. constructor; [by apply IH|].
      rewrite insert_by_priority_Permutation. constructor; [|done].
      unfold tier_then_position. lia.
Qed.

Lemma imap_positions (sts : list SubTask) (k : nat) :
  Forall (fun y : nat * SubTask => (k <= y.1)%nat)
         (imap (fun i t => (k + i, t)%nat) sts).
Proof.
  apply Forall_forall. intros y Hy.
  apply elem_of_lookup_imap in Hy as (i & t & -> & _). cbn. lia.
Qed.

Lemma sorted_from_stable (sts : list SubTask) (k : nat) :
  StronglySorted tier_then_position
    (foldr insert_by_priority [] (imap (fun i t => (k + i, t)%nat) sts)).
Proof.
  revert k. induction sts as [|t sts IH]; intros k; cbn [imap foldr].
  - constructor.
  - assert (imap ((fun i t => (k + i, t)%nat) ∘ S) sts =
            imap (fun i t => (S k + i, t)%nat) sts) as Heq.
    { apply imap_ext. intros i x _. cbn. f_equal. lia. }
    rewrite Heq. apply insert_by_priority_stable; [|apply IH].
    assert (foldr insert_by_priority []
              (imap (fun i t => (S k + i, t)%nat) sts) ≡ₚ
            imap (fun i t => (S k + i, t)%nat) sts) as Hp.
    { clear. induction (imap _ sts) as [|x l IH']; cbn [foldr]; [done|].
      by rewrite insert_by_priority_Permutation, IH'. }
    rewrite Hp. eapply Forall_impl; [apply imap_positions|].
    cbn. intros y Hy. lia.
Qed.

Lemma sorted_by_priority_stable sts :
  StronglySorted tier_then_position (sorted_by_priority sts).
Proof. apply (sorted_from_stable sts 0). Qed.

Lemma insert_by_priority_filter (p : Z) x l :
  filter (fun y : nat * SubTask => priority y.2 = p) (insert_by_priority x l) =
  filter (fun y : nat * SubTask => priority y.2 = p) (x :: l).
Proof.
  induction l as [|y l IH]; cbn [insert_by_priority]; [done|].
  destruct (priority x.2 <=? priority y.2) eqn:Hle; [done|].
  apply Z.leb_gt in Hle.
  destruct (decide (priority x.2 = p)) as [Hx|Hx].
  - rewrite (filter_cons_False _ y) by lia.
    rewrite IH, !(filter_cons_True _ x) by done.
    by rewrite (filter_cons_False _ y) by lia.
  - rewrite (filter_cons_False _ x) by done.
    rewrite !(filter_cons _ y), IH.
    by rewrite (filter_cons_False _ x) by done.
Qed.

Lemma sorted_from_filter (p : Z) sts (g : nat -> SubTask -> nat * SubTask) :
  (forall i t, (g i t).2 = t) ->
  snd <$> filter (fun y : nat * SubTask => priority y.2 = p)
                 (foldr insert_by_priority [] (imap g sts)) =
  filter (fun s => priority s = p) sts.
Proof.
  revert g. induction sts as [|t sts IH]; intros g Hg; cbn [imap foldr];
    [done|].
  rewrite insert_by_priority_filter, !filter_cons, Hg.
  destruct (decide (priority t = p)).
  - cbn [fmap list_fmap]. rewrite Hg. f_equal. apply IH.
    intros i t'. apply Hg.
  - apply IH. intros i t'. apply Hg.
Qed.

Lemma sorted_by_priority_filter (p : Z) sts :
  snd <$> filter (fun y : nat * SubTask => priority y.2 = p)
                 (sorted_by_priority sts) =
  filter (fun s => priority s = p) sts.
Proof. by apply sorted_from_filter. Qed.

(** The store after the first [k] steps of the loop. *)
Lemma wire_step_lookup sts store i r :
  wire_step (sorted_by_priority sts) store i !! r =
  match sorted_by_priority sts !! i with
  | Some (r', _) =>
      if decide (r' = r) then
        if boundary (sorted_by_priority sts) i
        then set_dependencies
               (boundary_dependencies (sorted_by_priority sts) i) <$> store !! r
        else store !! r
      else store !! r
  | None => store !! r
  end.
Proof.
  unfold wire_step, boundary, boundary_dependencies.
  destruct i as [|i'].
  - destruct (sorted_by_priority sts !! 0%nat) as [[r' t]|]; [|done].
    by destruct (decide _).
  - cbn [pred].
    destruct (sorted_by_priority sts !! S i') as [[r' task]|] eqn:Hcur; [|done].
    destruct (sorted_by_priority sts !! i') as [[r0 prev]|] eqn:Hprev.
    + destruct (priority prev <? priority task).
      * destruct (decide (r' = r)) as [Heq|Hne].
        -- subst r'. by rewrite list_lookup_alter_eq.
        -- by rewrite list_lookup_alter_ne.
      * by destruct (decide _).
    + by destruct (decide _).
Qed.

Lemma wire_steps_lookup sts k i r t :
  sorted_by_priority sts !! i = Some (r, t) ->
  foldl (wire_step (sorted_by_priority sts)) sts (seq 0 k) !! r =
  Some (if bool_decide (i < k)%nat && boundary (sorted_by_priority sts) i
        then set_dependencies
               (boundary_dependencies (sorted_by_priority sts) i) t
        else t).
Proof.
  intros Hi. induction k as [|k IH].
  - cbn [seq foldl]. rewrite bool_decide_eq_false_2 by lia. cbn [andb].
    by apply list_elem_of_lookup_2, sorted_by_priority_elem in Hi.
  - rewrite seq_S, foldl_app. cbn [foldl plus]. rewrite wire_step_lookup.
    destruct (sorted_by_priority sts !! k) as [[r' t']|] eqn:Hk.
    + destruct (decide (r' = r)) as [Heq|Hne].
      * subst r'.
        assert (k = i) as -> by (by eapply sorted_by_priority_lookup_inj).
        rewrite IH, bool_decide_eq_false_2 by lia.
        rewrite bool_decide_eq_true_2 by lia. cbn [andb].
        by destruct (boundary _ _).
      * rewrite IH. f_equal.
        assert (k <> i) by (intros ->; rewrite Hi in Hk; congruence).
        destruct (decide (i < k)%nat).
        -- by rewrite !bool_decide_eq_true_2 by lia.
        -- by rewrite !bool_decide_eq_false_2 by lia.
    + rewrite IH. f_equal.
      assert (i < k)%nat.
      { apply lookup_lt_Some in Hi. apply lookup_ge_None in Hk. lia. }
      by rewrite !bool_decide_eq_true_2 by lia.
Qed.

Lemma sorted_position sts r t :
  sts !! r = Some t -> exists i, sorted_by_priority sts !! i = Some (r, t).
Proof.
  intros Hr. apply sorted_by_priority_elem in Hr.
  by apply list_elem_of_lookup in Hr.
Qed.

Lemma establish_dependencies_lookup sts i r t :
  sorted_by_priority sts !! i = Some (r, t) ->
  _establish_dependencies sts !! r =
  Some (if boundary (sorted_by_priority sts) i
        then set_dependencies
               (boundary_dependencies (sorted_by_priority sts) i) t
        else t).
Proof.
  intros Hi. unfold _establish_dependencies. cbv zeta.
  rewrite (wire_steps_lookup sts _ i r t Hi).
  by rewrite bool_decide_eq_true_2 by (by eapply lookup_lt_Some).
Qed.

Lemma set_dependencies_same t : set_dependencies (dependencies t) t = t.
Proof. by destruct t. Qed.

(** Positions in the sorted list against positions in the subtask list. *)
Lemma sorted_positions_order sts i k x y :
  sorted_by_priority sts !! i = Some x ->
  sorted_by_priority sts !! k = Some y ->
  tier_then_position x y -> (i < k)%nat.
Proof.
  intros Hi Hk Hxy.
  destruct (decide (i < k)%nat) as [|Hge]; [done|]. exfalso.
  destruct (decide (i = k)) as [->|Hne].
  - rewrite Hi in Hk. injection Hk as <-. unfold tier_then_position in Hxy. lia.
  - pose proof (StronglySorted_lookup_le _ _ k i y x
                  (sorted_by_priority_stable sts) ltac:(lia) Hk Hi) as Hyx.
    unfold tier_then_position in *. lia.
Qed.

Lemma boundary_spec sts i r t :
  sorted_by_priority sts !! i = Some (r, t) ->
  boundary (sorted_by_priority sts) i = true ->
  exists i' r0 prev,
    i = S i' /\ sorted_by_priority sts !! i' = Some (r0, prev) /\
    priority prev < priority t.
Proof.
  intros Hi. unfold boundary. destruct i as [|i']; [done|]. rewrite Hi.
  destruct (sorted_by_priority sts !! i') as [[r0 prev]|] eqn:Hprev; [|done].
  intros Hlt%Z.ltb_lt. by exists i', r0, prev.
Qed.

Lemma boundary_first_in_tier sts i r t :
  sorted_by_priority sts !! i = Some (r, t) ->
  boundary (sorted_by_priority sts) i = true ->
  first_in_tier sts r.
Proof.
  intros Hi Hb.
  destruct (boundary_spec _ _ _ _ Hi Hb) as (i' & r0 & prev & -> & Hprev & Hlt).
  intros j s t0 Hj Hs Ht0 Heq.
  assert (t0 = t) as ->.
  { apply list_elem_of_lookup_2, sorted_by_priority_elem in Hi. congruence. }
  destruct (sorted_position sts j s Hs) as [k Hk].
  assert (k < S i')%nat as Hlt'.
  { eapply (sorted_positions_order sts k (S i')); [exact Hk|exact Hi|].
    right. cbn. split; [done|lia]. }
  destruct (decide (k = i')) as [->|Hne].
  - rewrite Hprev in Hk. injection Hk as -> ->. lia.
  - pose proof (StronglySorted_lookup_le _ _ k i' _ _
                  (sorted_by_priority_sorted sts) ltac:(lia) Hk Hprev) as Hle.
    unfold tier_le in Hle. cbn in Hle. lia.
Qed.

Lemma boundary_tier_just_below sts i r t :
  sorted_by_priority sts !! i = Some (r, t) ->
  boundary (sorted_by_priority sts) i = true ->
  exists r0 prev,
    sorted_by_priority sts !! pred i = Some (r0, prev) /\
    tier_just_below sts (priority t) (priority prev).
Proof.
  intros Hi Hb.
  destruct (boundary_spec _ _ _ _ Hi Hb) as (i' & r0 & prev & -> & Hprev & Hlt).
  exists r0, prev. split; [done|]. split; [done|]. split.
  - exists prev. split; [|done].
    apply list_elem_of_lookup_2, sorted_by_priority_elem in Hprev.
    by eapply list_elem_of_lookup_2.
  - intros s Hs Hlts. apply list_elem_of_lookup in Hs as [j Hj].
    destruct (sorted_position sts j s Hj) as [k Hk].
    assert (k < S i')%nat as Hlt'.
    { eapply (sorted_positions_order sts k (S i')); [exact Hk|exact Hi|].
      left. cbn. lia. }
    destruct (decide (k = i')) as [->|Hne].
    + rewrite Hprev in Hk. injection Hk as -> ->. lia.
    + pose proof (StronglySorted_lookup_le _ _ k i' _ _
                    (sorted_by_priority_sorted sts) ltac:(lia) Hk Hprev) as Hle.
      unfold tier_le in Hle. cbn in Hle. lia.
Qed.

Lemma boundary_dependencies_spec sts i r t r0 prev :
  sorted_by_priority sts !! i = Some (r, t) ->
  sorted_by_priority sts !! pred i = Some (r0, prev) ->
  priority prev < priority t ->
  boundary_dependencies (sorted_by_priority sts) i =
  tier_ids sts (priority prev).
Proof.
  intros Hi Hprev Hlt. unfold boundary_dependencies, tier_ids. rewrite Hprev.
  rewrite <- (sorted_by_priority_filter (priority prev) sts).
  rewrite <- list_fmap_compose.
  rewrite <- (take_drop i (sorted_by_priority sts)) at 2.
  rewrite filter_app.
  assert (filter (fun y : nat * SubTask => priority y.2 = priority prev)
                 (drop i (sorted_by_priority sts)) = []) as ->.
  { apply filter_none, Forall_forall. intros [j s] Hs Heq. cbn in Heq.
    apply list_elem_of_lookup in Hs as [k Hk]. rewrite lookup_drop in Hk.
    destruct k as [|k].
    - rewrite Nat.add_0_r, Hi in Hk. injection Hk as -> ->. lia.
    - pose proof (StronglySorted_lookup_le _ _ i (i + S k) _ _
                    (sorted_by_priority_sorted sts) ltac:(lia) Hi Hk) as Hle.
      unfold tier_le in Hle. cbn in Hle. lia. }
  by rewrite app_nil_r.
Qed.

Lemma not_boundary_spec sts i r t :
  sorted_by_priority sts !! i = Some (r, t) ->
  boundary (sorted_by_priority sts) i = false ->
  ~ first_in_tier sts r \/ forall s, s ∈ sts -> priority t <= priority s.
Proof.
  intros Hi Hb. unfold boundary in Hb. destruct i as [|i'].
  - right. intros s Hs. apply list_elem_of_lookup in Hs as [j Hj].
    destruct (sorted_position sts j s Hj) as [k Hk].
    destruct k as [|k]; [rewrite Hi in Hk; by injection Hk as _ ->|].
    pose proof (StronglySorted_lookup_le _ _ 0%nat (S k) _ _
                  (sorted_by_priority_sorted sts) ltac:(lia) Hi Hk) as Hle.
    by unfold tier_le in Hle.
  - rewrite Hi in Hb.
    destruct (sorted_by_priority sts !! i') as [[r0 prev]|] eqn:Hprev.
    + apply Z.ltb_ge in Hb. left. intros Hfirst.
      pose proof (StronglySorted_lookup_le _ _ i' (S i') _ _
                    (sorted_by_priority_stable sts) ltac:(lia) Hprev Hi) as Hlex.
      unfold tier_then_position in Hlex. cbn in Hlex.
      destruct Hlex as [Hlt|[Heq Hpos]]; [lia|].
      apply list_elem_of_lookup_2, sorted_by_priority_elem in Hprev.
      apply list_elem_of_lookup_2, sorted_by_priority_elem in Hi.
      by apply (Hfirst r0 prev t Hpos Hprev Hi).
    + apply lookup_ge_None in Hprev. apply lookup_lt_Some in Hi. lia.
Qed.

(** X5: what the wiring loop leaves in a subtask.  Only the dependency
    list can change.  The first subtask of every tier but the lowest
    receives the ids of all subtasks of the tier just below, in the order
    of the list; every other subtask keeps the dependencies it had. *)
Theorem establish_dependencies_closed_form
    (sts : list SubTask) (r : nat) (t t' : SubTask) :
  sts !! r = Some t ->
  _establish_dependencies sts !! r = Some t' ->
  t' = set_dependencies (dependencies t') t /\
  ((exists p, first_in_tier sts r /\ tier_just_below sts (priority t) p /\
              dependencies t' = tier_ids sts p) \/
   ((~ first_in_tier sts r \/ forall s, s ∈ sts -> priority t <= priority s) /\
    dependencies t' = dependencies t)).
Proof.
  intros Hr Hr'. destruct (sorted_position sts r t Hr) as [i Hi].
  rewrite (establish_dependencies_lookup sts i r t Hi) in Hr'.
  injection Hr' as <-.
  destruct (boundary (sorted_by_priority sts) i) eqn:Hb.
  - split; [done|]. left.
    destruct (boundary_tier_just_below _ _ _ _ Hi Hb)
      as (r0 & prev & Hprev & Hbelow).
    exists (priority prev). split; [by eapply boundary_first_in_tier|].
    split; [done|]. cbn [set_dependencies dependencies].
    eapply boundary_dependencies_spec; [done|done|]. by destruct Hbelow.
  - split; [by rewrite set_dependencies_same|]. right.
    split; [|done]. by eapply not_boundary_spec.
Qed.

(** ** Confidence *)

(** X8: the confidence of an analysis lies between 0.612 and 1: the
    three penalties multiply to 0.612 at worst, and the bonus for a
    recognised pattern never lifts the result above 1. *)
Theorem confidence_bounds
    (task : string) (doms : list TaskDomain) (ags : list string) :
  (612 # 1000 <= _calculate_confidence task doms ags)%Q /\
  (_calculate_confidence task doms ags <= 1)%Q.
Proof.
  unfold _calculate_confidence. cbv zeta.
  destruct (String.length task <? 20)%nat, (3 <? length doms)%nat,
           (5 <? length ags)%nat, (existsb _ TASK_PATTERNS);
    destruct (Qlt_le_dec _ 1) as [Hlt|Hle]; split;
    first [ exact (Qlt_le_weak _ _ Hlt) | by vm_compute ].
Qed.

(** ** Dependency map *)

Lemma analyze_dependencies_snoc sts t :
  _analyze_dependencies (sts ++ [t]) =
  dict_set (id t) (dependencies t) (_analyze_dependencies sts).
Proof. unfold _analyze_dependencies. by rewrite foldl_app. Qed.

Lemma analyze_dependencies_keys sts :
  NoDup (id <$> sts) -> dict_keys (_analyze_dependencies sts) = id <$> sts.
Proof.
  induction sts as [|t sts IH] using rev_ind; intros Hnd; [done|].
  rewrite fmap_app in Hnd. apply NoDup_app in Hnd as (Hnd & Hfresh & _).
  rewrite analyze_dependencies_snoc, dict_keys_set, IH by done.
  rewrite decide_False; [by rewrite fmap_app|].
  intros Hin. apply (Hfresh _ Hin). cbn. left.
Qed.

Lemma analyze_dependencies_lookup sts t :
  NoDup (id <$> sts) -> t ∈ sts ->
  dict_get (id t) (_analyze_dependencies sts) = Some (dependencies t).
Proof.
  induction sts as [|t0 sts IH] using rev_ind; intros Hnd Ht;
    [inversion Ht|].
  rewrite fmap_app in Hnd. apply NoDup_app in Hnd as (Hnd & Hfresh & _).
  rewrite analyze_dependencies_snoc.
  apply elem_of_app in Ht as [Ht|Ht].
  - rewrite dict_get_set_ne; [by apply IH|].
    intros Heq. apply (Hfresh (id t)).
    + apply list_elem_of_fmap. by exists t.
    + cbn. rewrite Heq. left.
  - apply list_elem_of_singleton in Ht as ->. apply dict_get_set_eq.
Qed.

(** X6: with distinct ids, the dependency map has one key per subtask,
    in the order of the subtasks, and looking a subtask up gives its
    dependency list. *)
Theorem dependency_map_matches_subtasks (sts : list SubTask) :
  NoDup (id <$> sts) ->
  dict_keys (_analyze_dependencies sts) = id <$> sts /\
  forall t, t ∈ sts ->
    dict_get (id t) (_analyze_dependencies sts) = Some (dependencies t).
Proof.
  intros Hnd. split; [by apply analyze_dependencies_keys|].
  intros t Ht. by apply analyze_dependencies_lookup.
Qed.

(** ** Subtasks and roles *)

Lemma shares_domain_inter (HD : HashOrder TaskDomain) doms a c :
  dict_get a AGENT_CAPABILITIES = Some c ->
  shares_domain doms a = true <-> list_of_inter (cap_domains c) doms <> [].
Proof.
  intros Hc. unfold shares_domain. rewrite Hc. rewrite existsb_exists. split.
  - intros (d & Hd & Hin) Hnil. apply bool_decide_eq_true in Hin.
    assert (d ∈ list_of_inter (cap_domains c) doms) as H.
    { apply list_of_inter_elem. split; [by apply list_elem_of_In|done]. }
    rewrite Hnil in H. inversion H.
  - intros Hne. destruct (list_of_inter (cap_domains c) doms) as [|d l] eqn:E;
      [done|].
    assert (d ∈ list_of_inter (cap_domains c) doms) as H by (rewrite E; left).
    apply list_of_inter_elem in H as [H1 H2].
    exists d. split; [by apply list_elem_of_In|by apply bool_decide_eq_true].
Qed.

Lemma make_subtasks_agents (HD : HashOrder TaskDomain) uuid task ags doms n
    sts n' :
  make_subtasks uuid task ags doms n = Some (sts, n') ->
  agent_id <$> sts = filter (fun a => shares_domain doms a = true) ags /\
  Forall (fun t =>
            domain t ∈ doms /\
            exists c, dict_get (agent_id t) AGENT_CAPABILITIES = Some c /\
                      domain t ∈ cap_domains c /\
                      description t =
                        _generate_subtask_description task (agent_id t)
                          (list_of_inter (cap_domains c) doms)) sts.
Proof.
  revert n sts n'. induction ags as [|a ags IH]; intros n sts n';
    cbn [make_subtasks].
  - intros [= <- <-]. split; [done|constructor].
  - destruct (dict_get a AGENT_CAPABILITIES) as [c|] eqn:Hc; [|discriminate].
    cbn [mbind option_bind].
    pose proof (shares_domain_inter HD doms a c Hc) as Hshare.
    destruct (list_of_inter (cap_domains c) doms) as [|primary rest] eqn:E.
    + intros H. apply IH in H as [Hag Hall].
      rewrite filter_cons_False; [done|].
      intros Hs. by apply Hshare in Hs.
    + destruct (make_subtasks uuid task ags doms (S n)) as [[more m]|] eqn:Em;
        [|discriminate].
      cbn [mbind option_bind]. intros [= <- <-].
      apply IH in Em as [Hag Hall].
      rewrite filter_cons_True by (by apply Hshare).
      cbn [fmap list_fmap agent_id]. split; [by rewrite Hag|].
      constructor; [|done]. cbn [domain agent_id description].
      assert (primary ∈ list_of_inter (cap_domains c) doms) as Hp
        by (rewrite E; left).
      apply list_of_inter_elem in Hp as [Hp1 Hp2].
      split; [done|]. exists c. by rewrite E.
Qed.

Lemma establish_dependencies_frame sts :
  Forall2 (fun t t' => t' = set_dependencies (dependencies t') t)
          sts (_establish_dependencies sts).
Proof.
  apply Forall2_same_length_lookup_2.
  - pose proof (establish_dependencies_wired sts) as H.
    by apply Forall2_length in H.
  - intros r t t' Hr Hr'. destruct (sorted_position sts r t Hr) as [i Hi].
    rewrite (establish_dependencies_lookup sts i r t Hi) in Hr'.
    injection Hr' as <-.
    destruct (boundary _ _); [done|by rewrite set_dependencies_same].
Qed.

Lemma establish_dependencies_fmap {B : Type} (f : SubTask -> B) sts :
  (forall deps t, f (set_dependencies deps t) = f t) ->
  f <$> _establish_dependencies sts = f <$> sts.
Proof.
  intros Hf. pose proof (establish_dependencies_frame sts) as H.
  induction H as [|t t' l l' Ht _ IH]; [done|].
  cbn [fmap list_fmap]. rewrite IH. f_equal. rewrite Ht. apply Hf.
Qed.

Lemma establish_dependencies_Forall (P : SubTask -> Prop) sts :
  (forall deps t, P t -> P (set_dependencies deps t)) ->
  Forall P sts -> Forall P (_establish_dependencies sts).
Proof.
  intros HP Hall. pose proof (establish_dependencies_frame sts) as H.
  induction H as [|t t' l l' Ht _ IH]; [constructor|].
  apply Forall_cons in Hall as [Hpt Hall].
  constructor; [|by apply IH]. rewrite Ht. by apply HP.
Qed.

Lemma analyze_task_parts (HD : HashOrder TaskDomain) (HS : HashOrder string)
    uuid task n :
  exists a m sts0,
    analyze_task uuid task n = Some (a, m) /\
    _identify_domains task = Some (domains a) /\
    required_agents a =
      _select_agents task (domains a) (_assess_complexity task (domains a)) /\
    make_subtasks uuid task (required_agents a) (domains a) (S n)
      = Some (sts0, m) /\
    subtasks a = _establish_dependencies sts0 /\
    dependency_map a = _analyze_dependencies (subtasks a) /\
    confidence a =
      _calculate_confidence task (domains a) (required_agents a) /\
    original_task a = task /\
    task_id a = "task_" +:+ uuid n.
Proof.
  unfold analyze_task.
  destruct (identify_domains_order HD HD task) as (doms & ? & -> & _ & _ & _).
  cbn [mbind option_bind].
  unfold _decompose_task.
  destruct (make_subtasks_Some HD uuid task
              (_select_agents task doms (_assess_complexity task doms)) doms (S n)
              (select_agents_known HS _ _ _)) as [[sts n'] Hm].
  rewrite Hm. cbn [mbind option_bind].
  eexists _, _, sts. split; [reflexivity|]. cbn.
  by rewrite Hm.
Qed.

Lemma registry_domains_nonempty :
  Forall (fun e : string * Capability => cap_domains e.2 <> []) AGENT_CAPABILITIES.
Proof. repeat constructor; cbn; discriminate. Qed.

Lemma extend_agent_domains_collects ags acc col :
  extend_agent_domains ags acc = Some col ->
  acc ⊆ col /\
  forall a c, a ∈ ags -> dict_get a AGENT_CAPABILITIES = Some c ->
    cap_domains c ⊆ col.
Proof.
  revert acc. induction ags as [|a0 ags IH]; intros acc;
    cbn [extend_agent_domains].
  - intros [= <-]. split; [done|]. intros a c Ha. inversion Ha.
  - destruct (dict_get a0 AGENT_CAPABILITIES) as [c0|] eqn:Hc0; [|discriminate].
    cbn [mbind option_bind]. intros H. apply IH in H as [Hacc Hall].
    split.
    + intros x Hx. apply Hacc, elem_of_app. by left.
    + intros a c Ha Hc. apply elem_of_cons in Ha as [->|Ha]; [|by eapply Hall].
      assert (c = c0) as -> by congruence.
      intros x Hx. apply Hacc, elem_of_app. by right.
Qed.

Lemma scan_pattern_domains_collects ps tl acc col :
  scan_pattern_domains ps tl acc = Some col ->
  acc ⊆ col /\
  forall a c, a ∈ pattern_agents ps tl ->
    dict_get a AGENT_CAPABILITIES = Some c -> cap_domains c ⊆ col.
Proof.
  revert acc. induction ps as [|[name info] ps IH]; intros acc;
    cbn [scan_pattern_domains pattern_agents].
  - intros [= <-]. split; [done|]. intros a c Ha. inversion Ha.
  - destruct (any_keyword (keywords info) tl).
    + destruct (extend_agent_domains (agents info) acc) as [acc'|] eqn:He;
        [|discriminate].
      cbn [mbind option_bind]. intros H. apply IH in H as [Hacc Hall].
      apply extend_agent_domains_collects in He as [Hacc' Hall'].
      split; [intros x Hx; by apply Hacc, Hacc'|].
      intros a c Ha Hc. apply elem_of_app in Ha as [Ha|Ha]; [|by eapply Hall].
      intros x Hx. apply Hacc. by eapply Hall'.
    + apply IH.
Qed.

Lemma required_agent_shares_domain (HD : HashOrder TaskDomain)
    (HS : HashOrder string) task doms c :
  _identify_domains task = Some doms ->
  exists a, a ∈ _select_agents task doms c /\ shares_domain doms a = true.
Proof.
  unfold _identify_domains. intros H.
  destruct (pattern_agents TASK_PATTERNS (lower task)) as [|a l] eqn:Epat.
  - rewrite (scan_pattern_domains_unmatched _ _ _ pattern_agents_known Epat) in H.
    cbn [mbind option_bind] in H.
    destruct (list_of_set []) as [|d l] eqn:E.
    + injection H as <-. exists "backend-expert". split; [|by vm_compute].
      apply list_of_set_elem. unfold selected_insertions.
      rewrite !elem_of_app. right; left.
      rewrite bind_singleton. apply domain_agents_backend.
    + assert (d ∈ list_of_set (A:=TaskDomain) []) as Hd by (rewrite E; left).
      apply (proj1 (list_of_set_elem _ _)) in Hd. inversion Hd.
  - destruct (scan_pattern_domains TASK_PATTERNS (lower task) [])
      as [col|] eqn:Hscan; [|discriminate].
    cbn [mbind option_bind] in H. injection H as H.
    apply scan_pattern_domains_collects in Hscan as [_ Hall].
    assert (a ∈ pattern_agents TASK_PATTERNS (lower task)) as Ha
      by (rewrite Epat; left).
    assert (known_agent a) as Hk
      by (eapply pattern_agents_elem; [apply pattern_agents_known|done]).
    destruct (dict_get_is_Some a AGENT_CAPABILITIES Hk) as [ca Hca].
    specialize (Hall a ca Ha Hca).
    pose proof (dict_get_Some_key _ _ _ Hca) as Hin.
    pose proof registry_domains_nonempty as Hne.
    rewrite Forall_forall in Hne. specialize (Hne _ Hin). cbn in Hne.
    destruct (cap_domains ca) as [|d ds] eqn:Ecap; [done|].
    assert (d ∈ list_of_set col) as Hd.
    { apply list_of_set_elem, Hall. left. }
    assert (doms = list_of_set col) as ->.
    { rewrite <- H. destruct (list_of_set col); [inversion Hd|done]. }
    exists a. split.
    + apply list_of_set_elem. unfold selected_insertions.
      apply elem_of_app. left. by rewrite Epat in Ha |- *.
    + unfold shares_domain. rewrite Hca, Ecap. cbn [existsb].
      by rewrite bool_decide_eq_true_2.
Qed.

Lemma analysis_subtasks_roles
    (HD : HashOrder TaskDomain) (HS : HashOrder string)
    (uuid : nat -> string) (task : string) (n : nat) :
  exists a m,
    analyze_task uuid task n = Some (a, m) /\
    agent_id <$> subtasks a =
      filter (fun ag => shares_domain (domains a) ag = true)
             (required_agents a) /\
    NoDup (agent_id <$> subtasks a) /\
    subtasks a <> [] /\
    Forall (fun t =>
              domain t ∈ domains a /\
              exists c, dict_get (agent_id t) AGENT_CAPABILITIES = Some c /\
                        domain t ∈ cap_domains c) (subtasks a).
Proof.
  destruct (analyze_task_parts HD HS uuid task n)
    as (a & m & sts0 & Ha & Hdoms & Hreq & Hmake & Hsub & _).
  exists a, m. split; [done|].
  destruct (make_subtasks_agents HD _ _ _ _ _ _ _ Hmake) as [Hag Hall].
  assert (agent_id <$> subtasks a =
          filter (fun ag => shares_domain (domains a) ag = true)
                 (required_agents a)) as Hagents.
  { rewrite Hsub, establish_dependencies_fmap by done. exact Hag. }
  split; [done|]. split; [|split].
  - rewrite Hagents. apply NoDup_filter. rewrite Hreq. apply list_of_set_NoDup.
  - intros Hnil. rewrite Hnil in Hagents. cbn in Hagents.
    destruct (required_agent_shares_domain HD HS task (domains a)
                (_assess_complexity task (domains a)) Hdoms)
      as (ag & Hin & Hshare).
    rewrite <- Hreq in Hin.
    assert (ag ∈ filter (fun ag => shares_domain (domains a) ag = true)
                        (required_agents a)) as Hf
      by (by apply list_elem_of_filter).
    rewrite <- Hagents in Hf. inversion Hf.
  - rewrite Hsub. apply establish_dependencies_Forall; [done|].
    eapply Forall_impl; [exact Hall|]. cbn.
    intros t (Hd & c & Hc & Hdc & _). split; [done|]. by exists c.
Qed.

(** X3: the subtasks of an analysis are one per required role whose
    capability domains meet the domains of the task, in the order of the
    required roles; there is always at least one, and the primary domain
    of a subtask is a domain of the task that its role covers. *)
Theorem subtasks_match_roles
    (HD : HashOrder TaskDomain) (HS : HashOrder string)
    (uuid : nat -> string) (task : string) (n : nat) :
  exists a m,
    analyze_task uuid task n = Some (a, m) /\
    agent_id <$> subtasks a =
      filter (fun ag => shares_domain (domains a) ag = true)
             (required_agents a) /\
    NoDup (agent_id <$> subtasks a) /\
    subtasks a <> [] /\
    Forall (fun t =>
              domain t ∈ domains a /\
              exists c, dict_get (agent_id t) AGENT_CAPABILITIES = Some c /\
                        domain t ∈ cap_domains c) (subtasks a).
Proof. apply analysis_subtasks_roles. Qed.

(** ** Texts, durations and tiers of the subtasks *)

Lemma templates_cover_registry task a doms :
  known_agent a ->
  dict_get a (templates task) =
    Some (_generate_subtask_description task a doms).
Proof.
  unfold known_agent, _generate_subtask_description. intros Ha.
  assert (is_Some (dict_get a (templates task))) as [d Hd].
  { apply dict_get_is_Some. exact Ha. }
  by rewrite Hd.
Qed.

Lemma multipliers_cover_registry a :
  known_agent a ->
  exists mult,
    dict_get a complexity_multipliers = Some mult /\
    (8 # 10 <= mult)%Q /\ (mult <= 3)%Q.
Proof.
  unfold known_agent. intros Ha. cbn in Ha.
  repeat (apply elem_of_cons in Ha as [->|Ha];
          [eexists; split; [reflexivity|split; by vm_compute]|]).
  inversion Ha.
Qed.

Lemma calculate_priority_range a doms :
  1 <= _calculate_priority a doms <= 6.
Proof.
  unfold _calculate_priority.
  repeat first [ case_bool_decide | case_decide ]; lia.
Qed.

Lemma analysis_subtasks_tables
    (HD : HashOrder TaskDomain) (HS : HashOrder string)
    (uuid : nat -> string) (task : string) (n : nat) :
  exists a m,
    analyze_task uuid task n = Some (a, m) /\
    Forall (fun t =>
              dict_get (agent_id t) (templates task) = Some (description t) /\
              (exists mult,
                 dict_get (agent_id t) complexity_multipliers = Some mult /\
                 (8 # 10 <= mult)%Q /\ (mult <= 3)%Q /\
                 estimated_time t =
                   (inject_Z (Z.of_nat (String.length task)) * (1 # 100)
                    * mult)%Q) /\
              1 <= priority t <= 6) (subtasks a).
Proof.
  destruct (analyze_task_parts HD HS uuid task n)
    as (a & m & sts0 & Ha & Hdoms & Hreq & Hmake & Hsub & _).
  exists a, m. split; [done|].
  destruct (make_subtasks_agents HD _ _ _ _ _ _ _ Hmake) as [_ Hall].
  destruct (make_subtasks_shape uuid _ _ _ _ _ _ Hmake) as [_ Hshape].
  rewrite Hsub. apply establish_dependencies_Forall; [done|].
  apply Forall_forall. intros t Ht.
  rewrite Forall_forall in Hall, Hshape.
  destruct (Hall t Ht) as (_ & c & Hc & _ & Hdesc).
  destruct (Hshape t Ht) as (_ & k & _ & _ & Hin & Hprio & Htime).
  assert (known_agent (agent_id t)) as Hk.
  { pose proof (select_agents_known HS task (domains a)
                  (_assess_complexity task (domains a))) as Hknown.
    rewrite Forall_forall in Hknown. apply Hknown. by rewrite <- Hreq. }
  split; [|split].
  - rewrite Hdesc. by apply templates_cover_registry.
  - destruct (multipliers_cover_registry _ Hk) as (mult & Hm & Hlo & Hhi).
    exists mult. split; [done|]. split; [done|]. split; [done|].
    rewrite Htime. unfold _estimate_agent_time. by rewrite Hm.
  - rewrite Hprio. apply calculate_priority_range.
Qed.

(** X4: the fallbacks of the description and duration tables are never
    used by an analysis: every subtask carries the description template of
    its role and a duration of a hundredth of the length of the text times
    the multiplier of its role, which lies between 0.8 and 3; its priority
    lies between 1 and 6. *)
Theorem subtasks_use_role_tables
    (HD : HashOrder TaskDomain) (HS : HashOrder string)
    (uuid : nat -> string) (task : string) (n : nat) :
  exists a m,
    analyze_task uuid task n = Some (a, m) /\
    Forall (fun t =>
              dict_get (agent_id t) (templates task) = Some (description t) /\
              (exists mult,
                 dict_get (agent_id t) complexity_multipliers = Some mult /\
                 (8 # 10 <= mult)%Q /\ (mult <= 3)%Q /\
                 estimated_time t =
                   (inject_Z (Z.of_nat (String.length task)) * (1 # 100)
                    * mult)%Q) /\
              1 <= priority t <= 6) (subtasks a).
Proof. apply analysis_subtasks_tables. Qed.

(** ** What the classifier returns *)

Lemma extend_agent_domains_sound ags acc col d :
  extend_agent_domains ags acc = Some col -> d ∈ col ->
  d ∈ acc \/
  exists a c, a ∈ ags /\ dict_get a AGENT_CAPABILITIES = Some c /\
              d ∈ cap_domains c.
Proof.
  revert acc. induction ags as [|a0 ags IH]; intros acc;
    cbn [extend_agent_domains].
  - intros [= <-] Hd. by left.
  - destruct (dict_get a0 AGENT_CAPABILITIES) as [c0|] eqn:Hc0; [|discriminate].
    cbn [mbind option_bind]. intros H Hd.
    destruct (IH _ H Hd) as [Hacc|(a & c & Ha & Hc & Hdc)].
    + apply elem_of_app in Hacc as [Hacc|Hacc]; [by left|].
      right. exists a0, c0. split; [left|done].
    + right. exists a, c. split; [by right|done].
Qed.

Lemma scan_pattern_domains_sound ps tl acc col d :
  scan_pattern_domains ps tl acc = Some col -> d ∈ col ->
  d ∈ acc \/
  exists a c, a ∈ pattern_agents ps tl /\
              dict_get a AGENT_CAPABILITIES = Some c /\ d ∈ cap_domains c.
Proof.
  revert acc. induction ps as [|[name info] ps IH]; intros acc;
    cbn [scan_pattern_domains pattern_agents].
  - intros [= <-] Hd. by left.
  - destruct (any_keyword (keywords info) tl).
    + destruct (extend_agent_domains (agents info) acc) as [acc'|] eqn:He;
        [|discriminate].
      cbn [mbind option_bind]. intros H Hd.
      destruct (IH _ H Hd) as [Hacc|(a & c & Ha & Hc & Hdc)].
      * destruct (extend_agent_domains_sound _ _ _ _ He Hacc)
          as [Hacc'|(a & c & Ha & Hc & Hdc)]; [by left|].
        right. exists a, c. split; [|done]. apply elem_of_app. by left.
      * right. exists a, c. split; [|done]. apply elem_of_app. by right.
    + apply IH.
Qed.

(** X1: the domains of a task are, without repetition, the capability
    domains of the roles that the matching patterns name; when no pattern
    matches, the only domain is [FULL_STACK]. *)
Theorem identified_domains (HD : HashOrder TaskDomain) (task : string) :
  exists doms,
    _identify_domains task = Some doms /\
    NoDup doms /\
    (pattern_agents TASK_PATTERNS (lower task) = [] -> doms = [FULL_STACK]) /\
    (pattern_agents TASK_PATTERNS (lower task) <> [] ->
     forall d,
       d ∈ doms <->
       exists a c, a ∈ pattern_agents TASK_PATTERNS (lower task) /\
                   dict_get a AGENT_CAPABILITIES = Some c /\
                   d ∈ cap_domains c).
Proof.
  unfold _identify_domains.
  destruct (scan_pattern_domains_Some TASK_PATTERNS (lower task) []
              pattern_agents_known) as [col Hscan].
  rewrite Hscan. cbn [mbind option_bind]. eexists. split; [done|].
  destruct (scan_pattern_domains_collects _ _ _ _ Hscan) as [_ Hall].
  split; [|split].
  - destruct (list_of_set col) as [|d l] eqn:E.
    + apply NoDup_singleton.
    + rewrite <- E. apply list_of_set_NoDup.
  - intros Hnone.
    rewrite (scan_pattern_domains_unmatched _ _ _ pattern_agents_known Hnone)
      in Hscan.
    injection Hscan as <-.
    destruct (list_of_set []) as [|d l] eqn:E; [done|].
    assert (d ∈ list_of_set (A:=TaskDomain) []) as Hd by (rewrite E; left).
    apply (proj1 (list_of_set_elem _ _)) in Hd. inversion Hd.
  - intros Hsome d.
    assert (list_of_set col <> []) as Hne.
    { destruct (pattern_agents TASK_PATTERNS (lower task)) as [|a l] eqn:Epat;
        [done|].
      assert (a ∈ pattern_agents TASK_PATTERNS (lower task)) as Ha
        by (rewrite Epat; left).
      assert (known_agent a) as Hk
        by (eapply pattern_agents_elem; [apply pattern_agents_known|done]).
      destruct (dict_get_is_Some a AGENT_CAPABILITIES Hk) as [ca Hca].
      rewrite <- Epat in Hall. specialize (Hall a ca Ha Hca).
      pose proof (dict_get_Some_key _ _ _ Hca) as Hin.
      pose proof registry_domains_nonempty as Hreg.
      rewrite Forall_forall in Hreg. specialize (Hreg _ Hin). cbn in Hreg.
      destruct (cap_domains ca) as [|d0 ds]; [done|].
      intros Hnil.
      assert (d0 ∈ list_of_set col) as Hd0
        by (apply list_of_set_elem, Hall; left).
      rewrite Hnil in Hd0. inversion Hd0. }
    assert (match list_of_set col with
            | [] => [FULL_STACK]
            | _ :: _ => list_of_set col
            end = list_of_set col) as ->
      by (by destruct (list_of_set col)).
    rewrite list_of_set_elem. split.
    + intros Hd.
      destruct (scan_pattern_domains_sound _ _ _ _ _ Hscan Hd) as [H|H];
        [inversion H|done].
    + intros (a & c & Ha & Hc & Hdc). by apply (Hall a c).
Qed.

Lemma domain_agents_spec caps d c a :
  a ∈ domain_agents caps d c <->
  exists cap, (a, cap) ∈ caps /\ d ∈ cap_domains cap /\
              _complexity_value c <= _complexity_value (complexity_limit cap).
Proof.
  induction caps as [|[a' cap'] caps IH]; cbn [domain_agents].
  - split; [intros H; inversion H|]. intros (cap & H & _). inversion H.
  - destruct (bool_decide (d ∈ cap_domains cap')
              && (_complexity_value c <=?
                  _complexity_value (complexity_limit cap'))) eqn:Hb.
    + apply andb_true_iff in Hb as [Hd Hle].
      apply bool_decide_eq_true in Hd. apply Z.leb_le in Hle.
      rewrite elem_of_cons, IH. split.
      * intros [->|(cap & Hin & H)]; [exists cap'; split; [left|done]|].
        exists cap. split; [by right|done].
      * intros (cap & Hin & H).
        apply elem_of_cons in Hin as [[= -> ->]|Hin]; [by left|].
        right. by exists cap.
    + rewrite IH. split.
      * intros (cap & Hin & H). exists cap. split; [by right|done].
      * intros (cap & Hin & Hd & Hle).
        apply elem_of_cons in Hin as [[= -> ->]|Hin]; [|by exists cap].
        exfalso. apply andb_false_iff in Hb as [Hb|Hb].
        -- by apply bool_decide_eq_false in Hb.
        -- apply Z.leb_gt in Hb. lia.
Qed.

(** X2: the required roles of an analysis, each listed once, are the
    roles named by a matching pattern, the roles that cover a domain of the
    task within their complexity limit, the tester for a complex or expert
    task, and the security role for a text with a sensitive keyword. *)
Theorem required_agents_characterised
    (HD : HashOrder TaskDomain) (HS : HashOrder string)
    (uuid : nat -> string) (task : string) (n : nat) :
  exists a m,
    analyze_task uuid task n = Some (a, m) /\
    NoDup (required_agents a) /\
    forall ag,
      ag ∈ required_agents a <->
      ag ∈ pattern_agents TASK_PATTERNS (lower task) \/
      (exists d cap,
         d ∈ domains a /\ (ag, cap) ∈ AGENT_CAPABILITIES /\
         d ∈ cap_domains cap /\
         _complexity_value (complexity a)
           <= _complexity_value (complexity_limit cap)) \/
      (ag = "qa-expert" /\
       (complexity a = COMPLEX \/ complexity a = EXPERT)) \/
      (ag = "security-expert" /\
       any_keyword sensitive_keywords (lower task) = true).
Proof.
  destruct (analyze_task_fields HD HS uuid task n)
    as (a & m & Ha & _ & _ & Hreq & _).
  exists a, m. split; [done|]. rewrite Hreq. split; [apply list_of_set_NoDup|].
  intros ag. unfold _select_agents. rewrite list_of_set_elem.
  unfold selected_insertions. rewrite !elem_of_app.
  assert (ag ∈ (domains a ≫= fun d =>
                  domain_agents AGENT_CAPABILITIES d (complexity a)) <->
          exists d cap,
            d ∈ domains a /\ (ag, cap) ∈ AGENT_CAPABILITIES /\
            d ∈ cap_domains cap /\
            _complexity_value (complexity a)
              <= _complexity_value (complexity_limit cap)) as H1.
  { rewrite list_elem_of_bind. split.
    - intros (d & Hin & Hd).
      apply domain_agents_spec in Hin as (cap & ? & ? & ?). by exists d, cap.
    - intros (d & cap & Hd & Hin & Hdc & Hle). exists d. split; [|done].
      apply domain_agents_spec. by exists cap. }
  assert (ag ∈ (if bool_decide (complexity a ∈ [COMPLEX; EXPERT])
                then ["qa-expert"] else []) <->
          ag = "qa-expert" /\
          (complexity a = COMPLEX \/ complexity a = EXPERT)) as H2.
  { destruct (complexity a).
    - replace (bool_decide (SIMPLE ∈ [COMPLEX; EXPERT])) with false
        by (symmetry; by vm_compute).
      split; [intros H; inversion H|]. by intros [_ [?|?]].
    - replace (bool_decide (MODERATE ∈ [COMPLEX; EXPERT])) with false
        by (symmetry; by vm_compute).
      split; [intros H; inversion H|]. by intros [_ [?|?]].
    - replace (bool_decide (COMPLEX ∈ [COMPLEX; EXPERT])) with true
        by (symmetry; by vm_compute).
      rewrite list_elem_of_singleton.
      split; [intros ->; split; [done|by left]|]. by intros [-> _].
    - replace (bool_decide (EXPERT ∈ [COMPLEX; EXPERT])) with true
        by (symmetry; by vm_compute).
      rewrite list_elem_of_singleton.
      split; [intros ->; split; [done|by right]|]. by intros [-> _]. }
  assert (ag ∈ (if any_keyword sensitive_keywords (lower task)
                then ["security-expert"] else []) <->
          ag = "security-expert" /\
          any_keyword sensitive_keywords (lower task) = true) as H3.
  { destruct (any_keyword sensitive_keywords (lower task));
      rewrite ?list_elem_of_singleton.
    - split; [by intros ->|]. by intros [-> _].
    - split; [intros H; inversion H|]. by intros [_ ?]. }
  rewrite H1, H2, H3. reflexivity.
Qed.

(** ** The estimate counts edges *)

Lemma add_node_edge_data n attr G :
  g_edge (add_node n attr G) = g_edge G.
Proof. done. Qed.

Lemma ensure_node_edge_data n G : g_edge (ensure_node n G) = g_edge G.
Proof. unfold ensure_node. by destruct (bool_decide _). Qed.

Lemma add_edge_bare u v G :
  Forall (fun e => e.2 = []) (g_edge G) ->
  Forall (fun e => e.2 = []) (g_edge (add_edge u v G)).
Proof.
  intros H. unfold add_edge. cbv zeta.
  destruct (bool_decide _); rewrite ?ensure_node_edge_data; [done|].
  cbn [g_edge]. rewrite ?ensure_node_edge_data.
  apply Forall_app. split; [done|]. by constructor.
Qed.

Lemma add_subtask_bare G t :
  Forall (fun e => e.2 = []) (g_edge G) ->
  Forall (fun e => e.2 = []) (g_edge (add_subtask G t)).
Proof.
  intros H. unfold add_subtask.
  assert (Forall (fun e => e.2 = [])
            (g_edge (add_node (id t) [("time", estimated_time t)] G))) as H0
    by done.
  revert H0. generalize (add_node (id t) [("time", estimated_time t)] G).
  induction (dependencies t) as [|d ds IH]; intros G0 H0; cbn [foldl]; [done|].
  apply IH. by apply add_edge_bare.
Qed.

Lemma execution_graph_bare sts :
  Forall (fun e => e.2 = []) (g_edge (execution_graph sts)).
Proof.
  unfold execution_graph.
  assert (Forall (fun e : string * string * list (string * Q) => e.2 = [])
                 (g_edge empty_graph)) as H0 by constructor.
  revert H0. generalize empty_graph.
  induction sts as [|t sts IH]; intros G0 H0; cbn [foldl]; [done|].
  apply IH. by apply add_subtask_bare.
Qed.

Lemma edge_data_bare G u v data :
  Forall (fun e => e.2 = []) (g_edge G) ->
  edge_data G u v = Some data -> data = [].
Proof.
  intros Hbare. unfold edge_data.
  destruct (list_find _ (g_edge G)) as [[i e]|] eqn:Hf; [|done].
  cbn. intros [= <-].
  apply list_find_Some in Hf as (Hi & _).
  rewrite Forall_forall in Hbare. apply Hbare.
  by eapply list_elem_of_lookup_2.
Qed.

Lemma pairwise_length_hops G weight u rest acc l :
  Forall (fun e => e.2 = []) (g_edge G) ->
  pairwise_length G weight 1 u rest acc = Some l ->
  (l == acc + inject_Z (Z.of_nat (length rest)))%Q.
Proof.
  intros Hbare. revert u acc.
  induction rest as [|v rest IH]; intros u acc; cbn [pairwise_length].
  - intros [= <-]. cbn. ring.
  - destruct (edge_data G u v) as [data|] eqn:Hd; [|done].
    cbn [mbind option_bind]. rewrite (edge_data_bare _ _ _ _ Hbare Hd).
    intros H. apply IH in H. rewrite H.
    unfold edge_weight. cbn [dict_get default from_option Datatypes.id length].
    rewrite Nat2Z.inj_succ. unfold Z.succ. rewrite inject_Z_plus. ring.
Qed.

(** X7: whenever the graph library returns a longest path, the estimate
    is the number of edges on that path, a whole number that no duration
    enters. *)
Theorem estimate_time_counts_edges
    (sts : list SubTask) (deps : list (string * list string)) (l : Q) :
  sts <> [] ->
  dag_longest_path_length (execution_graph sts) "time" 1 = Some l ->
  exists path,
    dag_longest_path (execution_graph sts) "time" 1 = Some path /\
    _estimate_time sts deps = l /\
    (l == inject_Z (Z.of_nat (length path - 1)))%Q.
Proof.
  intros Hne Hl.
  destruct (estimate_time_blind_to_durations sts sts deps deps l) as [He _];
    [|done|done|].
  { apply Forall2_same_length_lookup_2; [done|].
    intros i x y Hx Hy. assert (x = y) as -> by congruence. by split. }
  unfold dag_longest_path_length in Hl.
  destruct (dag_longest_path (execution_graph sts) "time" 1) as [path|];
    [|done].
  cbn [mbind option_bind] in Hl. exists path. split; [done|]. split; [done|].
  destruct path as [|u rest].
  - by injection Hl as <-.
  - apply pairwise_length_hops in Hl; [|apply execution_graph_bare].
    rewrite Hl.
    replace (length (u :: rest) - 1)%nat with (length rest)
      by (cbn [length]; lia).
    ring.
Qed.

(** ** Number of stages *)

Lemma sorted_lt_length (l : list Z) (lo hi : Z) :
  StronglySorted Z.lt l -> Forall (fun x => lo <= x <= hi) l ->
  Z.of_nat (length l) <= Z.max 0 (hi - lo + 1).
Proof.
  intros Hs. revert lo. induction Hs as [|x l Hs IH Hall]; intros lo Hr.
  - cbn. lia.
  - apply Forall_cons in Hr as [Hx Hr].
    assert (Forall (fun y => x + 1 <= y <= hi) l) as Hr'.
    { rewrite Forall_forall in Hall, Hr |- *. intros y Hy.
      specialize (Hall y Hy). specialize (Hr y Hy). lia. }
    specialize (IH (x + 1) Hr'). cbn [length]. lia.
Qed.

(** X24: the plan of an analysis has between one and six stages, with
    priorities from 1 to 6. *)
Theorem plan_has_at_most_six_stages
    (HD : HashOrder TaskDomain) (HS : HashOrder string)
    (uuid : nat -> string) (task : string) (n : nat) :
  exists a m,
    analyze_task uuid task n = Some (a, m) /\
    (1 <= length (stages (get_execution_plan a)) <= 6)%nat /\
    Forall (fun st => 1 <= stage_priority st <= 6)
           (stages (get_execution_plan a)).
Proof.
  destruct (analysis_subtasks_roles HD HS uuid task n)
    as (a & m & Ha & _ & _ & Hne & _).
  destruct (analysis_subtasks_tables HD HS uuid task n)
    as (a' & m' & Ha' & Htab).
  assert (a' = a) as -> by congruence.
  exists a, m. split; [done|].
  destruct (plan_stages_sorted a) as [Hsorted Hprio].
  assert (Forall (fun p => 1 <= p <= 6)
                 (stage_priority <$> stages (get_execution_plan a))) as Hrange.
  { apply Forall_forall. intros p Hp.
    apply Hprio, list_elem_of_fmap in Hp as (t & -> & Ht).
    rewrite Forall_forall in Htab. by destruct (Htab t Ht) as (_ & _ & ?). }
  split; [split|].
  - destruct (subtasks a) as [|t ts] eqn:Est; [done|].
    assert (priority t ∈ stage_priority <$> stages (get_execution_plan a))
      as Hin.
    { apply Hprio. cbn. left. }
    destruct (stages (get_execution_plan a)); [inversion Hin|cbn; lia].
  - pose proof (sorted_lt_length _ 1 6 Hsorted Hrange) as Hlen.
    rewrite length_fmap in Hlen. lia.
  - by apply Forall_fmap in Hrange.
Qed.

(** ** From analysis to recorded run *)

(** X20: every analysis can be executed: running its subtasks one after
    the other in priority order, the engine's own worker completes them
    all, the result counts one successful task per subtask, and one record
    is added to the history. *)
Theorem analyzed_task_executes
    (HD : HashOrder TaskDomain) (HS : HashOrder string)
    (uuid : nat -> string) (task : string) (n : nat)
    (now : string) (elapsed : Q) (eng : Engine) :
  Inj (=) (=) uuid ->
  recorded eng ->
  exists a m r eng',
    analyze_task uuid task n = Some (a, m) /\
    execute_task _execute_single_task now elapsed
      (serial (fst <$> sorted_by_priority (subtasks a))) eng a
      = Some (r, eng') /\
    run_status r = "completed" /\
    agents_used r = required_agents a /\
    all_successful (summary (run_results r)) = true /\
    total_tasks (summary (run_results r)) = Z.of_nat (length (subtasks a)) /\
    recorded eng' /\
    length (execution_history eng') = S (length (execution_history eng)).
Proof.
  intros Hinj Hrec.
  destruct (analyze_task_fields HD HS uuid task n)
    as (a & m & Ha & _ & _ & _ & Hdec & _).
  destruct (decompose_task_tiered HD _ _ _ _ _ _ _ Hdec) as [Htier Hnd].
  specialize (Hnd Hinj).
  destruct (serial_run_completes _execute_single_task (subtasks a) Htier)
    as [res Hrun].
  pose proof (metrics_ok_wf _ (recorded_metrics_ok _ Hrec)) as Hwf.
  destruct (record_execution_total now eng a (_merge_results res) elapsed Hwf)
    as (eng' & acc & Hre & _ & _ & _).
  exists a, m.
  eexists (mkRunResult (task_id a) "completed" (_merge_results res) elapsed
             (required_agents a) (confidence a)), eng'.
  split; [done|]. split.
  { unfold execute_task. rewrite Hrun. cbn [mbind option_bind].
    rewrite Hre. done. }
  cbn [run_status agents_used run_results].
  split; [done|]. split; [done|].
  split; [by eapply builtin_worker_all_successful|]. split.
  - pose proof (results_keys _ _ _ _ Hnd Hrun) as Hperm.
    apply Permutation_length in Hperm.
    unfold dict_keys in Hperm. rewrite length_map, length_fmap in Hperm.
    change (Z.of_nat (length res) = Z.of_nat (length (subtasks a))).
    by rewrite Hperm.
  - split; [by eapply recorded_step|].
    destruct (record_execution_inv _ _ _ _ _ _ Hre) as (? & ? & _ & _ & _ & ->).
    rewrite length_app. cbn. lia.
Qed.

(** ** Instances of the properties on concrete inputs *)

Lemma scenario_A_subtasks_tiered : tiered scenario_A_subtasks.
Proof.
  intros t d Ht Hd. vm_compute in Ht.
  apply elem_of_cons in Ht as [->|Ht]; [vm_compute in Hd; inversion Hd|].
  apply elem_of_cons in Ht as [->|Ht]; [|inversion Ht].
  vm_compute in Hd. apply list_elem_of_singleton in Hd as ->.
  exists (default scenario_A_frontend (scenario_A_subtasks !! 0%nat)).
  split; [apply (list_elem_of_lookup_2 _ 0%nat); by vm_compute|].
  split; by vm_compute.
Qed.

Lemma scenario_A_subtasks_NoDup : NoDup (id <$> scenario_A_subtasks).
Proof. apply (bool_decide_unpack _). by vm_compute. Qed.

Lemma two_checks_subtasks_NoDup : NoDup (id <$> two_checks_subtasks).
Proof. apply (bool_decide_unpack _). by vm_compute. Qed.

Lemma engine_after_one_run_recorded : recorded engine_after_one_run.
Proof.
  apply (recorded_step "2024-01-01T00:00:00" new_engine single_role_analysis
           (_merge_results []) (3 # 2) engine_after_one_run recorded_new).
  by vm_compute.
Qed.

Lemma tiered_run_completes_witness :
  tiered scenario_A_subtasks /\
  exists res,
    _execute_subtasks _execute_single_task scenario_A_subtasks
      (serial (fst <$> sorted_by_priority scenario_A_subtasks)) = Some res.
Proof.
  split; [exact scenario_A_subtasks_tiered|].
  exact (tiered_run_completes _execute_single_task scenario_A_subtasks
           scenario_A_subtasks_tiered).
Defined.

Lemma unknown_dependency_never_returns_witness :
  scenario_A_frontend ∈ scenario_A_subtasks /\
  (set_dependencies ["subtask_9"] scenario_A_frontend) ∈ dangling_subtasks /\
  ("subtask_9" ∉ (id <$> dangling_subtasks)) /\
  _execute_subtasks _execute_single_task dangling_subtasks serial_schedule
    = None.
Proof.
  assert (scenario_A_frontend ∈ scenario_A_subtasks) as Hin
    by (apply (list_elem_of_lookup_2 _ 1%nat); by vm_compute).
  assert ((set_dependencies ["subtask_9"] scenario_A_frontend)
            ∈ dangling_subtasks) as Hin'
    by (apply (list_elem_of_lookup_2 _ 1%nat); by vm_compute).
  assert ("subtask_9" ∉ (id <$> dangling_subtasks)) as Hout
    by (apply (bool_decide_unpack _); by vm_compute).
  split; [exact Hin|]. split; [exact Hin'|]. split; [exact Hout|].
  apply (unknown_dependency_never_returns _execute_single_task
           dangling_subtasks
           (set_dependencies ["subtask_9"] scenario_A_frontend) "subtask_9"
           serial_schedule Hin'); [|exact Hout].
  by left.
Defined.

Lemma results_follow_dependencies_witness :
  NoDup (id <$> scenario_A_subtasks) /\
  scenario_A_frontend ∈ scenario_A_subtasks /\
  "subtask_1" ∈ dependencies scenario_A_frontend /\
  exists res,
    _execute_subtasks _execute_single_task scenario_A_subtasks serial_schedule
      = Some res /\
    res !! 1%nat = Some (id scenario_A_frontend,
                         _execute_single_task scenario_A_frontend) /\
    exists q r', (q < 1)%nat /\ res !! q = Some ("subtask_1", r').
Proof.
  assert (scenario_A_frontend ∈ scenario_A_subtasks) as Hin
    by (apply (list_elem_of_lookup_2 _ 1%nat); by vm_compute).
  assert ("subtask_1" ∈ dependencies scenario_A_frontend) as Hd
    by (vm_compute; left).
  split; [exact scenario_A_subtasks_NoDup|]. split; [exact Hin|].
  split; [exact Hd|].
  eexists. split; [by vm_compute|]. split; [by vm_compute|].
  eapply (results_follow_dependencies _execute_single_task
            scenario_A_subtasks serial_schedule _ 1%nat scenario_A_frontend
            (_execute_single_task scenario_A_frontend) "subtask_1"
            scenario_A_subtasks_NoDup); [by vm_compute|exact Hin|exact Hd|].
  by vm_compute.
Defined.

Lemma one_result_per_subtask_witness :
  NoDup (id <$> scenario_A_subtasks) /\
  exists res,
    _execute_subtasks _execute_single_task scenario_A_subtasks serial_schedule
      = Some res /\
    res ≡ₚ (fun t => (id t, _execute_single_task t)) <$> scenario_A_subtasks /\
    total_tasks (summary (_merge_results res)) = 2.
Proof.
  split; [exact scenario_A_subtasks_NoDup|].
  eexists. split; [by vm_compute|].
  eapply (one_result_per_subtask _execute_single_task scenario_A_subtasks
            serial_schedule _ scenario_A_subtasks_NoDup).
  by vm_compute.
Defined.

Lemma outcome_independent_of_schedule_witness :
  NoDup (id <$> two_checks_subtasks) /\
  exists res1 res2,
    _execute_subtasks _execute_single_task two_checks_subtasks serial_schedule
      = Some res1 /\
    _execute_subtasks _execute_single_task two_checks_subtasks
      interleaved_schedule = Some res2 /\
    res1 <> res2 /\
    res1 ≡ₚ res2 /\
    summary (_merge_results res1) = summary (_merge_results res2).
Proof.
  split; [exact two_checks_subtasks_NoDup|].
  eexists _, _. split; [by vm_compute|]. split; [by vm_compute|].
  split; [by vm_compute|].
  destruct (outcome_independent_of_schedule _execute_single_task
              two_checks_subtasks serial_schedule interleaved_schedule _ _
              two_checks_subtasks_NoDup ltac:(by vm_compute)
              ltac:(by vm_compute)) as (Hperm & _ & Hsum).
  split; [exact Hperm|exact Hsum].
Defined.

Lemma recorded_metrics_bounds_witness :
  recorded engine_after_one_run /\
  exists m,
    performance_metrics engine_after_one_run !! "database-expert" = Some m /\
    1 <= m_total_tasks m /\
    (0 <= success_rate m)%Q /\ (success_rate m <= 1)%Q /\
    avg_accuracy m = 0%Q.
Proof.
  split; [exact engine_after_one_run_recorded|].
  eexists. split; [by vm_compute|].
  eapply (recorded_metrics_bounds engine_after_one_run "database-expert" _
            engine_after_one_run_recorded).
  by vm_compute.
Defined.

Lemma total_tasks_counts_records_witness :
  recorded engine_after_one_run /\
  m_total_tasks (default (mkAgentMetrics 0 0 0 0)
                   (performance_metrics engine_after_one_run
                      !! "database-expert"))
    = listed_in "database-expert" (execution_history engine_after_one_run).
Proof.
  split; [exact engine_after_one_run_recorded|].
  exact (proj1 (total_tasks_counts_records engine_after_one_run
                  "database-expert" engine_after_one_run_recorded)).
Defined.

Lemma uniform_history_success_rate_witness :
  recorded engine_after_one_run /\
  Forall (fun r => success r = true)
         (execution_history engine_after_one_run) /\
  exists m,
    performance_metrics engine_after_one_run !! "database-expert" = Some m /\
    (success_rate m == 1)%Q.
Proof.
  assert (Forall (fun r => success r = true)
                 (execution_history engine_after_one_run)) as Hall
    by (apply (bool_decide_unpack _); by vm_compute).
  split; [exact engine_after_one_run_recorded|]. split; [exact Hall|].
  eexists. split; [by vm_compute|].
  eapply (uniform_history_success_rate engine_after_one_run true
            "database-expert" _ engine_after_one_run_recorded Hall).
  by vm_compute.
Defined.


Lemma plan_stage_tasks_witness :
  exists st,
    stages (get_execution_plan scenario_A) !! 1%nat = Some st /\
    stage_tasks st = tier_entries (stage_priority st) (subtasks scenario_A) /\
    stage_tasks st <> [] /\
    parallel st = true.
Proof.
  eexists. split; [by vm_compute|].
  eapply (plan_stage_tasks scenario_A).
  apply (list_elem_of_lookup_2 _ 1%nat). by vm_compute.
Defined.

Lemma plan_dependencies_in_earlier_stages_witness :
  tiered (subtasks scenario_A) /\
  exists st,
    stages (get_execution_plan scenario_A) !! 1%nat = Some st /\
    plan_entry scenario_A_frontend ∈ stage_tasks st /\
    "subtask_1" ∈ pt_dependencies (plan_entry scenario_A_frontend) /\
    exists j st' y,
      (j < 1)%nat /\
      stages (get_execution_plan scenario_A) !! j = Some st' /\
      y ∈ stage_tasks st' /\ pt_id y = "subtask_1".
Proof.
  assert (tiered (subtasks scenario_A)) as Htier
    by exact scenario_A_subtasks_tiered.
  split; [exact Htier|].
  eexists. split; [by vm_compute|].
  assert (plan_entry scenario_A_frontend ∈
          [plan_entry scenario_A_frontend]) as Hin by left.
  assert ("subtask_1" ∈ pt_dependencies (plan_entry scenario_A_frontend))
    as Hd by (vm_compute; left).
  split; [exact Hin|]. split; [exact Hd|].
  eapply (plan_dependencies_in_earlier_stages scenario_A 1%nat _
            (plan_entry scenario_A_frontend) "subtask_1" Htier);
    [by vm_compute|exact Hin|exact Hd].
Defined.

Lemma establish_dependencies_closed_form_witness :
  exists t t',
    unwired_subtasks !! 1%nat = Some t /\
    _establish_dependencies unwired_subtasks !! 1%nat = Some t' /\
    dependencies t = [] /\
    dependencies t' = ["subtask_1"] /\
    t' = set_dependencies (dependencies t') t.
Proof.
  eexists _, _. split; [by vm_compute|]. split; [by vm_compute|].
  split; [by vm_compute|]. split; [by vm_compute|].
  eapply (establish_dependencies_closed_form unwired_subtasks 1%nat);
    by vm_compute.
Defined.

Lemma dependency_map_matches_subtasks_witness :
  NoDup (id <$> scenario_A_subtasks) /\
  dict_keys (_analyze_dependencies scenario_A_subtasks)
    = id <$> scenario_A_subtasks.
Proof.
  split; [exact scenario_A_subtasks_NoDup|].
  exact (proj1 (dependency_map_matches_subtasks scenario_A_subtasks
                  scenario_A_subtasks_NoDup)).
Defined.

Lemma estimate_time_counts_edges_witness :
  scenario_A_subtasks <> [] /\
  dag_longest_path_length (execution_graph scenario_A_subtasks) "time" 1
    = Some 1%Q /\
  exists path,
    dag_longest_path (execution_graph scenario_A_subtasks) "time" 1
      = Some path /\
    _estimate_time scenario_A_subtasks [] = 1%Q /\
    (1 == inject_Z (Z.of_nat (length path - 1)))%Q.
Proof.
  assert (scenario_A_subtasks <> []) as Hne by (by vm_compute).
  assert (dag_longest_path_length (execution_graph scenario_A_subtasks)
            "time" 1 = Some 1%Q) as Hl by (by vm_compute).
  split; [exact Hne|]. split; [exact Hl|].
  exact (estimate_time_counts_edges scenario_A_subtasks [] 1%Q Hne Hl).
Defined.

Lemma analyzed_task_executes_witness :
  Inj (=) (=) example_uuid /\
  recorded new_engine /\
  exists a m r eng',
    @analyze_task insertion_order insertion_order example_uuid
      scenario_A_text 0 = Some (a, m) /\
    execute_task _execute_single_task "2024-01-01T00:00:00" (3 # 2)
      (serial (fst <$> sorted_by_priority (subtasks a))) new_engine a
      = Some (r, eng') /\
    run_status r = "completed" /\
    all_successful (summary (run_results r)) = true /\
    length (execution_history eng') = 1%nat.
Proof.
  split; [apply pretty_nat_inj|]. split; [exact recorded_new|].
  destruct (analyzed_task_executes insertion_order insertion_order
              example_uuid scenario_A_text 0 "2024-01-01T00:00:00" (3 # 2)
              new_engine pretty_nat_inj recorded_new)
    as (a & m & r & eng' & Ha & Hex & Hst & _ & Hok & _ & _ & Hlen).
  exists a, m, r, eng'. split; [exact Ha|]. split; [exact Hex|].
  split; [exact Hst|]. split; [exact Hok|exact Hlen].
Defined.
